(** * Open/R Decision: route computation, deltas and event handling

    A shallow embedding of [openr/decision/Decision.cpp] together with
    the properties of the design document it is checked against.

    Conventions of the embedding.
    - [std::string] is [string]; [int32_t] labels and [int64_t] counts are
      [Z]; [LinkStateMetric] (an unsigned 64-bit integer) is [Z] with the
      wrap-around of its arithmetic written out ([metric_add],
      [metric_sub]).
    - [std::unordered_map] is [gmap], [std::unordered_set] is [gset];
      [std::set<std::string>] is the list of its elements in iteration
      order; [std::vector] and [std::list] are [list].  A loop over an
      unordered container is a fold over [map_to_list] or [elements];
      where the claim at hand turns on the order of the iteration, the
      order is an argument of the loop ([nodeLabelLoop]).
    - [std::optional<T>] is [option T].  Where a call can throw
      ([.at()] on an absent key, [.value()] on an empty optional) the
      embedding returns [option] in the option monad, [None] standing for
      the thrown exception.
    - [LinkState], [PrefixState], [RibPolicy] and the thrift types live in
      other files; what [Decision.cpp] asks of them is gathered in records
      of query results. *)

From Stdlib Require Import ZArith Lia.
From Stdlib Require OrderedTypeEx.
From stdpp Require Import gmap strings list fin_maps countable.

Local Open Scope Z_scope.

(** ** Thrift data *)

Inductive MplsActionCode := PUSH | SWAP | PHP | POP_AND_LOOKUP.

Inductive PrefixType := LOOPBACK | BGP | OTHER_PREFIX_TYPE.

Inductive PrefixForwardingType := IP | SR_MPLS.

Inductive PrefixForwardingAlgorithm := SP_ECMP | KSP2_ED_ECMP.

#[global] Instance MplsActionCode_eq_dec : EqDecision MplsActionCode.
Proof. solve_decision. Defined.
#[global] Instance PrefixType_eq_dec : EqDecision PrefixType.
Proof. solve_decision. Defined.
#[global] Instance PrefixForwardingType_eq_dec :
  EqDecision PrefixForwardingType.
Proof. solve_decision. Defined.
#[global] Instance PrefixForwardingAlgorithm_eq_dec :
  EqDecision PrefixForwardingAlgorithm.
Proof. solve_decision. Defined.

#[global] Instance MplsActionCode_countable : Countable MplsActionCode.
Proof.
  refine (inj_countable'
    (λ c, match c with PUSH => 0%nat | SWAP => 1%nat | PHP => 2%nat
                     | POP_AND_LOOKUP => 3%nat end)
    (λ n, match n with 0%nat => PUSH | 1%nat => SWAP | 2%nat => PHP
                     | _ => POP_AND_LOOKUP end) _).
  by intros [].
Defined.

(** [thrift::MplsAction]. *)
Record MplsAction := mkMplsAction {
  action : MplsActionCode;
  swapLabel : option Z;
  pushLabels : option (list Z)
}.

#[global] Instance MplsAction_eq_dec : EqDecision MplsAction.
Proof. solve_decision. Defined.

#[global] Instance MplsAction_countable : Countable MplsAction.
Proof.
  refine (inj_countable'
    (λ a, (action a, swapLabel a, pushLabels a))
    (λ t, mkMplsAction t.1.1 t.1.2 t.2) _).
  by intros [].
Defined.

(** [createMplsAction(code, swapLabel, pushLabels)]. *)
Definition createMplsAction (code : MplsActionCode) (swap : option Z)
    (push : option (list Z)) : MplsAction :=
  mkMplsAction code swap push.

(** [thrift::IpPrefix]: the raw address bytes and the prefix length. *)
Record IpPrefix := mkIpPrefix {
  prefixAddress_addr : string;
  prefixLength : Z
}.

#[global] Instance IpPrefix_eq_dec : EqDecision IpPrefix.
Proof. solve_decision. Defined.

#[global] Instance IpPrefix_countable : Countable IpPrefix.
Proof.
  refine (inj_countable'
    (λ p, (prefixAddress_addr p, prefixLength p))
    (λ t, mkIpPrefix t.1 t.2) _).
  by intros [].
Defined.

(** [thrift::NextHopThrift] as [createNextHop] fills it: address,
    interface, metric, MPLS action, the non-shortest mark and the area. *)
Record NextHop := mkNextHop {
  nh_address : string;
  nh_ifName : option string;
  nh_metric : Z;
  nh_mplsAction : option MplsAction;
  nh_useNonShortestRoute : bool;
  nh_area : option string
}.

#[global] Instance NextHop_eq_dec : EqDecision NextHop.
Proof. solve_decision. Defined.

#[global] Instance NextHop_countable : Countable NextHop.
Proof.
  refine (inj_countable'
    (λ n, (nh_address n, nh_ifName n, nh_metric n, nh_mplsAction n,
           nh_useNonShortestRoute n, nh_area n))
    (λ t, mkNextHop t.1.1.1.1.1 t.1.1.1.1.2 t.1.1.1.2 t.1.1.2 t.1.2 t.2) _).
  by intros [].
Defined.

Definition createNextHop (addr : string) (ifName : option string)
    (metric : Z) (mplsAction : option MplsAction)
    (useNonShortestRoute : bool) (area : option string) : NextHop :=
  mkNextHop addr ifName metric mplsAction useNonShortestRoute area.

(** [thrift::PrefixEntry], with the fields the route computation reads. *)
Record PrefixEntry := mkPrefixEntry {
  pe_prefix : IpPrefix;
  pe_type : PrefixType;
  forwardingType : PrefixForwardingType;
  forwardingAlgorithm : PrefixForwardingAlgorithm;
  prependLabel : option Z;
  minNexthop : option Z
}.

#[global] Instance PrefixEntry_eq_dec : EqDecision PrefixEntry.
Proof. solve_decision. Defined.

(** [thrift::UnicastRoute] and [thrift::MplsRoute]: next hops are a
    vector on the wire. *)
Record UnicastRoute := mkUnicastRoute {
  dest : IpPrefix;
  ur_nextHops : list NextHop;
  ur_bestPrefixEntry : option PrefixEntry;
  ur_doNotInstall : bool;
  ur_bestNexthop : option NextHop
}.

Record MplsRoute := mkMplsRoute {
  topLabel : Z;
  mr_nextHops : list NextHop
}.

#[global] Instance MplsRoute_eq_dec : EqDecision MplsRoute.
Proof. solve_decision. Defined.

(** [thrift::PerfEvents]: the node and the description of every event;
    the time stamps are left out. *)
Abbreviation PerfEvents := (list (string * string)).

Definition addPerfEvent (perfEvents : PerfEvents) (nodeName : string)
    (eventDescr : string) : PerfEvents :=
  perfEvents ++ [(nodeName, eventDescr)].

(** [thrift::RouteDatabaseDelta]. *)
Record RouteDatabaseDelta := mkRouteDatabaseDelta {
  thisNodeName : string;
  unicastRoutesToUpdate : list UnicastRoute;
  unicastRoutesToDelete : list IpPrefix;
  mplsRoutesToUpdate : list MplsRoute;
  mplsRoutesToDelete : list Z;
  perfEvents : option PerfEvents
}.

(** ** RIB entries ([RibEntry.h]) *)

Record RibUnicastEntry := mkRibUnicastEntry {
  prefix : IpPrefix;
  nexthops : gset NextHop;
  bestPrefixEntry : option PrefixEntry;
  doNotInstall : bool;
  bestNexthop : option NextHop
}.

Record RibMplsEntry := mkRibMplsEntry {
  label : Z;
  mpls_nexthops : gset NextHop
}.

#[global] Instance RibUnicastEntry_eq_dec : EqDecision RibUnicastEntry.
Proof. solve_decision. Defined.
#[global] Instance RibMplsEntry_eq_dec : EqDecision RibMplsEntry.
Proof. solve_decision. Defined.

(** Modelled from the spec: [RibUnicastEntry::toTUnicastRoute] and
    [RibMplsEntry::toTMplsRoute] are declared in [RibEntry.h], which is
    not part of the sources at hand.  Following the data model, the
    thrift route carries the entry's own prefix (or label) and its fields,
    the next-hop set laid out as a vector. *)
Definition toTUnicastRoute (e : RibUnicastEntry) : UnicastRoute :=
  mkUnicastRoute (prefix e) (elements (nexthops e)) (bestPrefixEntry e)
    (doNotInstall e) (bestNexthop e).

Definition toTMplsRoute (e : RibMplsEntry) : MplsRoute :=
  mkMplsRoute (label e) (elements (mpls_nexthops e)).

(** [DecisionRouteDb]. *)
Record DecisionRouteDb := mkDecisionRouteDb {
  unicastEntries : gmap IpPrefix RibUnicastEntry;
  mplsEntries : gmap Z RibMplsEntry
}.

Definition emptyRouteDb : DecisionRouteDb := mkDecisionRouteDb ∅ ∅.

(** ** [getRouteDelta] *)

(** The body of the two "routes to update" loops: an entry of the new
    database is skipped when the old database holds an equal entry under
    the same key. *)
Definition entriesToUpdate `{Countable K} {E R : Type} `{EqDecision E}
    (toT : E → R) (newEntries oldEntries : gmap K E) : list R :=
  omap (λ kv : K * E,
          match oldEntries !! kv.1 with
          | Some oldEntry =>
              if decide (oldEntry = kv.2) then None else Some (toT kv.2)
          | None => Some (toT kv.2)
          end)
       (map_to_list newEntries).

(** The body of the two "routes to delete" loops. *)
Definition keysToDelete `{Countable K} {E : Type}
    (newEntries oldEntries : gmap K E) : list K :=
  omap (λ kv : K * E,
          match newEntries !! kv.1 with
          | None => Some kv.1
          | Some _ => None
          end)
       (map_to_list oldEntries).

Definition getRouteDelta (newDb oldDb : DecisionRouteDb)
    : RouteDatabaseDelta :=
  {| thisNodeName := "";
     unicastRoutesToUpdate :=
       entriesToUpdate toTUnicastRoute
         (unicastEntries newDb) (unicastEntries oldDb);
     unicastRoutesToDelete :=
       keysToDelete (unicastEntries newDb) (unicastEntries oldDb);
     mplsRoutesToUpdate :=
       entriesToUpdate toTMplsRoute (mplsEntries newDb) (mplsEntries oldDb);
     mplsRoutesToDelete :=
       keysToDelete (mplsEntries newDb) (mplsEntries oldDb);
     perfEvents := None |}.

(** *** What a consumer does with a delta

    The inverse of the thrift conversions, and the application of a delta
    to a route database: every updated route is stored under its own
    destination (top label), then every deleted key is removed. *)
Definition fromTUnicastRoute (r : UnicastRoute) : RibUnicastEntry :=
  mkRibUnicastEntry (dest r) (list_to_set (ur_nextHops r))
    (ur_bestPrefixEntry r) (ur_doNotInstall r) (ur_bestNexthop r).

Definition fromTMplsRoute (r : MplsRoute) : RibMplsEntry :=
  mkRibMplsEntry (topLabel r) (list_to_set (mr_nextHops r)).

Definition applyUpdates `{Countable K} {E R : Type}
    (key : R → K) (fromT : R → E) (updates : list R) (m : gmap K E)
    : gmap K E :=
  foldl (λ acc r, <[key r := fromT r]> acc) m updates.

Definition applyDeletes `{Countable K} {E : Type}
    (deletes : list K) (m : gmap K E) : gmap K E :=
  foldl (λ acc k, delete k acc) m deletes.

Definition applyRouteDelta (delta : RouteDatabaseDelta)
    (db : DecisionRouteDb) : DecisionRouteDb :=
  {| unicastEntries :=
       applyDeletes (unicastRoutesToDelete delta)
         (applyUpdates dest fromTUnicastRoute
            (unicastRoutesToUpdate delta) (unicastEntries db));
     mplsEntries :=
       applyDeletes (mplsRoutesToDelete delta)
         (applyUpdates topLabel fromTMplsRoute
            (mplsRoutesToUpdate delta) (mplsEntries db)) |}.

(** A route database is keyed consistently when every entry sits under
    its own prefix (label); [buildRouteDb] only ever emplaces such
    entries. *)
Definition keyedByOwnKey (db : DecisionRouteDb) : Prop :=
  (∀ p e, unicastEntries db !! p = Some e → prefix e = p) ∧
  (∀ l e, mplsEntries db !! l = Some e → label e = l).

(** ** Counters ([fb303::fbData]) *)

Abbreviation Counters := (gmap string Z).

Definition addStatValue (key : string) (v : Z) (c : Counters) : Counters :=
  <[key := default 0 (c !! key) + v]> c.

Definition counter (key : string) (c : Counters) : Z := default 0 (c !! key).

(** ** [LinkStateMetric] arithmetic: unsigned, 64 bits *)

Definition metric_modulus : Z := 2 ^ 64.

Definition metric_max : Z := metric_modulus - 1.

Definition metric_add (a b : Z) : Z := (a + b) mod metric_modulus.

Definition metric_sub (a b : Z) : Z := (a - b) mod metric_modulus.

(** ** The link-state view of one area *)

(** What [Decision.cpp] reads from a [Link]; every accessor but the area
    and the status takes the name of the node whose side is asked for. *)
Class LinkOps (Link : Type) := {
  link_eq_dec :: EqDecision Link;
  getOtherNodeName : Link → string → string;
  getMetricFromNode : Link → string → Z;
  getAdjLabelFromNode : Link → string → Z;
  getIfaceFromNode : Link → string → string;
  getNhV4FromNode : Link → string → string;
  getNhV6FromNode : Link → string → string;
  getArea : Link → string;
  isUp : Link → bool
}.

(** [LinkState::NodeSpfResult]. *)
Record NodeSpfResult := mkNodeSpfResult {
  metric : Z;
  nextHops : gset string
}.

(** [thrift::AdjacencyDatabase], as far as the route builder reads it. *)
Record AdjacencyDatabase := mkAdjacencyDatabase {
  adj_thisNodeName : string;
  nodeLabel : Z;
  adj_perfEvents : option PerfEvents
}.

(** The queries [Decision.cpp] makes of a [LinkState]. *)
Record LinkState (Link : Type) := mkLinkState {
  hasNode : string → bool;
  getSpfResult : string → gmap string NodeSpfResult;
  getMetricFromAToB : string → string → option Z;
  linksFromNode : string → list Link;
  getAdjacencyDatabases : gmap string AdjacencyDatabase;
  getKthPaths : string → string → Z → list (list Link);
  isNodeOverloaded : string → bool
}.

Arguments hasNode {Link} _ _.
Arguments getSpfResult {Link} _ _.
Arguments getMetricFromAToB {Link} _ _ _.
Arguments linksFromNode {Link} _ _.
Arguments getAdjacencyDatabases {Link} _.
Arguments getKthPaths {Link} _ _ _ _.
Arguments isNodeOverloaded {Link} _ _.

(** The queries made of a [PrefixState]. *)
Record PrefixState := mkPrefixState {
  prefixes : gmap IpPrefix (gmap string PrefixEntry);
  getLoopbackVias : list string → bool → option Z → list NextHop
}.

(** [thrift::StaticRoutes]. *)
Abbreviation StaticRoutes := (gmap Z (list NextHop)).

(** The members of [SpfSolver::SpfSolverImpl]. *)
Record SpfSolverImpl := mkSpfSolverImpl {
  staticRoutes_ : StaticRoutes;
  staticRoutesUpdates_ : list RouteDatabaseDelta;
  solverNodeName_ : string;
  enableV4_ : bool;
  computeLfaPaths_ : bool;
  enableOrderedFib_ : bool;
  bgpDryRun_ : bool;
  bgpUseIgpMetric_ : bool
}.

(** [BestPathCalResult]. *)
Record BestPathCalResult := mkBestPathCalResult {
  success : bool;
  nodes : list string;
  bestNode : string;
  bestIgpMetric : option Z
}.

(** Modelled from the spec: [isMplsLabelValid] comes from
    [openr/common/Util.h]; a label is valid when it lies in the MPLS
    range, 0 up to (not including) 2^20. *)
Definition isMplsLabelValid (l : Z) : bool := (0 <=? l) && (l <? 2 ^ 20).

(** Modelled from the spec: [LinkState::pathAInPathB a b] is declared in
    [LinkState.h]; path [a] is in path [b] when the links of [a] occur in
    [b] as a contiguous run. *)
Fixpoint pathStartsWith {Link} `{EqDecision Link} (a b : list Link) : bool :=
  match a, b with
  | [], _ => true
  | _ :: _, [] => false
  | x :: a', y :: b' => bool_decide (x = y) && pathStartsWith a' b'
  end.

Fixpoint pathAInPathB {Link} `{EqDecision Link} (a b : list Link) : bool :=
  pathStartsWith a b ||
  match b with
  | [] => false
  | _ :: b' => pathAInPathB a b'
  end.

(** A loop whose body may throw: the first exception ends it. *)
Fixpoint foldlM {A B : Type} (f : A → B → option A) (a : A) (l : list B)
    : option A :=
  match l with
  | [] => Some a
  | x :: l' => a' ← f a x; foldlM f a' l'
  end.

(** [std::unordered_map::emplace]: no effect when the key is taken. *)
Definition emplace `{Countable K} {V : Type} (k : K) (v : V) (m : gmap K V)
    : gmap K V :=
  match m !! k with
  | Some _ => m
  | None => <[k := v]> m
  end.

Section SpfSolver.
Context {Link : Type} `{LinkOps Link}.

(** *** [getMinCostNodes] *)
Definition minCostStep (spfResult : gmap string NodeSpfResult)
    (acc : Z * gset string) (dstNode : string) : Z * gset string :=
  match spfResult !! dstNode with
  | None => acc
  | Some it =>
      let nodeDistance := metric it in
      if acc.1 >=? nodeDistance then
        let acc' :=
          if acc.1 >? nodeDistance then (nodeDistance, ∅) else acc in
        (acc'.1, {[dstNode]} ∪ acc'.2)
      else acc
  end.

Definition getMinCostNodes (spfResult : gmap string NodeSpfResult)
    (dstNodeNames : list string) : Z * gset string :=
  foldl (minCostStep spfResult) (metric_max, ∅) dstNodeNames.

(** *** [getNextHopsWithMetric] *)

Definition dstNodeRef (perDestination : bool) (dstNode : string) : string :=
  if perDestination then dstNode else "".

(** "Add neighbors with shortest path to the prefix". *)
Definition addShortestPathNextHops (myNodeName : string)
    (perDestination : bool) (linkState : LinkState Link)
    (shortestMetric : Z) (minCostNodes : list string)
    (nextHopNodes : gmap (string * string) Z)
    : option (gmap (string * string) Z) :=
  let shortestPathsFromHere := getSpfResult linkState myNodeName in
  foldlM (λ nhs dstNode,
            r ← shortestPathsFromHere !! dstNode;
            foldlM (λ nhs' nhName,
                      m ← getMetricFromAToB linkState myNodeName nhName;
                      Some (<[(nhName, dstNodeRef perDestination dstNode)
                               := metric_sub shortestMetric m]> nhs'))
                   nhs (elements (nextHops r)))
         nextHopNodes minCostNodes.

(** The body of the loop over the destinations for one neighbour. *)
Definition lfaStep (perDestination : bool) (shortestMetric : Z)
    (neighborName : string)
    (shortestPathsFromNeighbor : gmap string NodeSpfResult)
    (neighborToHere : Z)
    (nextHopNodes : gmap (string * string) Z) (dstNode : string)
    : gmap (string * string) Z :=
  match shortestPathsFromNeighbor !! dstNode with
  | None => nextHopNodes
  | Some r =>
      let distanceFromNeighbor := metric r in
      if distanceFromNeighbor <? metric_add shortestMetric neighborToHere
      then
        let nextHopKey :=
          (neighborName, dstNodeRef perDestination dstNode) in
        match nextHopNodes !! nextHopKey with
        | None => <[nextHopKey := distanceFromNeighbor]> nextHopNodes
        | Some v =>
            if v >? distanceFromNeighbor
            then <[nextHopKey := distanceFromNeighbor]> nextHopNodes
            else nextHopNodes
        end
      else nextHopNodes
  end.

(** The body of the loop over the links of this node. *)
Definition lfaLinkStep (myNodeName : string) (dstNodeNames : list string)
    (perDestination : bool) (linkState : LinkState Link)
    (shortestMetric : Z)
    (nextHopNodes : gmap (string * string) Z) (link : Link)
    : option (gmap (string * string) Z) :=
  if negb (isUp link) then Some nextHopNodes
  else
    let neighborName := getOtherNodeName link myNodeName in
    let shortestPathsFromNeighbor := getSpfResult linkState neighborName in
    r ← shortestPathsFromNeighbor !! myNodeName;
    Some (foldl (lfaStep perDestination shortestMetric neighborName
                   shortestPathsFromNeighbor (metric r))
                nextHopNodes dstNodeNames).

(** "add any other neighbors that have LFA paths to the prefix". *)
Definition addLfaNextHops (myNodeName : string)
    (dstNodeNames : list string) (perDestination : bool)
    (linkState : LinkState Link) (shortestMetric : Z)
    (nextHopNodes : gmap (string * string) Z)
    : option (gmap (string * string) Z) :=
  foldlM (lfaLinkStep myNodeName dstNodeNames perDestination linkState
            shortestMetric)
         nextHopNodes (linksFromNode linkState myNodeName).

Definition getNextHopsWithMetric (s : SpfSolverImpl) (myNodeName : string)
    (dstNodeNames : list string) (perDestination : bool)
    (linkState : LinkState Link)
    : option (Z * gmap (string * string) Z) :=
  let shortestPathsFromHere := getSpfResult linkState myNodeName in
  let minMetricNodes := getMinCostNodes shortestPathsFromHere dstNodeNames in
  let shortestMetric := minMetricNodes.1 in
  let minCostNodes := minMetricNodes.2 in
  if decide (minCostNodes = ∅) then Some (shortestMetric, ∅)
  else
    nhs ← addShortestPathNextHops myNodeName perDestination linkState
             shortestMetric (elements minCostNodes) ∅;
    nhs' ← (if computeLfaPaths_ s
            then addLfaNextHops myNodeName dstNodeNames perDestination
                   linkState shortestMetric nhs
            else Some nhs);
    Some (shortestMetric, nhs').

(** *** [getNextHopsThrift] *)

(** The body of the inner loop: [None] when the iteration throws,
    [Some None] when it is skipped with [continue], [Some (Some nh)]
    when a next hop is emplaced. *)
Definition nextHopOverLink (s : SpfSolverImpl) (myNodeName : string)
    (dstNodeNames : list string) (isV4 : bool) (minMetric : Z)
    (nextHopNodes : gmap (string * string) Z) (swapLabel : option Z)
    (linkState : LinkState Link) (link : Link) (dstNode : string)
    : option (option NextHop) :=
  let neighborNode := getOtherNodeName link myNodeName in
  match nextHopNodes !! (neighborNode, dstNode) with
  | None => Some None
  | Some searchSecond =>
      if negb (isUp link) then Some None
      else if negb (String.eqb dstNode "")
              && bool_decide (neighborNode ∈ dstNodeNames)
              && negb (String.eqb neighborNode dstNode)
      then Some None
      else
        let distOverLink :=
          metric_add (getMetricFromNode link myNodeName) searchSecond in
        if negb (computeLfaPaths_ s) && negb (distOverLink =? minMetric)
        then Some None
        else
          let mplsAction :=
            match swapLabel with
            | Some _ =>
                let isNextHopAlsoDst :=
                  bool_decide (neighborNode ∈ dstNodeNames) in
                Some (createMplsAction
                        (if isNextHopAlsoDst then PHP else SWAP)
                        (if isNextHopAlsoDst then None else swapLabel)
                        None)
            | None => None
            end in
          let emit (act : option MplsAction) : NextHop :=
            createNextHop
              (if isV4 then getNhV4FromNode link myNodeName
               else getNhV6FromNode link myNodeName)
              (Some (getIfaceFromNode link myNodeName))
              distOverLink act false (Some (getArea link)) in
          if negb (String.eqb dstNode "")
             && negb (String.eqb dstNode neighborNode)
          then
            adjDb ← getAdjacencyDatabases linkState !! dstNode;
            let dstNodeLabel := nodeLabel adjDb in
            if negb (isMplsLabelValid dstNodeLabel) then Some None
            else
              match mplsAction with
              | Some _ => None (* CHECK(not mplsAction.has_value()) *)
              | None =>
                  Some (Some (emit (Some (createMplsAction PUSH None
                                            (Some [dstNodeLabel])))))
              end
          else Some (Some (emit mplsAction))
  end.

Definition getNextHopsThrift (s : SpfSolverImpl) (myNodeName : string)
    (dstNodeNames : list string) (isV4 perDestination : bool)
    (minMetric : Z) (nextHopNodes : gmap (string * string) Z)
    (swapLabel : option Z) (linkState : LinkState Link)
    : option (gset NextHop) :=
  if decide (nextHopNodes = ∅) then None (* CHECK(not empty) *)
  else
    foldlM (λ nextHops link,
              foldlM (λ nextHops' dstNode,
                        r ← nextHopOverLink s myNodeName dstNodeNames isV4
                               minMetric nextHopNodes swapLabel linkState
                               link dstNode;
                        Some (match r with
                              | Some nh => {[nh]} ∪ nextHops'
                              | None => nextHops'
                              end))
                     nextHops
                     (if perDestination then dstNodeNames else [""]))
           ∅ (linksFromNode linkState myNodeName).

(** *** [buildRouteDb]: MPLS routes for the node labels *)

(** The node-label loop keeps, per label, the advertising node and its
    entry, and counts what it skips. *)
Record NodeLabelState := mkNodeLabelState {
  labelToNode : gmap Z (string * RibMplsEntry);
  counters : Counters
}.

(** One iteration of the loop over the adjacency databases. *)
Definition nodeLabelStep (s : SpfSolverImpl) (myNodeName : string)
    (linkState : LinkState Link) (st : NodeLabelState)
    (adjDb : AdjacencyDatabase) : option NodeLabelState :=
  let topLabel := nodeLabel adjDb in
  if topLabel =? 0 then Some st
  else if negb (isMplsLabelValid topLabel) then
    Some (mkNodeLabelState (labelToNode st)
            (addStatValue "decision.skipped_mpls_route" 1 (counters st)))
  else
    let found := labelToNode st !! topLabel in
    let cnt :=
      match found with
      | Some _ => addStatValue "decision.duplicate_node_label" 1 (counters st)
      | None => counters st
      end in
    if match found with
       | Some iter => String.ltb iter.1 (adj_thisNodeName adjDb)
       | None => false
       end
    then Some (mkNodeLabelState (labelToNode st) cnt)
    else if String.eqb (adj_thisNodeName adjDb) myNodeName then
      let nh :=
        mkNextHop "::" None 0
          (Some (createMplsAction POP_AND_LOOKUP None None)) false None in
      Some (mkNodeLabelState
              (<[topLabel := (adj_thisNodeName adjDb,
                              mkRibMplsEntry topLabel {[nh]})]>
                 (delete topLabel (labelToNode st)))
              cnt)
    else
      metricNhs ← getNextHopsWithMetric s myNodeName
                     [adj_thisNodeName adjDb] false linkState;
      if decide (metricNhs.2 = ∅) then
        Some (mkNodeLabelState (labelToNode st)
                (addStatValue "decision.no_route_to_label" 1 cnt))
      else
        nhs ← getNextHopsThrift s myNodeName [adj_thisNodeName adjDb]
                 false false metricNhs.1 metricNhs.2 (Some topLabel)
                 linkState;
        Some (mkNodeLabelState
                (<[topLabel := (adj_thisNodeName adjDb,
                                mkRibMplsEntry topLabel nhs)]>
                   (delete topLabel (labelToNode st)))
                cnt).

(** The loop, over the adjacency databases in the order the container
    yields them. *)
Definition nodeLabelLoop (s : SpfSolverImpl) (myNodeName : string)
    (linkState : LinkState Link) (order : list AdjacencyDatabase)
    (cnt : Counters) : option NodeLabelState :=
  foldlM (nodeLabelStep s myNodeName linkState)
         (mkNodeLabelState ∅ cnt) order.

(** "for (auto& [label, nodeToEntry] : labelToNode)
     routeDb.mplsEntries.emplace(label, nodeToEntry.second)". *)
Definition nodeLabelRoutes (s : SpfSolverImpl) (myNodeName : string)
    (linkState : LinkState Link) (order : list AdjacencyDatabase)
    (cnt : Counters) (mpls : gmap Z RibMplsEntry)
    : option (gmap Z RibMplsEntry * Counters) :=
  st ← nodeLabelLoop s myNodeName linkState order cnt;
  Some (foldl (λ m kv, emplace kv.1 (kv.2).2 m) mpls
              (map_to_list (labelToNode st)),
        counters st).

(** *** [maybeFilterDrainedNodes] and [getBestAnnouncingNodes] *)

Definition maybeFilterDrainedNodes (result : BestPathCalResult)
    (linkState : LinkState Link) : BestPathCalResult :=
  let filtered :=
    mkBestPathCalResult (success result)
      (List.filter (λ n, negb (isNodeOverloaded linkState n)) (nodes result))
      (bestNode result) (bestIgpMetric result) in
  match nodes filtered with
  | [] => result
  | _ => filtered
  end.

Definition emptyBestPathCalResult : BestPathCalResult :=
  mkBestPathCalResult false [] "" None.

(** [std::set::insert] on the sorted list of its elements. *)
Fixpoint set_insert (x : string) (l : list string) : list string :=
  match l with
  | [] => [x]
  | y :: l' =>
      if String.eqb x y then l
      else if String.ltb x y then x :: l
      else y :: set_insert x l'
  end.

(** The loop "if it is openr route, all nodes are considered as best
    nodes": [None] when this node advertises the prefix itself. *)
Definition allAnnouncingNodes (myNodeName : string)
    (advertisers : list string) : option (list string) :=
  foldlM (λ acc n,
            if String.eqb n myNodeName then None else Some (set_insert n acc))
         [] advertisers.

(** [runBestPathSelectionBgp] compares metric vectors with
    [MetricVectorUtils], which is defined elsewhere; its result is taken
    as an argument. *)
Definition getBestAnnouncingNodes (bestPathCalRes : BestPathCalResult)
    (myNodeName : string) (nodePrefixes : gmap string PrefixEntry)
    (hasBgp useKsp2EdAlgo : bool) (linkState : LinkState Link)
    : BestPathCalResult :=
  let dstNodes := emptyBestPathCalResult in
  if useKsp2EdAlgo
     && existsb (λ kv : string * PrefixEntry,
                   negb (bool_decide (forwardingType kv.2 = SR_MPLS)))
                (map_to_list nodePrefixes)
  then dstNodes
  else if negb hasBgp then
    match allAnnouncingNodes myNodeName (map_to_list nodePrefixes).*1 with
    | None => dstNodes
    | Some ns =>
        maybeFilterDrainedNodes
          (mkBestPathCalResult true ns (bestNode dstNodes)
             (bestIgpMetric dstNodes))
          linkState
    end
  else if negb (success bestPathCalRes) then dstNodes
  else if negb useKsp2EdAlgo then
    if bool_decide (myNodeName ∈ nodes bestPathCalRes) then dstNodes
    else maybeFilterDrainedNodes bestPathCalRes linkState
  else
    let labelExistForMyNode :=
      match nodePrefixes !! myNodeName with
      | Some pe => bool_decide (is_Some (prependLabel pe))
      | None => false
      end in
    if negb (bool_decide (myNodeName ∈ nodes bestPathCalRes))
       || ((1 <? length (nodes bestPathCalRes))%nat && labelExistForMyNode)
    then maybeFilterDrainedNodes bestPathCalRes linkState
    else dstNodes.

(** *** [getMinNextHopThreshold] *)
Definition getMinNextHopThreshold (nodes_ : BestPathCalResult)
    (nodePrefixes : gmap string PrefixEntry) : option Z :=
  foldl (λ maxMinNexthopForPrefix node,
           match nodePrefixes !! node with
           | Some npKv =>
               match minNexthop npKv with
               | Some v =>
                   match maxMinNexthopForPrefix with
                   | None => Some v
                   | Some cur => if v >? cur then Some v else Some cur
                   end
               | None => maxMinNexthopForPrefix
               end
           | None => maxMinNexthopForPrefix
           end)
        None (nodes nodes_).

(** *** [selectKsp2] *)

(** "find shortest and sec shortest routes towards each node": the
    first loop. *)
Definition ksp2FirstPaths (myNodeName : string) (dstNodes : list string)
    (linkState : LinkState Link) : list (list Link) :=
  foldl (λ paths node,
           if String.eqb node myNodeName then paths
           else foldl (λ ps path, ps ++ [path]) paths
                      (getKthPaths linkState myNodeName node 1))
        [] dstNodes.

(** The test made on one second-shortest path: compare it with
    [paths[0]] .. [paths[firstPathsSize - 1]]. *)
Definition ksp2AddSecPath (firstPathsSize : nat)
    (paths : list (list Link)) (secPath : list Link) : list (list Link) :=
  let add :=
    negb (existsb (λ first, pathAInPathB first secPath)
                  (take firstPathsSize paths)) in
  if add then paths ++ [secPath] else paths.

(** The second loop. *)
Definition ksp2Paths (myNodeName : string) (dstNodes : list string)
    (linkState : LinkState Link) : list (list Link) :=
  let paths := ksp2FirstPaths myNodeName dstNodes linkState in
  let firstPathsSize := length paths in
  foldl (λ ps node,
           foldl (ksp2AddSecPath firstPathsSize) ps
                 (getKthPaths linkState myNodeName node 2))
        paths dstNodes.

(** One link of the walk along a path: the accumulated cost, the node
    reached and the labels pushed at the front. *)
Definition ksp2WalkStep (linkState : LinkState Link)
    (acc : Z * string * list Z) (link : Link) : option (Z * string * list Z) :=
  let '(cost, nextNodeName, labels) := acc in
  let cost' := metric_add cost (getMetricFromNode link nextNodeName) in
  let nextNodeName' := getOtherNodeName link nextNodeName in
  adjDb ← getAdjacencyDatabases linkState !! nextNodeName';
  Some (cost', nextNodeName', nodeLabel adjDb :: labels).

Definition ksp2WalkPath (myNodeName : string) (linkState : LinkState Link)
    (path : list Link) : option (Z * string * list Z) :=
  foldlM (ksp2WalkStep linkState) (0, myNodeName, []) path.

(** [labels.pop_back()]; undefined on an empty list. *)
Definition pop_back {A : Type} (l : list A) : option (list A) :=
  match l with
  | [] => None
  | _ => Some (removelast l)
  end.

(** The next hop built for one retained path. *)
Definition ksp2PathNextHop (myNodeName : string) (prefix_ : IpPrefix)
    (nodePrefixes : gmap string PrefixEntry) (linkState : LinkState Link)
    (path : list Link) : option NextHop :=
  '(cost, nextNodeName, labels) ← ksp2WalkPath myNodeName linkState path;
  labels1 ← pop_back labels;
  pe ← nodePrefixes !! nextNodeName;
  let labels2 :=
    match prependLabel pe with
    | Some l => l :: labels1
    | None => labels1
    end in
  firstLink ← head path;
  let mplsAction :=
    match labels2 with
    | [] => None
    | _ => Some (createMplsAction PUSH None (Some labels2))
    end in
  let isV4Prefix :=
    (String.length (prefixAddress_addr prefix_) =? 4)%nat in
  Some (createNextHop
          (if isV4Prefix then getNhV4FromNode firstLink myNodeName
           else getNhV6FromNode firstLink myNodeName)
          (Some (getIfaceFromNode firstLink myNodeName))
          cost mplsAction true (Some (getArea firstLink))).

(** The next hops taken from the static MPLS route of this node's
    prepend label, with the number of static next hops counted. *)
Definition ksp2StaticNextHops (s : SpfSolverImpl) (myNodeName : string)
    (nodePrefixes : gmap string PrefixEntry) (selfNodeContained : bool)
    (nhs : gset NextHop) : option (gset NextHop * Z) :=
  if selfNodeContained then
    pe ← nodePrefixes !! myNodeName;
    label_ ← prependLabel pe;
    match staticRoutes_ s !! label_ with
    | Some routeNhs =>
        Some (foldl (λ '(acc, staticNexthops) nh,
                       ({[createNextHop (nh_address nh) None 0 None true
                            None]} ∪ acc,
                        staticNexthops + 1))
                    (nhs, 0) routeNhs)
    | None => Some (nhs, 0)
    end
  else Some (nhs, 0).

(** The entry after the next-hop loops, with the static count. *)
Definition ksp2NextHops (s : SpfSolverImpl) (prefix_ : IpPrefix)
    (myNodeName : string) (bestPathCalResult : BestPathCalResult)
    (nodePrefixes : gmap string PrefixEntry) (linkState : LinkState Link)
    (paths : list (list Link)) : option (gset NextHop * Z) :=
  nhs ← foldlM (λ acc path,
                  nh ← ksp2PathNextHop myNodeName prefix_ nodePrefixes
                          linkState path;
                  Some ({[nh]} ∪ acc))
               ∅ paths;
  ksp2StaticNextHops s myNodeName nodePrefixes
    (bool_decide (myNodeName ∈ nodes bestPathCalResult)) nhs.

(** "if we have set minNexthop for prefix and # of nexthop didn't meet
    the threshold, we will ignore this route". *)
Definition ksp2BelowMinNextHop (minNextHop : option Z)
    (nexthopsSize staticNexthops : Z) : bool :=
  let dynamicNextHop := nexthopsSize - staticNexthops in
  match minNextHop with
  | Some v => v >? dynamicNextHop
  | None => false
  end.

Definition selectKsp2 (s : SpfSolverImpl)
    (unicastEntries_ : gmap IpPrefix RibUnicastEntry) (prefix_ : IpPrefix)
    (myNodeName : string) (bestPathCalResult : BestPathCalResult)
    (nodePrefixes : gmap string PrefixEntry) (hasBgp : bool)
    (linkState : LinkState Link) (prefixState : PrefixState)
    : option (gmap IpPrefix RibUnicastEntry) :=
  let paths := ksp2Paths myNodeName (nodes bestPathCalResult) linkState in
  if (length paths =? 0)%nat then Some unicastEntries_
  else
    '(nhs, staticNexthops) ←
      ksp2NextHops s prefix_ myNodeName bestPathCalResult nodePrefixes
        linkState paths;
    let minNextHop := getMinNextHopThreshold bestPathCalResult nodePrefixes in
    if ksp2BelowMinNextHop minNextHop (Z.of_nat (size nhs)) staticNexthops
    then Some unicastEntries_
    else
      let entry := mkRibUnicastEntry prefix_ nhs None false None in
      entry' ←
        (if hasBgp then
           let bestNextHop :=
             getLoopbackVias prefixState [bestNode bestPathCalResult]
               (String.length (prefixAddress_addr prefix_) =? 4)%nat
               (bestIgpMetric bestPathCalResult) in
           match bestNextHop with
           | [nh] =>
               pe ← nodePrefixes !! bestNode bestPathCalResult;
               Some (mkRibUnicastEntry prefix_ nhs (Some pe)
                       (bgpDryRun_ s) (Some nh))
           | _ => Some entry
           end
         else Some entry);
      Some (emplace prefix_ entry' unicastEntries_).

(** *** Static MPLS routes *)

Definition staticRoutesUpdated (s : SpfSolverImpl) : bool :=
  negb (length (staticRoutesUpdates_ s) =? 0)%nat.

Definition pushRoutesDeltaUpdates (staticRoutesDelta : RouteDatabaseDelta)
    (s : SpfSolverImpl) : SpfSolverImpl :=
  mkSpfSolverImpl (staticRoutes_ s)
    (staticRoutesUpdates_ s ++ [staticRoutesDelta])
    (solverNodeName_ s) (enableV4_ s) (computeLfaPaths_ s)
    (enableOrderedFib_ s) (bgpDryRun_ s) (bgpUseIgpMetric_ s).

(** "squash the updates together": one pending delta. *)
Definition squashUpdate (acc : gmap Z MplsRoute * gset Z)
    (staticRoutesUpdate : RouteDatabaseDelta) : gmap Z MplsRoute * gset Z :=
  let acc1 :=
    foldl (λ a r, (<[topLabel r := r]> a.1, a.2 ∖ {[topLabel r]}))
          acc (mplsRoutesToUpdate staticRoutesUpdate) in
  foldl (λ a l, (delete l a.1, {[l]} ∪ a.2))
        acc1 (mplsRoutesToDelete staticRoutesUpdate).

Definition squashUpdates (updates : list RouteDatabaseDelta)
    : gmap Z MplsRoute * gset Z :=
  foldl squashUpdate (∅, ∅) updates.

Definition processStaticRouteUpdates (s : SpfSolverImpl)
    : SpfSolverImpl * option RouteDatabaseDelta :=
  let squashed := squashUpdates (staticRoutesUpdates_ s) in
  let routesToUpdate := squashed.1 in
  let routesToDel := squashed.2 in
  let cleared (sr : StaticRoutes) :=
    mkSpfSolverImpl sr [] (solverNodeName_ s) (enableV4_ s)
      (computeLfaPaths_ s) (enableOrderedFib_ s) (bgpDryRun_ s)
      (bgpUseIgpMetric_ s) in
  if (size routesToUpdate =? 0)%nat && (size routesToDel =? 0)%nat
  then (cleared (staticRoutes_ s), None)
  else
    let sr1 :=
      foldl (λ m kv, <[kv.1 := mr_nextHops kv.2]> m)
            (staticRoutes_ s) (map_to_list routesToUpdate) in
    let sr2 :=
      foldl (λ m l, delete l m) sr1 (elements routesToDel) in
    (cleared sr2,
     Some {| thisNodeName := solverNodeName_ s;
             unicastRoutesToUpdate := [];
             unicastRoutesToDelete := [];
             mplsRoutesToUpdate := (map_to_list routesToUpdate).*2;
             mplsRoutesToDelete := elements routesToDel;
             perfEvents := None |}).
End SpfSolver.

(** ** The route builder: BGP selection, ECMP routes and [buildRouteDb] *)

(** [MetricVectorUtils::CompareResult]: the results that the switch of
    [runBestPathSelectionBgp] names, and [OTHER_RESULT] for what it
    leaves to its default. *)
Inductive CompareResult :=
  WINNER | TIE_WINNER | TIE_LOOSER | TIE | ERROR | OTHER_RESULT.

(** What the route builder uses of the metric vector of a prefix entry
    (a field the record [PrefixEntry] above leaves out), of
    [MetricVectorUtils] and of [getPrefixForwardingType] ([Util.h]), all
    defined in other files.  [hasIgpCostEntity] tells whether
    [getMetricEntityByType] finds an entity of type [OPENR_IGP_COST];
    [addIgpCostEntity mv igpMetric] is [mv] with the entity that
    [createMetricEntity] builds for [-1 * igpMetric] put at its end. *)
Class MetricVectorOps := {
  MetricVector : Type;
  mv_ref : PrefixEntry → option MetricVector;
  hasIgpCostEntity : MetricVector → bool;
  addIgpCostEntity : MetricVector → Z → MetricVector;
  compareMetricVectors : MetricVector → MetricVector → CompareResult;
  getPrefixForwardingType : gmap string PrefixEntry → PrefixForwardingType
}.

(** [static_cast<int64_t>] of a [LinkStateMetric]. *)
Definition to_int64 (m : Z) : Z := if m <? 2 ^ 63 then m else m - 2 ^ 64.

(** A loop whose body may throw or return from the function: [inr r]
    is the value returned from inside the loop. *)
Fixpoint foldlR {A B R : Type} (f : A → B → option (A + R)) (a : A)
    (l : list B) : option (A + R) :=
  match l with
  | [] => Some (inl a)
  | x :: l' =>
      r ← f a x;
      match r with
      | inl a' => foldlR f a' l'
      | inr r' => Some (inr r')
      end
  end.

Section RouteBuilder.
Context {Link : Type} `{LinkOps Link} {MV : MetricVectorOps}.

(** *** [runBestPathSelectionBgp] *)

(** The body of the loop over the advertisers.  Its state is [ret]
    together with [ret.bestVector], which [BestPathCalResult] above does
    not carry. *)
Definition bgpSelectionStep (s : SpfSolverImpl)
    (mySpfResult : gmap string NodeSpfResult)
    (st : BestPathCalResult * option MetricVector)
    (kv : string * PrefixEntry)
    : option (BestPathCalResult * option MetricVector + BestPathCalResult) :=
  let '(ret, bestVector) := st in
  let nodeName := kv.1 in
  let prefixEntry := kv.2 in
  match mySpfResult !! nodeName with
  | None => Some (inl st) (* skip if no route to node *)
  | Some it =>
      mvec ← mv_ref prefixEntry;
      if hasIgpCostEntity mvec then Some (inl st)
      else
        let igpMetric := to_int64 (metric it) in
        let ret1 :=
          if bgpUseIgpMetric_ s then
            mkBestPathCalResult (success ret) (nodes ret) (bestNode ret)
              (match bestIgpMetric ret with
               | None => Some igpMetric
               | Some b => if b >? igpMetric then Some igpMetric else Some b
               end)
          else ret in
        let metricVector :=
          if bgpUseIgpMetric_ s then addIgpCostEntity mvec igpMetric
          else mvec in
        match match bestVector with
              | Some bv => compareMetricVectors metricVector bv
              | None => WINNER
              end with
        | WINNER =>
            Some (inl (mkBestPathCalResult (success ret1)
                         (set_insert nodeName []) nodeName
                         (bestIgpMetric ret1),
                       Some metricVector))
        | TIE_WINNER =>
            Some (inl (mkBestPathCalResult (success ret1)
                         (set_insert nodeName (nodes ret1)) nodeName
                         (bestIgpMetric ret1),
                       Some metricVector))
        | TIE_LOOSER =>
            Some (inl (mkBestPathCalResult (success ret1)
                         (set_insert nodeName (nodes ret1)) (bestNode ret1)
                         (bestIgpMetric ret1),
                       bestVector))
        | TIE | ERROR => Some (inr ret1)
        | OTHER_RESULT => Some (inl (ret1, bestVector))
        end
  end.

Definition runBestPathSelectionBgp (s : SpfSolverImpl) (myNodeName : string)
    (nodePrefixes : gmap string PrefixEntry) (linkState : LinkState Link)
    : option BestPathCalResult :=
  r ← foldlR (bgpSelectionStep s (getSpfResult linkState myNodeName))
         (emptyBestPathCalResult, None) (map_to_list nodePrefixes);
  match r with
  | inl (ret, _) =>
      Some (mkBestPathCalResult true (nodes ret) (bestNode ret)
              (bestIgpMetric ret))
  | inr ret => Some ret
  end.

(** [getBestAnnouncingNodes] with the call of [runBestPathSelectionBgp]
    made where the source makes it, and the statistics counted. *)
Definition bestAnnouncingNodes (s : SpfSolverImpl) (myNodeName : string)
    (nodePrefixes : gmap string PrefixEntry) (hasBgp useKsp2EdAlgo : bool)
    (linkState : LinkState Link) (cnt : Counters)
    : option (BestPathCalResult * Counters) :=
  if useKsp2EdAlgo
     && existsb (λ kv : string * PrefixEntry,
                   negb (bool_decide (forwardingType kv.2 = SR_MPLS)))
                (map_to_list nodePrefixes)
  then Some (emptyBestPathCalResult,
             addStatValue "decision.incompatible_forwarding_type" 1 cnt)
  else if negb hasBgp then
    Some (getBestAnnouncingNodes emptyBestPathCalResult myNodeName
            nodePrefixes false useKsp2EdAlgo linkState,
          cnt)
  else
    bestPathCalRes ←
      runBestPathSelectionBgp s myNodeName nodePrefixes linkState;
    Some (getBestAnnouncingNodes bestPathCalRes myNodeName nodePrefixes
            true useKsp2EdAlgo linkState,
          if negb (success bestPathCalRes)
          then addStatValue "decision.no_route_to_prefix" 1 cnt
          else cnt).

(** *** [selectEcmpOpenr]

    "RibUnicastEntry entry(toIPNetwork(prefix))": the constructor of
    [RibEntry.h] takes the prefix alone; as in [selectKsp2] the entry
    starts without best prefix entry and best next hop and is not
    marked [doNotInstall]. *)
Definition selectEcmpOpenr (s : SpfSolverImpl)
    (unicastEntries_ : gmap IpPrefix RibUnicastEntry) (myNodeName : string)
    (prefix_ : IpPrefix) (nodePrefixes : gmap string PrefixEntry)
    (isV4 : bool) (linkState : LinkState Link) (cnt : Counters)
    : option (gmap IpPrefix RibUnicastEntry * Counters) :=
  '(ret, cnt1) ← bestAnnouncingNodes s myNodeName nodePrefixes false false
                   linkState cnt;
  if negb (success ret) then Some (unicastEntries_, cnt1)
  else
    let prefixNodes := nodes ret in
    let perDestination :=
      bool_decide (getPrefixForwardingType nodePrefixes = SR_MPLS) in
    metricNhs ← getNextHopsWithMetric s myNodeName prefixNodes
                   perDestination linkState;
    if decide (metricNhs.2 = ∅) then
      Some (unicastEntries_,
            addStatValue "decision.no_route_to_prefix" 1 cnt1)
    else
      nhs ← getNextHopsThrift s myNodeName prefixNodes isV4 perDestination
               metricNhs.1 metricNhs.2 None linkState;
      Some (emplace prefix_ (mkRibUnicastEntry prefix_ nhs None false None)
              unicastEntries_,
            cnt1).

(** *** [selectEcmpBgp] *)
Definition selectEcmpBgp (s : SpfSolverImpl)
    (unicastEntries_ : gmap IpPrefix RibUnicastEntry) (myNodeName : string)
    (prefix_ : IpPrefix) (nodePrefixes : gmap string PrefixEntry)
    (isV4 : bool) (linkState : LinkState Link) (prefixState : PrefixState)
    (cnt : Counters)
    : option (gmap IpPrefix RibUnicastEntry * Counters) :=
  '(dstInfo, cnt1) ← bestAnnouncingNodes s myNodeName nodePrefixes true false
                       linkState cnt;
  if negb (success dstInfo) then Some (unicastEntries_, cnt1)
  else if (length (nodes dstInfo) =? 0)%nat
          || bool_decide (myNodeName ∈ nodes dstInfo) then
    Some (unicastEntries_,
          if negb (bool_decide (myNodeName ∈ nodes dstInfo))
          then addStatValue "decision.no_route_to_prefix" 1 cnt1
          else cnt1)
  else
    let bestNextHop :=
      getLoopbackVias prefixState [bestNode dstInfo] isV4
        (bestIgpMetric dstInfo) in
    match bestNextHop with
    | [nh] =>
        nextHopsWithMetric ← getNextHopsWithMetric s myNodeName
                                (nodes dstInfo) false linkState;
        nhs ← getNextHopsThrift s myNodeName (nodes dstInfo) isV4 false
                 nextHopsWithMetric.1 nextHopsWithMetric.2 None linkState;
        (* nodePrefixes.find(dstInfo.bestNode)->second *)
        pe ← nodePrefixes !! bestNode dstInfo;
        Some (emplace prefix_
                (mkRibUnicastEntry prefix_ nhs (Some pe) (bgpDryRun_ s)
                   (Some nh))
                unicastEntries_,
              cnt1)
    | _ =>
        Some (unicastEntries_,
              addStatValue "decision.missing_loopback_addr" 1 cnt1)
    end.

(** *** [buildRouteDb] *)

(** The flags gathered over the advertisers of a prefix. *)
Record PrefixFlags := mkPrefixFlags {
  hasBGP : bool;
  hasNonBGP : bool;
  missingMv : bool;
  hasSpEcmp : bool;
  hasKsp2EdEcmp : bool
}.

(** The body of the loop over the advertisers of a prefix. *)
Definition prefixFlagsStep (f : PrefixFlags) (npKv : string * PrefixEntry)
    : PrefixFlags :=
  let isBGP := bool_decide (pe_type npKv.2 = BGP) in
  mkPrefixFlags
    (hasBGP f || isBGP)
    (hasNonBGP f || negb isBGP)
    (missingMv f
     || (isBGP && negb (bool_decide (is_Some (mv_ref npKv.2)))))
    (hasSpEcmp f || bool_decide (forwardingAlgorithm npKv.2 = SP_ECMP))
    (hasKsp2EdEcmp f
     || bool_decide (forwardingAlgorithm npKv.2 = KSP2_ED_ECMP)).

Definition prefixFlags (nodePrefixes : gmap string PrefixEntry)
    : PrefixFlags :=
  foldl prefixFlagsStep (mkPrefixFlags false false false false false)
        (map_to_list nodePrefixes).

(** The body of the loop over [prefixState.prefixes()]. *)
Definition unicastRouteStep (s : SpfSolverImpl) (myNodeName : string)
    (linkState : LinkState Link) (prefixState : PrefixState)
    (st : gmap IpPrefix RibUnicastEntry * Counters)
    (kv : IpPrefix * gmap string PrefixEntry)
    : option (gmap IpPrefix RibUnicastEntry * Counters) :=
  let prefix_ := kv.1 in
  let nodePrefixes := kv.2 in
  let f := prefixFlags nodePrefixes in
  let skipped :=
    Some (st.1, addStatValue "decision.skipped_unicast_route" 1 st.2) in
  if hasBGP f && hasNonBGP f then skipped
  else if hasBGP f && missingMv f then skipped
  else if bool_decide (is_Some (nodePrefixes !! myNodeName))
          && negb (hasBGP f)
  then Some st
  else
    let isV4Prefix :=
      (String.length (prefixAddress_addr prefix_) =? 4)%nat in
    if isV4Prefix && negb (enableV4_ s) then skipped
    else if hasSpEcmp f && hasBGP f then
      selectEcmpBgp s st.1 myNodeName prefix_ nodePrefixes isV4Prefix
        linkState prefixState st.2
    else if hasSpEcmp f then
      selectEcmpOpenr s st.1 myNodeName prefix_ nodePrefixes isV4Prefix
        linkState st.2
    else
      '(nodes_, cnt1) ← bestAnnouncingNodes s myNodeName nodePrefixes
                          (hasBGP f) true linkState st.2;
      if negb (success nodes_) || (length (nodes nodes_) =? 0)%nat
      then Some (st.1, cnt1)
      else
        ue ← selectKsp2 s st.1 prefix_ myNodeName nodes_ nodePrefixes
                (hasBGP f) linkState prefixState;
        Some (ue, cnt1).

(** The route of the adjacency label of a link of this node:
    "RibMplsEntry(topLabel, {createNextHop(...)})". *)
Definition adjLabelRoute (myNodeName : string) (link : Link) : RibMplsEntry :=
  mkRibMplsEntry (getAdjLabelFromNode link myNodeName)
    {[createNextHop (getNhV6FromNode link myNodeName)
        (Some (getIfaceFromNode link myNodeName))
        (getMetricFromNode link myNodeName)
        (Some (createMplsAction PHP None None)) false
        (Some (getArea link))]}.

(** The body of the loop "Create MPLS routes for all of our
    adjacencies". *)
Definition adjLabelStep (myNodeName : string)
    (st : gmap Z RibMplsEntry * Counters) (link : Link)
    : gmap Z RibMplsEntry * Counters :=
  let topLabel := getAdjLabelFromNode link myNodeName in
  if topLabel =? 0 then st
  else if negb (isMplsLabelValid topLabel) then
    (st.1, addStatValue "decision.skipped_mpls_route" 1 st.2)
  else (emplace topLabel (adjLabelRoute myNodeName link) st.1, st.2).

(** [SpfSolver::SpfSolverImpl::buildRouteDb].  [deltaTime] is the time
    the build took, which the function measures and reports; the
    result goes with the statistics counted on the way. *)
Definition SpfSolverImpl_buildRouteDb (s : SpfSolverImpl) (myNodeName : string)
    (linkState : LinkState Link) (prefixState : PrefixState)
    (deltaTime : Z) (cnt : Counters)
    : option (option DecisionRouteDb * Counters) :=
  if negb (hasNode linkState myNodeName) then Some (None, cnt)
  else
    let cnt0 := addStatValue "decision.route_build_runs" 1 cnt in
    unicast ← foldlM (unicastRouteStep s myNodeName linkState prefixState)
                 (∅, cnt0) (map_to_list (prefixes prefixState));
    nodeLabels ← nodeLabelRoutes s myNodeName linkState
                    (map_to_list (getAdjacencyDatabases linkState)).*2
                    unicast.2 ∅;
    let mpls :=
      foldl (adjLabelStep myNodeName) nodeLabels
            (linksFromNode linkState myNodeName) in
    Some (Some (mkDecisionRouteDb unicast.1 mpls.1),
          addStatValue "decision.route_build_ms" deltaTime mpls.2).
End RouteBuilder.

(** ** The Decision module *)

(** How a call on the event base ends: it returns, it runs into undefined
    behaviour, or a [CHECK] aborts the process. *)
Inductive Outcome (A : Type) :=
| Done (a : A)
| UndefinedBehaviour
| Aborted.

Arguments Done {A} a.
Arguments UndefinedBehaviour {A}.
Arguments Aborted {A}.

(** [*opt] on a [std::optional]: undefined when it holds no value. *)
Definition deref {A : Type} (o : option A) : Outcome A :=
  match o with
  | Some a => Done a
  | None => UndefinedBehaviour
  end.

(** [thrift::OpenrError]. *)
Record OpenrError := mkOpenrError { message : string }.

(** What the caller of an RPC finds in its [folly::SemiFuture]: the
    value, the exception the promise was completed with, or (the promise
    having been destroyed without either) a broken promise. *)
Inductive FutureResult :=
| FutureValue
| FutureException (e : OpenrError)
| FutureBrokenPromise.

(** [RibPolicy]: its expiry on the steady clock (milliseconds) and its
    action on a unicast entry (the entry after the action, and whether it
    was changed). *)
Record RibPolicy := mkRibPolicy {
  validUntilTs_ : Z;
  applyAction : RibUnicastEntry → RibUnicastEntry * bool
}.

(** Modelled from the spec: [RibPolicy::getTtlDuration] and
    [RibPolicy::isActive] are defined in [RibPolicy.cpp]; the remaining
    TTL is the expiry minus the current time and the policy is active
    while it is positive. *)
Definition getTtlDuration (p : RibPolicy) (now : Z) : Z :=
  validUntilTs_ p - now.

Definition isActive (p : RibPolicy) (now : Z) : bool :=
  getTtlDuration p now >? 0.

(** [LinkState::LinkStateChange]. *)
Record LinkStateChange := mkLinkStateChange {
  topologyChanged : bool;
  linkAttributesChanged : bool;
  nodeLabelChanged : bool
}.

(** [thrift::PrefixDatabase]. *)
Record PrefixDatabase := mkPrefixDatabase {
  pdb_thisNodeName : string;
  prefixEntries : list PrefixEntry;
  deletePrefix : bool;
  pdb_perfEvents : option PerfEvents
}.

(** [thrift::Value] and [thrift::Publication]. *)
Record Value := mkValue {
  value : option string;
  ttlVersion : Z
}.

Record Publication := mkPublication {
  pub_area : option string;
  keyVals : list (string * Value);
  expiredKeys : list string
}.

(** [PendingUpdates] is declared in [Decision.h]; it is kept here as the
    record of the calls made on it since the last [reset], each with the
    arguments it received. *)
Inductive PendingCall (PrefixChange : Type) :=
| applyLinkStateChange (nodeName : string) (change : LinkStateChange)
    (perfEvents : option PerfEvents)
| applyPrefixStateChange (change : PrefixChange)
    (perfEvents : option PerfEvents)
| addEvent (eventDescription : string)
| moveOutEvents.

Arguments applyLinkStateChange {PrefixChange} _ _ _.
Arguments applyPrefixStateChange {PrefixChange} _ _.
Arguments addEvent {PrefixChange} _.
Arguments moveOutEvents {PrefixChange}.

(** What [Decision.cpp] calls in the classes and helpers defined in other
    files. *)
Class Collaborators (Link : Type) := {
  (* SpfSolver::buildRouteDb, through the public shell of the solver *)
  solverBuildRouteDb :
    SpfSolverImpl → string → LinkState Link → PrefixState
    → option DecisionRouteDb;
  (* RibPolicy *)
  RibPolicyThrift : Type;
  makeRibPolicy : RibPolicyThrift → OpenrError + RibPolicy;
  (* LinkState and PrefixState updates *)
  PrefixChange : Type;
  newLinkState : string → LinkState Link;
  updateAdjacencyDatabase :
    LinkState Link → AdjacencyDatabase → Z → Z
    → LinkState Link * LinkStateChange;
  deleteAdjacencyDatabase :
    LinkState Link → string → LinkState Link * LinkStateChange;
  getHopsFromAToB : LinkState Link → string → string → option Z;
  getMaxHopsToNode : LinkState Link → string → Z;
  hasHolds : LinkState Link → bool;
  updatePrefixDatabase :
    PrefixState → PrefixDatabase → PrefixState * PrefixChange;
  (* PendingUpdates *)
  needsRouteUpdate : list (PendingCall PrefixChange) → bool;
  pendingPerfEvents : list (PendingCall PrefixChange) → option PerfEvents;
  (* ExponentialBackoff *)
  Backoff : Type;
  reportSuccess : Backoff → Backoff;
  (* keys and serialized values *)
  getNodeNameFromKey : string → string;
  prefixKeyFromStr : string → option IpPrefix;
  readAdjacencyDatabase : string → option AdjacencyDatabase;
  readPrefixDatabase : string → option PrefixDatabase;
  stoll : string → option Z
}.

Definition kDefaultArea : string := "0".
Definition kAdjDbMarker : string := "adj:".
Definition kPrefixDbMarker : string := "prefix:".
Definition kFibTimeMarker : string := "fibTime:".

Section Decision.
Context {Link : Type} `{LinkOps Link} `{Collaborators Link}.

(** The members of [Decision] that the embedded methods touch.  A timer
    is [Some d] when it is scheduled to fire in [d] milliseconds;
    [coldStartTimer_] only records whether it is scheduled. *)
Record Decision := mkDecision {
  myNodeName_ : string;
  isRibPolicyEnabled : bool;
  enable_ordered_fib_programming : bool;
  spfSolver_ : SpfSolverImpl;
  areaLinkStates_ : gmap string (LinkState Link);
  prefixState_ : PrefixState;
  perPrefixPrefixEntries_ : gmap string (gmap IpPrefix PrefixEntry);
  fullDbPrefixEntries_ : gmap string (gmap IpPrefix PrefixEntry);
  fibTimes_ : gmap string Z;
  routeDb_ : DecisionRouteDb;
  ribPolicy_ : option RibPolicy;
  ribPolicyTimer_ : option Z;
  coldStartTimer_ : bool;
  processUpdatesTimer_ : option Z;
  orderedFibTimer_ : option (option Z);
  processUpdatesBackoff_ : Backoff;
  pendingUpdates_ : list (PendingCall PrefixChange);
  routeUpdatesQueue_ : list RouteDatabaseDelta;
  fbData : Counters
}.

Definition set_spfSolver (v : SpfSolverImpl) (d : Decision) : Decision :=
  mkDecision (myNodeName_ d) (isRibPolicyEnabled d)
    (enable_ordered_fib_programming d) v (areaLinkStates_ d)
    (prefixState_ d) (perPrefixPrefixEntries_ d) (fullDbPrefixEntries_ d)
    (fibTimes_ d) (routeDb_ d) (ribPolicy_ d) (ribPolicyTimer_ d)
    (coldStartTimer_ d) (processUpdatesTimer_ d) (orderedFibTimer_ d)
    (processUpdatesBackoff_ d) (pendingUpdates_ d) (routeUpdatesQueue_ d)
    (fbData d).

Definition set_areaLinkStates (v : gmap string (LinkState Link))
    (d : Decision) : Decision :=
  mkDecision (myNodeName_ d) (isRibPolicyEnabled d)
    (enable_ordered_fib_programming d) (spfSolver_ d) v
    (prefixState_ d) (perPrefixPrefixEntries_ d) (fullDbPrefixEntries_ d)
    (fibTimes_ d) (routeDb_ d) (ribPolicy_ d) (ribPolicyTimer_ d)
    (coldStartTimer_ d) (processUpdatesTimer_ d) (orderedFibTimer_ d)
    (processUpdatesBackoff_ d) (pendingUpdates_ d) (routeUpdatesQueue_ d)
    (fbData d).

Definition set_prefixState (v : PrefixState) (d : Decision) : Decision :=
  mkDecision (myNodeName_ d) (isRibPolicyEnabled d)
    (enable_ordered_fib_programming d) (spfSolver_ d) (areaLinkStates_ d)
    v (perPrefixPrefixEntries_ d) (fullDbPrefixEntries_ d)
    (fibTimes_ d) (routeDb_ d) (ribPolicy_ d) (ribPolicyTimer_ d)
    (coldStartTimer_ d) (processUpdatesTimer_ d) (orderedFibTimer_ d)
    (processUpdatesBackoff_ d) (pendingUpdates_ d) (routeUpdatesQueue_ d)
    (fbData d).

Definition set_prefixEntries
    (perPrefix fullDb : gmap string (gmap IpPrefix PrefixEntry))
    (d : Decision) : Decision :=
  mkDecision (myNodeName_ d) (isRibPolicyEnabled d)
    (enable_ordered_fib_programming d) (spfSolver_ d) (areaLinkStates_ d)
    (prefixState_ d) perPrefix fullDb
    (fibTimes_ d) (routeDb_ d) (ribPolicy_ d) (ribPolicyTimer_ d)
    (coldStartTimer_ d) (processUpdatesTimer_ d) (orderedFibTimer_ d)
    (processUpdatesBackoff_ d) (pendingUpdates_ d) (routeUpdatesQueue_ d)
    (fbData d).

Definition set_fibTimes (v : gmap string Z) (d : Decision) : Decision :=
  mkDecision (myNodeName_ d) (isRibPolicyEnabled d)
    (enable_ordered_fib_programming d) (spfSolver_ d) (areaLinkStates_ d)
    (prefixState_ d) (perPrefixPrefixEntries_ d) (fullDbPrefixEntries_ d)
    v (routeDb_ d) (ribPolicy_ d) (ribPolicyTimer_ d)
    (coldStartTimer_ d) (processUpdatesTimer_ d) (orderedFibTimer_ d)
    (processUpdatesBackoff_ d) (pendingUpdates_ d) (routeUpdatesQueue_ d)
    (fbData d).

Definition set_routeDb (v : DecisionRouteDb) (d : Decision) : Decision :=
  mkDecision (myNodeName_ d) (isRibPolicyEnabled d)
    (enable_ordered_fib_programming d) (spfSolver_ d) (areaLinkStates_ d)
    (prefixState_ d) (perPrefixPrefixEntries_ d) (fullDbPrefixEntries_ d)
    (fibTimes_ d) v (ribPolicy_ d) (ribPolicyTimer_ d)
    (coldStartTimer_ d) (processUpdatesTimer_ d) (orderedFibTimer_ d)
    (processUpdatesBackoff_ d) (pendingUpdates_ d) (routeUpdatesQueue_ d)
    (fbData d).

Definition set_ribPolicy (v : option RibPolicy) (timer : option Z)
    (d : Decision) : Decision :=
  mkDecision (myNodeName_ d) (isRibPolicyEnabled d)
    (enable_ordered_fib_programming d) (spfSolver_ d) (areaLinkStates_ d)
    (prefixState_ d) (perPrefixPrefixEntries_ d) (fullDbPrefixEntries_ d)
    (fibTimes_ d) (routeDb_ d) v timer
    (coldStartTimer_ d) (processUpdatesTimer_ d) (orderedFibTimer_ d)
    (processUpdatesBackoff_ d) (pendingUpdates_ d) (routeUpdatesQueue_ d)
    (fbData d).

Definition set_processUpdates (timer : option Z) (backoff : Backoff)
    (d : Decision) : Decision :=
  mkDecision (myNodeName_ d) (isRibPolicyEnabled d)
    (enable_ordered_fib_programming d) (spfSolver_ d) (areaLinkStates_ d)
    (prefixState_ d) (perPrefixPrefixEntries_ d) (fullDbPrefixEntries_ d)
    (fibTimes_ d) (routeDb_ d) (ribPolicy_ d) (ribPolicyTimer_ d)
    (coldStartTimer_ d) timer (orderedFibTimer_ d)
    backoff (pendingUpdates_ d) (routeUpdatesQueue_ d)
    (fbData d).

Definition set_orderedFibTimer (v : option (option Z)) (d : Decision)
    : Decision :=
  mkDecision (myNodeName_ d) (isRibPolicyEnabled d)
    (enable_ordered_fib_programming d) (spfSolver_ d) (areaLinkStates_ d)
    (prefixState_ d) (perPrefixPrefixEntries_ d) (fullDbPrefixEntries_ d)
    (fibTimes_ d) (routeDb_ d) (ribPolicy_ d) (ribPolicyTimer_ d)
    (coldStartTimer_ d) (processUpdatesTimer_ d) v
    (processUpdatesBackoff_ d) (pendingUpdates_ d) (routeUpdatesQueue_ d)
    (fbData d).

Definition set_pendingUpdates (v : list (PendingCall PrefixChange))
    (d : Decision) : Decision :=
  mkDecision (myNodeName_ d) (isRibPolicyEnabled d)
    (enable_ordered_fib_programming d) (spfSolver_ d) (areaLinkStates_ d)
    (prefixState_ d) (perPrefixPrefixEntries_ d) (fullDbPrefixEntries_ d)
    (fibTimes_ d) (routeDb_ d) (ribPolicy_ d) (ribPolicyTimer_ d)
    (coldStartTimer_ d) (processUpdatesTimer_ d) (orderedFibTimer_ d)
    (processUpdatesBackoff_ d) v (routeUpdatesQueue_ d)
    (fbData d).

Definition set_routeUpdatesQueue (v : list RouteDatabaseDelta)
    (d : Decision) : Decision :=
  mkDecision (myNodeName_ d) (isRibPolicyEnabled d)
    (enable_ordered_fib_programming d) (spfSolver_ d) (areaLinkStates_ d)
    (prefixState_ d) (perPrefixPrefixEntries_ d) (fullDbPrefixEntries_ d)
    (fibTimes_ d) (routeDb_ d) (ribPolicy_ d) (ribPolicyTimer_ d)
    (coldStartTimer_ d) (processUpdatesTimer_ d) (orderedFibTimer_ d)
    (processUpdatesBackoff_ d) (pendingUpdates_ d) v
    (fbData d).

Definition set_fbData (v : Counters) (d : Decision) : Decision :=
  mkDecision (myNodeName_ d) (isRibPolicyEnabled d)
    (enable_ordered_fib_programming d) (spfSolver_ d) (areaLinkStates_ d)
    (prefixState_ d) (perPrefixPrefixEntries_ d) (fullDbPrefixEntries_ d)
    (fibTimes_ d) (routeDb_ d) (ribPolicy_ d) (ribPolicyTimer_ d)
    (coldStartTimer_ d) (processUpdatesTimer_ d) (orderedFibTimer_ d)
    (processUpdatesBackoff_ d) (pendingUpdates_ d) (routeUpdatesQueue_ d)
    v.

(** *** [Decision::buildRouteDb] *)

(** "db.unicastEntries.insert(begin, end)": keys already present keep
    their entry. *)
Definition insertRange `{Countable K} {V : Type} (src dst : gmap K V)
    : gmap K V :=
  foldl (λ m kv, emplace kv.1 kv.2 m) dst (map_to_list src).

Definition mergeAreaDb (nodeName : string) (d : Decision)
    (db : DecisionRouteDb) (areaLinkState : string * LinkState Link)
    : DecisionRouteDb :=
  match solverBuildRouteDb (spfSolver_ d) nodeName areaLinkState.2
          (prefixState_ d) with
  | Some areaDb =>
      mkDecisionRouteDb
        (insertRange (unicastEntries areaDb) (unicastEntries db))
        (insertRange (mplsEntries areaDb) (mplsEntries db))
  | None => db
  end.

Definition mergedRouteDb (d : Decision) (nodeName : string)
    : DecisionRouteDb :=
  foldl (mergeAreaDb nodeName d) emptyRouteDb
        (map_to_list (areaLinkStates_ d)).

Definition buildRouteDb (d : Decision) (nodeName : string)
    : option DecisionRouteDb :=
  let db := mergedRouteDb d nodeName in
  if bool_decide (unicastEntries db = ∅) && bool_decide (mplsEntries db = ∅)
  then None
  else Some db.

(** *** [Decision::sendRouteUpdate] *)

(** "Apply RibPolicy to computed route db before sending out". *)
Definition applyRibPolicy (policy : RibPolicy) (routeDb : DecisionRouteDb)
    : DecisionRouteDb :=
  mkDecisionRouteDb
    (omap (λ entry,
             let entry' := (applyAction policy entry).1 in
             if decide (nexthops entry' = ∅) then None else Some entry')
          (unicastEntries routeDb))
    (mplsEntries routeDb).

Definition sendRouteUpdate (now : Z) (routeDb : DecisionRouteDb)
    (perfEvents_ : option PerfEvents) (eventDescription : string)
    (d : Decision) : Decision :=
  let perfEvents' :=
    match perfEvents_ with
    | Some pe => Some (addPerfEvent pe (myNodeName_ d) eventDescription)
    | None => None
    end in
  let routeDb' :=
    match ribPolicy_ d with
    | Some policy =>
        if isActive policy now then applyRibPolicy policy routeDb
        else routeDb
    | None => routeDb
    end in
  let delta := getRouteDelta routeDb' (routeDb_ d) in
  let delta' :=
    mkRouteDatabaseDelta (myNodeName_ d)
      (unicastRoutesToUpdate delta) (unicastRoutesToDelete delta)
      (mplsRoutesToUpdate delta) (mplsRoutesToDelete delta) perfEvents' in
  set_routeUpdatesQueue (routeUpdatesQueue_ d ++ [delta'])
    (set_routeDb routeDb' d).

(** *** [Decision::coldStartUpdate] *)
Definition coldStartUpdate (now : Z) (d : Decision) : Outcome Decision :=
  let maybeRouteDb := buildRouteDb d (myNodeName_ d) in
  if negb (bool_decide (is_Some maybeRouteDb)) then
    match deref maybeRouteDb with
    | Done routeDb =>
        Done (sendRouteUpdate now routeDb None "COLD_START_UPDATE" d)
    | UndefinedBehaviour => UndefinedBehaviour
    | Aborted => Aborted
    end
  else
    match deref maybeRouteDb with
    | Done routeDb =>
        Done (sendRouteUpdate now routeDb (Some []) "COLD_START_UPDATE" d)
    | UndefinedBehaviour => UndefinedBehaviour
    | Aborted => Aborted
    end.

(** *** [Decision::processPendingUpdates] *)

(** "we need to update static route first": the squashed static delta,
    if any, is pushed to the queue; the flag tells whether static updates
    were pending. *)
Definition drainStaticRoutes (d : Decision) : Decision * bool :=
  if staticRoutesUpdated (spfSolver_ d) then
    let r := processStaticRouteUpdates (spfSolver_ d) in
    let d' := set_spfSolver r.1 d in
    (match r.2 with
     | Some maybeRouteDbDelta =>
         set_routeUpdatesQueue
           (routeUpdatesQueue_ d' ++ [maybeRouteDbDelta]) d'
     | None => d'
     end, true)
  else (d, false).

(** The route database to publish, if any. *)
Definition pendingRouteDb (d2 : Decision) (staticRoutesUpdated_ : bool)
    : option DecisionRouteDb :=
  if needsRouteUpdate (pendingUpdates_ d2) || staticRoutesUpdated_
  then buildRouteDb d2 (myNodeName_ d2)
  else None.

Definition processPendingUpdates (now : Z) (d : Decision) : Decision :=
  if coldStartTimer_ d then d
  else
    let d1 :=
      set_pendingUpdates (pendingUpdates_ d ++ [addEvent "DECISION_DEBOUNCE"])
        d in
    let '(d2, staticRoutesUpdated_) := drainStaticRoutes d1 in
    let maybeRouteDb := pendingRouteDb d2 staticRoutesUpdated_ in
    let d3 :=
      match maybeRouteDb with
      | Some routeDb =>
          let events := pendingPerfEvents (pendingUpdates_ d2) in
          sendRouteUpdate now routeDb events "ROUTE_UPDATE"
            (set_pendingUpdates (pendingUpdates_ d2 ++ [moveOutEvents]) d2)
      | None => d2
      end in
    let d4 := set_pendingUpdates [] d3 in
    set_processUpdates None (reportSuccess (processUpdatesBackoff_ d4)) d4.

(** *** [Decision::processRibPolicyUpdate] *)
Definition processRibPolicyUpdate (now : Z) (d : Decision) : Decision :=
  if coldStartTimer_ d then d
  else
    match buildRouteDb d (myNodeName_ d) with
    | None => d
    | Some routeDb =>
        sendRouteUpdate now routeDb (Some []) "RIB_POLICY_UPDATE" d
    end.

(** *** [Decision::setRibPolicy]

    The call and the closure it hands to the event base, run one after
    the other; [now] is the clock read by the closure.  The result is
    the state of [Decision] and what the caller's future holds. *)
Definition setRibPolicy (now : Z) (ribPolicyThrift : RibPolicyThrift)
    (d : Decision) : Decision * FutureResult :=
  if negb (isRibPolicyEnabled d) then
    (d, FutureException (mkOpenrError "RibPolicy feature is not enabled"))
  else
    match makeRibPolicy ribPolicyThrift with
    | inl e => (d, FutureException e)
    | inr ribPolicy =>
        let durationLeft := getTtlDuration ribPolicy now in
        if durationLeft <=? 0 then
          (* logs and returns; the promise is destroyed unfulfilled *)
          (d, FutureBrokenPromise)
        else
          let d1 := set_ribPolicy (Some ribPolicy) (Some durationLeft) d in
          let d2 := processRibPolicyUpdate now d1 in
          (d2, FutureValue)
    end.

(** *** [Decision::getRibPolicy]

    What the caller's future holds: the policy in its thrift form or the
    exception.  [toThrift] is [RibPolicy::toThrift]. *)
Definition getRibPolicy (toThrift : RibPolicy → RibPolicyThrift)
    (d : Decision) : OpenrError + RibPolicyThrift :=
  if negb (isRibPolicyEnabled d) then
    inl (mkOpenrError "RibPolicy feature is not enabled")
  else
    match ribPolicy_ d with
    | Some ribPolicy => inr (toThrift ribPolicy)
    | None => inl (mkOpenrError "RibPolicy is not configured")
    end.

(** *** [Decision::updateNodePrefixDatabase] *)
Definition updateNodePrefixDatabase (key : string)
    (prefixDb : PrefixDatabase) (d : Decision)
    : Decision * PrefixDatabase :=
  let nodeName := pdb_thisNodeName prefixDb in
  let perPrefix := default ∅ (perPrefixPrefixEntries_ d !! nodeName) in
  let fullDb := default ∅ (fullDbPrefixEntries_ d !! nodeName) in
  let '(perPrefix', fullDb') :=
    match prefixKeyFromStr key with
    | Some ipPrefix =>
        if deletePrefix prefixDb then (delete ipPrefix perPrefix, fullDb)
        else
          match prefixEntries prefixDb with
          | [] => (perPrefix, fullDb)
          | entry :: _ => (<[ipPrefix := entry]> perPrefix, fullDb)
          end
    | None =>
        (perPrefix,
         foldl (λ m entry, <[pe_prefix entry := entry]> m) ∅
               (prefixEntries prefixDb))
    end in
  let nodePrefixDb :=
    mkPrefixDatabase nodeName
      ((map_to_list perPrefix').*2 ++
       (filter (λ kv, perPrefix' !! kv.1 = None) (map_to_list fullDb')).*2)
      false
      (pdb_perfEvents prefixDb) in
  (set_prefixEntries
     (<[nodeName := perPrefix']> (perPrefixPrefixEntries_ d))
     (<[nodeName := fullDb']> (fullDbPrefixEntries_ d)) d,
   nodePrefixDb).

(** *** [Decision::processPublication] *)

Definition getMaxFib (d : Decision) : Z :=
  map_fold (λ _ v acc, Z.max acc v) 1 (fibTimes_ d).

(** The adjacency branch of the loop over [keyVals].  [areaLinkState]
    is the reference taken with [areaLinkStates_.at(area)] before the
    loop, where the entry of the area has just been made sure of; [at] on
    a missing area throws, outside any handler. *)
Definition processAdjKeyVal (area nodeName : string)
    (adjacencyDb : AdjacencyDatabase) (d : Decision) : Outcome Decision :=
  if negb (String.eqb nodeName (adj_thisNodeName adjacencyDb)) then Aborted
  else
    match areaLinkStates_ d !! area with
    | None => Aborted
    | Some areaLinkState =>
        let '(holdUpTtl, holdDownTtl) :=
          if enable_ordered_fib_programming d then
            match getHopsFromAToB areaLinkState (myNodeName_ d)
                    (adj_thisNodeName adjacencyDb) with
            | Some maybeHoldUpTtl =>
                (maybeHoldUpTtl,
                 metric_sub
                   (getMaxHopsToNode areaLinkState
                      (adj_thisNodeName adjacencyDb))
                   maybeHoldUpTtl)
            | None => (0, 0)
            end
          else (0, 0) in
        let d1 :=
          set_fbData (addStatValue "decision.adj_db_update" 1 (fbData d)) d in
        let upd :=
          updateAdjacencyDatabase areaLinkState adjacencyDb holdUpTtl
            holdDownTtl in
        let d2 :=
          set_pendingUpdates
            (pendingUpdates_ d1 ++
             [applyLinkStateChange (adj_thisNodeName adjacencyDb) upd.2
                (adj_perfEvents adjacencyDb)])
            (set_areaLinkStates (<[area := upd.1]> (areaLinkStates_ d1)) d1) in
        Done
          (if hasHolds upd.1 then
             match orderedFibTimer_ d2 with
             | Some None => set_orderedFibTimer (Some (Some (getMaxFib d2))) d2
             | _ => d2
             end
           else d2)
    end.

(** The prefix branch.  The statement that records the change ends
    after the call with one argument; what follows the comma is
    evaluated and dropped, so the call runs with its default
    [perfEvents], [std::nullopt]. *)
Definition processPrefixKeyVal (key nodeName : string)
    (prefixDb : PrefixDatabase) (d : Decision) : Outcome Decision :=
  if negb (String.eqb nodeName (pdb_thisNodeName prefixDb)) then Aborted
  else
    let '(d1, nodePrefixDb) := updateNodePrefixDatabase key prefixDb d in
    let d2 :=
      set_fbData (addStatValue "decision.prefix_db_update" 1 (fbData d1))
        d1 in
    let upd := updatePrefixDatabase (prefixState_ d2) nodePrefixDb in
    let _dropped := pdb_perfEvents nodePrefixDb in
    Done (set_pendingUpdates
            (pendingUpdates_ d2 ++ [applyPrefixStateChange upd.2 None])
            (set_prefixState upd.1 d2)).

(** One iteration of the loop over [keyVals]. *)
Definition processKeyVal (area : string) (d : Decision)
    (kv : string * Value) : Outcome Decision :=
  let key := kv.1 in
  let rawVal := kv.2 in
  let nodeName := getNodeNameFromKey key in
  match value rawVal with
  | None => Done d (* skip TTL update *)
  | Some raw =>
      if String.prefix kAdjDbMarker key then
        match readAdjacencyDatabase raw with
        | Some adjacencyDb => processAdjKeyVal area nodeName adjacencyDb d
        | None => Done d (* failed to deserialize: logged *)
        end
      else if String.prefix kPrefixDbMarker key then
        match readPrefixDatabase raw with
        | Some prefixDb => processPrefixKeyVal key nodeName prefixDb d
        | None => Done d
        end
      else if String.prefix kFibTimeMarker key then
        match stoll raw with
        | Some fibTime =>
            Done (set_fibTimes (<[nodeName := fibTime]> (fibTimes_ d)) d)
        | None => Done d
        end
      else Done d
  end.

(** One iteration of the loop over [expiredKeys]. *)
Definition processExpiredKey (area : string) (d : Decision) (key : string)
    : Outcome Decision :=
  let nodeName := getNodeNameFromKey key in
  if String.prefix kAdjDbMarker key then
    match areaLinkStates_ d !! area with
    | None => Aborted
    | Some areaLinkState =>
        let upd := deleteAdjacencyDatabase areaLinkState nodeName in
        Done (set_pendingUpdates
                (pendingUpdates_ d ++
                 [applyLinkStateChange nodeName upd.2 None])
                (set_areaLinkStates (<[area := upd.1]> (areaLinkStates_ d))
                   d))
    end
  else if String.prefix kPrefixDbMarker key then
    let deletePrefixDb := mkPrefixDatabase nodeName [] true None in
    let '(d1, nodePrefixDb) := updateNodePrefixDatabase key deletePrefixDb d in
    let upd := updatePrefixDatabase (prefixState_ d1) nodePrefixDb in
    Done (set_pendingUpdates
            (pendingUpdates_ d1 ++ [applyPrefixStateChange upd.2 None])
            (set_prefixState upd.1 d1))
  else Done d.

(** A loop on the event base: the first abort ends it. *)
Fixpoint foldOutcome {A B : Type} (f : A → B → Outcome A) (a : A)
    (l : list B) : Outcome A :=
  match l with
  | [] => Done a
  | x :: l' =>
      match f a x with
      | Done a' => foldOutcome f a' l'
      | UndefinedBehaviour => UndefinedBehaviour
      | Aborted => Aborted
      end
  end.

Definition processPublication (thriftPub : Publication) (d : Decision)
    : Outcome Decision :=
  let area := default kDefaultArea (pub_area thriftPub) in
  let d0 :=
    match areaLinkStates_ d !! area with
    | Some _ => d
    | None =>
        set_areaLinkStates (<[area := newLinkState area]> (areaLinkStates_ d))
          d
    end in
  match keyVals thriftPub, expiredKeys thriftPub with
  | [], [] => Done d0
  | _, _ =>
      match foldOutcome (processKeyVal area) d0 (keyVals thriftPub) with
      | Done d1 =>
          foldOutcome (processExpiredKey area) d1 (expiredKeys thriftPub)
      | UndefinedBehaviour => UndefinedBehaviour
      | Aborted => Aborted
      end
  end.

(** The state in which [processPendingUpdates] recomputes the routes:
    the debounce event recorded and the static routes drained. *)
Definition afterStaticRoutes (d : Decision) : Decision :=
  (drainStaticRoutes
     (set_pendingUpdates (pendingUpdates_ d ++ [addEvent "DECISION_DEBOUNCE"])
        d)).1.
End Decision.

(** * Vocabulary of the properties *)

(** A second-shortest path is kept when no path of [ps] is in it. *)
Definition keepsSecPath {Link : Type} `{EqDecision Link}
    (ps : list (list Link)) (secPath : list Link) : bool :=
  negb (existsb (λ first, pathAInPathB first secPath) ps).

(** [leastOf m C]: under every key the map [m] holds the least of the
    candidate values [C] admits for the key, and nothing when there is no
    candidate. *)
Definition leastOf `{Countable K} (m : gmap K Z) (C : K → Z → Prop) : Prop :=
  ∀ k, match m !! k with
       | Some v => C k v ∧ ∀ w, C k w → v ≤ w
       | None => ∀ w, ¬ C k w
       end.

(** What one neighbour offers for the destinations [dsts]. *)
Definition neighbourOffer (perDestination : bool) (shortestMetric : Z)
    (neighborName : string) (spfN : gmap string NodeSpfResult)
    (neighborToHere : Z) (dsts : list string) (k : string * string) (v : Z)
    : Prop :=
  k.1 = neighborName ∧
  ∃ D r, D ∈ dsts ∧ dstNodeRef perDestination D = k.2 ∧
         spfN !! D = Some r ∧ metric r = v ∧
         v < metric_add shortestMetric neighborToHere.

Section LfaVocabulary.
Context {Link : Type} `{LinkOps Link}.

(** Neighbour [k.1] offers a loop-free alternate of value [v] under key
    [k]: one of [links] is up and leads to it, it reaches this node at
    distance [metric rN], and it reaches a destination [D] filed under
    the tag [k.2] at distance [v], below [shortestMetric] plus
    [metric rN]. *)
Definition lfaOffer (myNodeName : string) (dstNodeNames : list string)
    (perDestination : bool) (linkState : LinkState Link)
    (shortestMetric : Z) (links : list Link) (k : string * string) (v : Z)
    : Prop :=
  ∃ link rN D r,
    link ∈ links ∧ isUp link = true ∧
    getOtherNodeName link myNodeName = k.1 ∧
    getSpfResult linkState k.1 !! myNodeName = Some rN ∧
    D ∈ dstNodeNames ∧ dstNodeRef perDestination D = k.2 ∧
    getSpfResult linkState k.1 !! D = Some r ∧
    metric r = v ∧ v < metric_add shortestMetric (metric rN).

(** The criterion with the metric of the link from this node to the
    neighbour in place of the neighbour's distance to this node, and no
    condition on the link. *)
Definition lfaOfferByLinkMetric (myNodeName : string)
    (dstNodeNames : list string) (perDestination : bool)
    (linkState : LinkState Link) (shortestMetric : Z)
    (k : string * string) : Prop :=
  ∃ link D r,
    link ∈ linksFromNode linkState myNodeName ∧
    getOtherNodeName link myNodeName = k.1 ∧
    D ∈ dstNodeNames ∧ dstNodeRef perDestination D = k.2 ∧
    getSpfResult linkState k.1 !! D = Some r ∧
    metric r < metric_add shortestMetric (getMetricFromNode link myNodeName).
End LfaVocabulary.

(** [largestMinNexthop ns nodePrefixes o]: [o] is the largest
    [minNexthop] set by a node of [ns] that advertises the prefix, and
    nothing when none of them sets one. *)
Definition largestMinNexthop (ns : list string)
    (nodePrefixes : gmap string PrefixEntry) (o : option Z) : Prop :=
  match o with
  | Some t =>
      (∃ n pe, n ∈ ns ∧ nodePrefixes !! n = Some pe ∧ minNexthop pe = Some t) ∧
      (∀ n pe v, n ∈ ns → nodePrefixes !! n = Some pe →
                 minNexthop pe = Some v → v ≤ t)
  | None =>
      ∀ n pe, n ∈ ns → nodePrefixes !! n = Some pe → minNexthop pe = None
  end.

(** The threshold taken over every node that advertises the prefix. *)
Definition advertisersMinNexthop (nodePrefixes : gmap string PrefixEntry)
    : option Z :=
  foldl (λ acc kv,
           match minNexthop kv.2, acc with
           | Some v, Some cur => Some (Z.max v cur)
           | Some v, None => Some v
           | None, _ => acc
           end)
        None (map_to_list nodePrefixes).

(** The pending static-route deltas read as a sequence of events: the
    deltas in arrival order, and within a delta its updates followed by
    its deletes. *)
Inductive StaticRouteEvent :=
| RouteUpdated (r : MplsRoute)
| RouteDeleted (l : Z).

Definition eventLabel (e : StaticRouteEvent) : Z :=
  match e with
  | RouteUpdated r => topLabel r
  | RouteDeleted l => l
  end.

Definition staticRouteEvents (updates : list RouteDatabaseDelta)
    : list StaticRouteEvent :=
  flat_map (λ u, (RouteUpdated <$> mplsRoutesToUpdate u) ++
                 (RouteDeleted <$> mplsRoutesToDelete u))
           updates.

(** The last event that concerns label [l]. *)
Definition lastEventFor (l : Z) (evs : list StaticRouteEvent)
    : option StaticRouteEvent :=
  list.last (filter (λ e, eventLabel e = l) evs).

(** The squashing of one event. *)
Definition squashEvent (acc : gmap Z MplsRoute * gset Z)
    (e : StaticRouteEvent) : gmap Z MplsRoute * gset Z :=
  match e with
  | RouteUpdated r => (<[topLabel r := r]> acc.1, acc.2 ∖ {[topLabel r]})
  | RouteDeleted l => (delete l acc.1, {[l]} ∪ acc.2)
  end.

Section Ksp2Vocabulary.
Context {Link : Type} `{LinkOps Link}.

(** The nodes reached along a path that starts at [start]. *)
Fixpoint pathNodes (start : string) (path : list Link) : list string :=
  match path with
  | [] => []
  | link :: rest =>
      let next := getOtherNodeName link start in
      next :: pathNodes next rest
  end.

(** A path can be turned into a next hop: it has a link, every node on
    it has an adjacency database, and its end advertises the prefix. *)
Definition ksp2Walkable (linkState : LinkState Link)
    (nodePrefixes : gmap string PrefixEntry) (myNodeName : string)
    (path : list Link) : Prop :=
  path ≠ [] ∧
  (∀ n, n ∈ pathNodes myNodeName path →
        is_Some (getAdjacencyDatabases linkState !! n)) ∧
  (∀ n, list.last (pathNodes myNodeName path) = Some n →
        is_Some (nodePrefixes !! n)).

(** [nh] is a dynamic next hop of the entry: the next hop made of one
    of the retained paths. *)
Definition ksp2DynamicNextHop (myNodeName : string) (prefix_ : IpPrefix)
    (nodePrefixes : gmap string PrefixEntry) (linkState : LinkState Link)
    (paths : list (list Link)) (nh : NextHop) : Prop :=
  ∃ path, path ∈ paths ∧
          ksp2PathNextHop myNodeName prefix_ nodePrefixes linkState path
          = Some nh.
End Ksp2Vocabulary.

(** The static route whose next hops are appended to the entry: this
    node being among the destinations selected, the static MPLS route
    of the prepend label it advertises, if there is one. *)
Definition ksp2StaticRoute (s : SpfSolverImpl) (myNodeName : string)
    (bestPathCalResult : BestPathCalResult)
    (nodePrefixes : gmap string PrefixEntry) : list NextHop :=
  if bool_decide (myNodeName ∈ nodes bestPathCalResult) then
    default [] (pe ← nodePrefixes !! myNodeName;
                label_ ← prependLabel pe;
                staticRoutes_ s !! label_)
  else [].

(** The next hop appended for a next hop of the static route: its
    address alone, at cost 0. *)
Definition ksp2StaticNextHop (nh : NextHop) : NextHop :=
  createNextHop (nh_address nh) None 0 None true None.

(** [closestAmong spfResult seen acc]: [acc] is what [getMinCostNodes]
    has to hold after the destinations [seen]: the nodes of [seen] found
    in the SPF result at distance [acc.1], none of [seen] being closer,
    and the largest 64-bit number as distance while no node is held. *)
Definition closestAmong (spfResult : gmap string NodeSpfResult)
    (seen : list string) (acc : Z * gset string) : Prop :=
  (∀ D, D ∈ acc.2 ↔
        D ∈ seen ∧ ∃ r, spfResult !! D = Some r ∧ metric r = acc.1) ∧
  (∀ D r, D ∈ seen → spfResult !! D = Some r → acc.1 ≤ metric r) ∧
  (acc.2 = ∅ → acc.1 = metric_max).

Section NextHopsVocabulary.
Context {Link : Type} `{LinkOps Link}.

(** The MPLS action that goes with a swap label: PHP towards a
    neighbour that is itself a destination, SWAP with the label towards
    any other, none without a label. *)
Definition swapOrPhp (dstNodeNames : list string) (swapLabel : option Z)
    (neighborNode : string) : option MplsAction :=
  match swapLabel with
  | Some l =>
      Some (if bool_decide (neighborNode ∈ dstNodeNames)
            then createMplsAction PHP None None
            else createMplsAction SWAP (Some l) None)
  | None => None
  end.

(** The next hop over [link] with [v] the distance that remains behind
    the link. *)
Definition nextHopVia (myNodeName : string) (dstNodeNames : list string)
    (isV4 : bool) (swapLabel : option Z) (link : Link) (v : Z) : NextHop :=
  createNextHop
    (if isV4 then getNhV4FromNode link myNodeName
     else getNhV6FromNode link myNodeName)
    (Some (getIfaceFromNode link myNodeName))
    (metric_add (getMetricFromNode link myNodeName) v)
    (swapOrPhp dstNodeNames swapLabel (getOtherNodeName link myNodeName))
    false (Some (getArea link)).

(** [v] is the distance that remains behind the next-hop node [k.1] on
    a shortest path of length [shortestMetric]. *)
Definition remainingDistance (myNodeName : string)
    (linkState : LinkState Link) (shortestMetric : Z)
    (k : string * string) (v : Z) : Prop :=
  ∃ m, getMetricFromAToB linkState myNodeName k.1 = Some m ∧
       v = metric_sub shortestMetric m.

(** [k.1] is a next hop of the SPF result towards a destination of
    [ds] that is filed under the tag [k.2]. *)
Definition onShortestPath (myNodeName : string) (perDestination : bool)
    (linkState : LinkState Link) (ds : list string)
    (k : string * string) : Prop :=
  ∃ D r, D ∈ ds ∧ getSpfResult linkState myNodeName !! D = Some r ∧
         k.1 ∈ nextHops r ∧ k.2 = dstNodeRef perDestination D.

(** The next hop that the destinations taken together ([dstNode] empty)
    get over [link], if any. *)
Definition collapsedNextHop (s : SpfSolverImpl) (myNodeName : string)
    (dstNodeNames : list string) (isV4 : bool) (minMetric : Z)
    (nextHopNodes : gmap (string * string) Z) (swapLabel : option Z)
    (link : Link) : option NextHop :=
  match nextHopNodes !! (getOtherNodeName link myNodeName, "") with
  | None => None
  | Some v =>
      if isUp link
         && (computeLfaPaths_ s
             || (metric_add (getMetricFromNode link myNodeName) v
                 =? minMetric))
      then Some (nextHopVia myNodeName dstNodeNames isV4 swapLabel link v)
      else None
  end.
End NextHopsVocabulary.

Section NodeLabelVocabulary.
Context {Link : Type} `{LinkOps Link}.

(** The node-label loop installs the label of [adjDb] when it reaches
    the install step: the label is set and valid, and the node is this
    node or there are next hops towards it. *)
Definition installsNodeLabel (s : SpfSolverImpl) (myNodeName : string)
    (linkState : LinkState Link) (adjDb : AdjacencyDatabase) : Prop :=
  nodeLabel adjDb ≠ 0 ∧ isMplsLabelValid (nodeLabel adjDb) = true ∧
  (adj_thisNodeName adjDb = myNodeName ∨
   ∃ metricNhs,
     getNextHopsWithMetric s myNodeName [adj_thisNodeName adjDb] false
       linkState = Some metricNhs ∧ metricNhs.2 ≠ ∅).

(** [smallestHolder s me ls seen m]: every label of [m] is held by a
    node of [seen] that advertises it, no node of [seen] whose label the
    loop installs has a smaller name than the holder, and a label
    without holder has no such node. *)
Definition smallestHolder (s : SpfSolverImpl) (myNodeName : string)
    (linkState : LinkState Link) (seen : list AdjacencyDatabase)
    (m : gmap Z (string * RibMplsEntry)) : Prop :=
  ∀ l, match m !! l with
       | Some holder =>
           (∃ adjDb, adjDb ∈ seen ∧ nodeLabel adjDb = l ∧
                     adj_thisNodeName adjDb = holder.1) ∧
           (∀ adjDb, adjDb ∈ seen → nodeLabel adjDb = l →
                     installsNodeLabel s myNodeName linkState adjDb →
                     String.ltb (adj_thisNodeName adjDb) holder.1 = false)
       | None =>
           ∀ adjDb, adjDb ∈ seen → nodeLabel adjDb = l →
                    ¬ installsNodeLabel s myNodeName linkState adjDb
       end.
End NodeLabelVocabulary.

Section BgpVocabulary.
Context {Link : Type} `{LinkOps Link} {MV : MetricVectorOps}.


End BgpVocabulary.

Section RouteBuilderVocabulary.
Context {Link : Type} `{LinkOps Link} {MV : MetricVectorOps}.

(** From [ue] to [ue'] nothing changed, or one entry that carries the
    prefix [prefix_] was emplaced under it. *)
Definition emplacedAt (prefix_ : IpPrefix)
    (ue ue' : gmap IpPrefix RibUnicastEntry) : Prop :=
  ue' = ue ∨ ∃ e, prefix e = prefix_ ∧ ue' = emplace prefix_ e ue.

(** Some advertiser of [nodePrefixes] advertises the prefix as a BGP
    prefix. *)
Definition advertisedWithBgp (nodePrefixes : gmap string PrefixEntry)
    : Prop :=
  ∃ n pe, nodePrefixes !! n = Some pe ∧ pe_type pe = BGP.

(** The conditions under which [buildRouteDb] goes on to compute a
    unicast route for a prefix: a v4 prefix only when v4 is enabled; a
    prefix this node advertises only when it is a BGP prefix; a BGP
    prefix only when all its advertisers advertise it as such, each
    with a metric vector. *)
Definition routable (s : SpfSolverImpl) (myNodeName : string)
    (prefix_ : IpPrefix) (nodePrefixes : gmap string PrefixEntry) : Prop :=
  (String.length (prefixAddress_addr prefix_) = 4%nat →
   enableV4_ s = true) ∧
  (is_Some (nodePrefixes !! myNodeName) → advertisedWithBgp nodePrefixes) ∧
  (advertisedWithBgp nodePrefixes →
   ∀ n pe, nodePrefixes !! n = Some pe →
           pe_type pe = BGP ∧ is_Some (mv_ref pe)).
End RouteBuilderVocabulary.

Section DecisionVocabulary.
Context {Link : Type} `{LinkOps Link} `{Collaborators Link}.

(** [accumulates d d']: from [d] to [d'] nothing was published and no
    pending update was dropped: the name of the node, the published
    route database, the queue, the policy with its timer, the solver and
    the cold-start and debounce timers are as they were, and the calls
    recorded on [pendingUpdates_] were added to. *)
Definition accumulates (d d' : Decision) : Prop :=
  myNodeName_ d' = myNodeName_ d ∧
  routeDb_ d' = routeDb_ d ∧
  routeUpdatesQueue_ d' = routeUpdatesQueue_ d ∧
  ribPolicy_ d' = ribPolicy_ d ∧
  ribPolicyTimer_ d' = ribPolicyTimer_ d ∧
  spfSolver_ d' = spfSolver_ d ∧
  coldStartTimer_ d' = coldStartTimer_ d ∧
  processUpdatesTimer_ d' = processUpdatesTimer_ d ∧
  ∃ calls, pendingUpdates_ d' = pendingUpdates_ d ++ calls.

(** What a node advertises under per-prefix keys, and with its full
    prefix database. *)
Definition perPrefixEntriesOf (d : Decision) (nodeName : string)
    : gmap IpPrefix PrefixEntry :=
  default ∅ (perPrefixPrefixEntries_ d !! nodeName).

Definition fullDbEntriesOf (d : Decision) (nodeName : string)
    : gmap IpPrefix PrefixEntry :=
  default ∅ (fullDbPrefixEntries_ d !! nodeName).

(** The area of a publication made sure of in [areaLinkStates_]. *)
Definition withArea (area : string) (d : Decision) : Decision :=
  match areaLinkStates_ d !! area with
  | Some _ => d
  | None =>
      set_areaLinkStates (<[area := newLinkState area]> (areaLinkStates_ d)) d
  end.

(** A key that [processPublication] passes over: it carries none of the
    markers of the adjacency, prefix and FIB-time keys. *)
Definition unmarked (key : string) : Prop :=
  String.prefix kAdjDbMarker key = false ∧
  String.prefix kPrefixDbMarker key = false ∧
  String.prefix kFibTimeMarker key = false.

(** The route database the solver builds for a node in an area, if the
    area is known and the solver builds one there. *)
Definition areaRouteDb (d : Decision) (nodeName area : string)
    : option DecisionRouteDb :=
  linkState ← areaLinkStates_ d !! area;
  solverBuildRouteDb (spfSolver_ d) nodeName linkState (prefixState_ d).
End DecisionVocabulary.

(** * Scenarios

    Concrete inputs on which the properties below are exercised. *)

(** The four bytes of an IPv4 address. *)
Definition ipv4 (a b c d : nat) : string :=
  String (Ascii.ascii_of_nat a) (String (Ascii.ascii_of_nat b)
    (String (Ascii.ascii_of_nat c)
       (String (Ascii.ascii_of_nat d) EmptyString))).

Module DeltaScenario.
Definition prefix10 : IpPrefix := mkIpPrefix (ipv4 10 0 0 0) 24.
Definition prefix20 : IpPrefix := mkIpPrefix (ipv4 20 0 0 0) 24.
Definition prefix30 : IpPrefix := mkIpPrefix (ipv4 30 0 0 0) 24.

Definition viaB : NextHop :=
  createNextHop "fe80::b" (Some "if_a_b") 10 None false (Some "0").
Definition viaC : NextHop :=
  createNextHop "fe80::c" (Some "if_a_c") 10 None false (Some "0").

Definition unicast (p : IpPrefix) (nhs : gset NextHop) : RibUnicastEntry :=
  mkRibUnicastEntry p nhs None false None.

(** Old: 10/24 via B, 20/24 via B, label 100 via B.
    New: 10/24 via B (unchanged), 20/24 via B and C (changed),
    30/24 via C (added), label 100 gone, label 200 via C. *)
Definition oldDb : DecisionRouteDb :=
  mkDecisionRouteDb
    (<[prefix10 := unicast prefix10 {[viaB]}]>
       (<[prefix20 := unicast prefix20 {[viaB]}]> ∅))
    (<[100 := mkRibMplsEntry 100 {[viaB]}]> ∅).

Definition newDb : DecisionRouteDb :=
  mkDecisionRouteDb
    (<[prefix10 := unicast prefix10 {[viaB]}]>
       (<[prefix20 := unicast prefix20 {[viaB; viaC]}]>
          (<[prefix30 := unicast prefix30 {[viaC]}]> ∅)))
    (<[200 := mkRibMplsEntry 200 {[viaC]}]> ∅).

(** A database whose one entry, for 20/24, is filed under 10/24. *)
Definition misfiledDb : DecisionRouteDb :=
  mkDecisionRouteDb (<[prefix10 := unicast prefix20 {[viaB]}]> ∅) ∅.
End DeltaScenario.

(** A link given by its two ends, the metric each end advertises and
    its status; interface and next-hop addresses are derived from the
    node names. *)
Record SimpleLink := mkSimpleLink {
  sl_n1 : string;
  sl_n2 : string;
  sl_metric1 : Z;
  sl_metric2 : Z;
  sl_up : bool
}.

#[global] Instance SimpleLink_eq_dec : EqDecision SimpleLink.
Proof. solve_decision. Defined.

Definition sl_other (l : SimpleLink) (n : string) : string :=
  if String.eqb n (sl_n1 l) then sl_n2 l else sl_n1 l.

#[global] Instance SimpleLink_ops : LinkOps SimpleLink := {|
  getOtherNodeName := sl_other;
  getMetricFromNode l n :=
    if String.eqb n (sl_n1 l) then sl_metric1 l else sl_metric2 l;
  getAdjLabelFromNode _ _ := 0;
  getIfaceFromNode l n :=
    String.append "if_"
      (String.append n (String.append "_" (sl_other l n)));
  getNhV4FromNode l n := String.append "v4:" (sl_other l n);
  getNhV6FromNode l n := String.append "fe80::" (sl_other l n);
  getArea _ := "0";
  isUp := sl_up
|}.

(** A solver for node [me] with the given LFA setting and no static
    routes. *)
Definition solverFor (me : string) (lfa : bool) : SpfSolverImpl :=
  mkSpfSolverImpl ∅ [] me true lfa false false false.

(** The SPF table of a node, from (destination, metric, next hops). *)
Definition spfTable (rows : list (string * Z * list string))
    : gmap string NodeSpfResult :=
  list_to_map
    ((λ row : string * Z * list string,
        (row.1.1, mkNodeSpfResult row.1.2 (list_to_set row.2))) <$> rows).

Definition metricFrom (spf : string → gmap string NodeSpfResult)
    (a b : string) : option Z :=
  if String.eqb a b then Some 0 else metric <$> spf a !! b.

(** Node [A] with neighbours [B] and [C] over links of metric 10; [B]
    and [C] both advertise node label 5000, [A] advertises 1000. *)
Module DuplicateLabelScenario.
Definition linkAB : SimpleLink := mkSimpleLink "A" "B" 10 10 true.
Definition linkAC : SimpleLink := mkSimpleLink "A" "C" 10 10 true.

Definition spf (n : string) : gmap string NodeSpfResult :=
  if String.eqb n "A" then
    spfTable [("A", 0, []); ("B", 10, ["B"]); ("C", 10, ["C"])]
  else if String.eqb n "B" then
    spfTable [("B", 0, []); ("A", 10, ["A"]); ("C", 20, ["A"])]
  else if String.eqb n "C" then
    spfTable [("C", 0, []); ("A", 10, ["A"]); ("B", 20, ["A"])]
  else ∅.

Definition dbA : AdjacencyDatabase := mkAdjacencyDatabase "A" 1000 None.
Definition dbB : AdjacencyDatabase := mkAdjacencyDatabase "B" 5000 None.
Definition dbC : AdjacencyDatabase := mkAdjacencyDatabase "C" 5000 None.

Definition linkState : LinkState SimpleLink :=
  {| hasNode n := bool_decide (n ∈ ["A"; "B"; "C"]);
     getSpfResult := spf;
     getMetricFromAToB := metricFrom spf;
     linksFromNode n :=
       if String.eqb n "A" then [linkAB; linkAC]
       else if String.eqb n "B" then [linkAB]
       else if String.eqb n "C" then [linkAC]
       else [];
     getAdjacencyDatabases :=
       <["A" := dbA]> (<["B" := dbB]> (<["C" := dbC]> ∅));
     getKthPaths _ _ _ := [];
     isNodeOverloaded _ := false |}.

(** The node that holds a label after the loop, and the number of
    duplicates counted. *)
Definition outcome (order : list AdjacencyDatabase)
    : option (option string * Z) :=
  st ← nodeLabelLoop (solverFor "A" false) "A" linkState order ∅;
  Some (fst <$> labelToNode st !! 5000,
        counter "decision.duplicate_node_label" (counters st)).
End DuplicateLabelScenario.

(** The full mesh of [A], [B] and [C] with unit metrics; [B] and [C]
    advertise the same prefix.  From [A] the shortest paths are [A-B] and
    [A-C], the second-shortest [A-C-B] and [A-B-C]. *)
Module Ksp2Scenario.
Definition linkAB : SimpleLink := mkSimpleLink "A" "B" 1 1 true.
Definition linkAC : SimpleLink := mkSimpleLink "A" "C" 1 1 true.
Definition linkBC : SimpleLink := mkSimpleLink "B" "C" 1 1 true.

Definition spf (n : string) : gmap string NodeSpfResult :=
  if String.eqb n "A" then
    spfTable [("A", 0, []); ("B", 1, ["B"]); ("C", 1, ["C"])]
  else if String.eqb n "B" then
    spfTable [("B", 0, []); ("A", 1, ["A"]); ("C", 1, ["C"])]
  else if String.eqb n "C" then
    spfTable [("C", 0, []); ("A", 1, ["A"]); ("B", 1, ["B"])]
  else ∅.

Definition kthPaths (src dst : string) (k : Z) : list (list SimpleLink) :=
  if String.eqb src "A" then
    if String.eqb dst "B" then
      if k =? 1 then [[linkAB]]
      else if k =? 2 then [[linkAC; linkBC]] else []
    else if String.eqb dst "C" then
      if k =? 1 then [[linkAC]]
      else if k =? 2 then [[linkAB; linkBC]] else []
    else []
  else [].

Definition linkState : LinkState SimpleLink :=
  {| hasNode n := bool_decide (n ∈ ["A"; "B"; "C"]);
     getSpfResult := spf;
     getMetricFromAToB := metricFrom spf;
     linksFromNode n :=
       if String.eqb n "A" then [linkAB; linkAC]
       else if String.eqb n "B" then [linkAB; linkBC]
       else if String.eqb n "C" then [linkAC; linkBC]
       else [];
     getAdjacencyDatabases :=
       <["A" := mkAdjacencyDatabase "A" 101 None]>
         (<["B" := mkAdjacencyDatabase "B" 102 None]>
            (<["C" := mkAdjacencyDatabase "C" 103 None]> ∅));
     getKthPaths := kthPaths;
     isNodeOverloaded _ := false |}.
End Ksp2Scenario.

(** Node [A] with links to [D] (metric 1), [X] (metric 1), [N2]
    (metric 10) and [N1] (metric 1, not up); [X] and [N2] are joined by a
    link of metric 1, and so are [N1] and [D].  The SPF tables are those of
    this graph without the link that is down.  The destination is [D]. *)
Module LfaScenario.
Definition linkAD : SimpleLink := mkSimpleLink "A" "D" 1 1 true.
Definition linkAX : SimpleLink := mkSimpleLink "A" "X" 1 1 true.
Definition linkAN2 : SimpleLink := mkSimpleLink "A" "N2" 10 10 true.
Definition linkAN1 : SimpleLink := mkSimpleLink "A" "N1" 1 1 false.

Definition spf (n : string) : gmap string NodeSpfResult :=
  if String.eqb n "A" then
    spfTable [("A", 0, []); ("D", 1, ["D"]); ("X", 1, ["X"]);
              ("N2", 2, ["X"]); ("N1", 2, ["D"])]
  else if String.eqb n "D" then
    spfTable [("D", 0, []); ("A", 1, ["A"]); ("N1", 1, ["N1"]);
              ("X", 2, ["A"]); ("N2", 3, ["A"])]
  else if String.eqb n "X" then
    spfTable [("X", 0, []); ("A", 1, ["A"]); ("N2", 1, ["N2"]);
              ("D", 2, ["A"]); ("N1", 3, ["A"])]
  else if String.eqb n "N2" then
    spfTable [("N2", 0, []); ("X", 1, ["X"]); ("A", 2, ["X"]);
              ("D", 3, ["X"]); ("N1", 4, ["X"])]
  else if String.eqb n "N1" then
    spfTable [("N1", 0, []); ("D", 1, ["D"]); ("A", 2, ["D"]);
              ("X", 3, ["D"]); ("N2", 4, ["D"])]
  else ∅.

Definition linkState : LinkState SimpleLink :=
  {| hasNode n := bool_decide (n ∈ ["A"; "D"; "X"; "N1"; "N2"]);
     getSpfResult := spf;
     getMetricFromAToB := metricFrom spf;
     linksFromNode n :=
       if String.eqb n "A" then [linkAD; linkAX; linkAN2; linkAN1] else [];
     getAdjacencyDatabases := ∅;
     getKthPaths _ _ _ := [];
     isNodeOverloaded _ := false |}.

Definition solver : SpfSolverImpl := solverFor "A" true.

(** The outcome of [getNextHopsWithMetric] for the destination [D]:
    the shortest metric is 1 and [D] itself is the only neighbour
    recorded. *)
Definition recorded : gmap (string * string) Z := <[("D", "") := 0]> ∅.
End LfaScenario.

(** Node [A] with links to [B] (metric 1) and [C] (metric 2); [B] and
    [C] are each joined to [D] by a link of metric 1.  The destination
    is [D]: its shortest path, of metric 2, goes through [B], and [C]
    is a loop-free alternate. *)
Module LfaAlternateScenario.
Definition linkAB : SimpleLink := mkSimpleLink "A" "B" 1 1 true.
Definition linkAC : SimpleLink := mkSimpleLink "A" "C" 2 2 true.

Definition spf (n : string) : gmap string NodeSpfResult :=
  if String.eqb n "A" then
    spfTable [("A", 0, []); ("B", 1, ["B"]); ("C", 2, ["C"]);
              ("D", 2, ["B"])]
  else if String.eqb n "B" then
    spfTable [("B", 0, []); ("A", 1, ["A"]); ("D", 1, ["D"]);
              ("C", 2, ["D"])]
  else if String.eqb n "C" then
    spfTable [("C", 0, []); ("D", 1, ["D"]); ("A", 2, ["A"]);
              ("B", 2, ["D"])]
  else if String.eqb n "D" then
    spfTable [("D", 0, []); ("B", 1, ["B"]); ("C", 1, ["C"]);
              ("A", 2, ["B"])]
  else ∅.

Definition linkState : LinkState SimpleLink :=
  {| hasNode n := bool_decide (n ∈ ["A"; "B"; "C"; "D"]);
     getSpfResult := spf;
     getMetricFromAToB := metricFrom spf;
     linksFromNode n :=
       if String.eqb n "A" then [linkAB; linkAC] else [];
     getAdjacencyDatabases := ∅;
     getKthPaths _ _ _ := [];
     isNodeOverloaded _ := false |}.

Definition solver : SpfSolverImpl := solverFor "A" true.

(** The next hops of the shortest paths: [B], one hop from [D]. *)
Definition shortest : gmap (string * string) Z := <[("B", "") := 1]> ∅.

(** The outcome of [getNextHopsWithMetric] for the destination [D]:
    [B] and, as an alternate, [C]. *)
Definition recorded : gmap (string * string) Z :=
  <[("B", "") := 1]> (<[("C", "") := 1]> ∅).
End LfaAlternateScenario.

(** Node [A] with neighbours [B], [C] and [E] (links of metric 1); [E]
    is also linked to [B].  [B] and [C] advertise the same prefix with
    KSP2 forwarding, [B] asking for at least 1 next hop and [C] for at
    least 3; [C] is overloaded, so that the destinations selected for the
    prefix are [B] alone.  From [A] the shortest path to [B] is the
    direct link and the second-shortest goes through [E]. *)
Module MinNexthopScenario.
Definition linkAB : SimpleLink := mkSimpleLink "A" "B" 1 1 true.
Definition linkAC : SimpleLink := mkSimpleLink "A" "C" 1 1 true.
Definition linkAE : SimpleLink := mkSimpleLink "A" "E" 1 1 true.
Definition linkEB : SimpleLink := mkSimpleLink "E" "B" 1 1 true.

Definition spf (n : string) : gmap string NodeSpfResult :=
  if String.eqb n "A" then
    spfTable [("A", 0, []); ("B", 1, ["B"]); ("C", 1, ["C"]);
              ("E", 1, ["E"])]
  else ∅.

Definition kthPaths (src dst : string) (k : Z) : list (list SimpleLink) :=
  if String.eqb src "A" && String.eqb dst "B" then
    if k =? 1 then [[linkAB]]
    else if k =? 2 then [[linkAE; linkEB]] else []
  else if String.eqb src "A" && String.eqb dst "C" then
    if k =? 1 then [[linkAC]] else []
  else [].

Definition linkState : LinkState SimpleLink :=
  {| hasNode n := bool_decide (n ∈ ["A"; "B"; "C"; "E"]);
     getSpfResult := spf;
     getMetricFromAToB := metricFrom spf;
     linksFromNode n :=
       if String.eqb n "A" then [linkAB; linkAC; linkAE] else [];
     getAdjacencyDatabases :=
       <["A" := mkAdjacencyDatabase "A" 101 None]>
         (<["B" := mkAdjacencyDatabase "B" 102 None]>
            (<["C" := mkAdjacencyDatabase "C" 103 None]>
               (<["E" := mkAdjacencyDatabase "E" 105 None]> ∅)));
     getKthPaths := kthPaths;
     isNodeOverloaded n := String.eqb n "C" |}.

Definition vip : IpPrefix := mkIpPrefix (ipv4 192 168 0 1) 32.

Definition advertised (minNh : Z) : PrefixEntry :=
  mkPrefixEntry vip LOOPBACK SR_MPLS KSP2_ED_ECMP None (Some minNh).

Definition nodePrefixes : gmap string PrefixEntry :=
  <["B" := advertised 1]> (<["C" := advertised 3]> ∅).

Definition prefixState : PrefixState :=
  mkPrefixState (<[vip := nodePrefixes]> ∅) (λ _ _ _, []).

Definition solver : SpfSolverImpl := solverFor "A" false.

(** The destinations [buildRouteDb] hands to [selectKsp2]. *)
Definition bestNodes : BestPathCalResult :=
  getBestAnnouncingNodes emptyBestPathCalResult "A" nodePrefixes false true
    linkState.

Definition viaB : NextHop :=
  createNextHop "v4:B" (Some "if_A_B") 1 None true (Some "0").
Definition viaE : NextHop :=
  createNextHop "v4:E" (Some "if_A_E") 2
    (Some (createMplsAction PUSH None (Some [102]))) true (Some "0").
End MinNexthopScenario.

(** The same network with [A] itself among the destinations: [A] and
    [B] advertise the prefix as a BGP prefix with KSP2 forwarding, [A]
    with the prepend label 60000 and [B] asking for at least 2 next
    hops; the solver of [A] holds the static MPLS route of label 60000
    given. *)
Module AnycastScenario.
Definition nodePrefixes : gmap string PrefixEntry :=
  <["A" := mkPrefixEntry MinNexthopScenario.vip BGP SR_MPLS KSP2_ED_ECMP
             (Some 60000) None]>
    (<["B" := mkPrefixEntry MinNexthopScenario.vip BGP SR_MPLS KSP2_ED_ECMP
                None (Some 2)]> ∅).

Definition bestNodes : BestPathCalResult :=
  mkBestPathCalResult true ["A"; "B"] "B" None.

Definition solverWith (route : list NextHop) : SpfSolverImpl :=
  mkSpfSolverImpl (<[60000 := route]> ∅) [] "A" true false false false false.

(** Two next hops with different addresses, and a third with the
    address of the first on another interface. *)
Definition static1 : NextHop :=
  createNextHop "fe80::51" (Some "eth1") 0 None false None.
Definition static2 : NextHop :=
  createNextHop "fe80::52" (Some "eth2") 0 None false None.
Definition static1' : NextHop :=
  createNextHop "fe80::51" (Some "eth2") 0 None false None.

Definition solver : SpfSolverImpl := solverWith [static1; static2].
End AnycastScenario.

(** A Decision instance for node [A] with concrete stand-ins for the
    classes defined elsewhere: keys are split at the colons; a serialized
    value is looked up in a table; the solver knows no route for a node
    that is absent from the link state and yields a fixed database
    otherwise; a policy is built from the number of its statements and
    its TTL in seconds, the clock reading 1000 ms at construction. *)
Module DecisionScenario.
Fixpoint dropToColon (s : string) : string :=
  match s with
  | EmptyString => EmptyString
  | String c s' =>
      if Ascii.eqb c (Ascii.ascii_of_nat 58) then s' else dropToColon s'
  end.

Fixpoint takeToColon (s : string) : string :=
  match s with
  | EmptyString => EmptyString
  | String c s' =>
      if Ascii.eqb c (Ascii.ascii_of_nat 58) then EmptyString
      else String c (takeToColon s')
  end.

Definition prefix10 : IpPrefix := mkIpPrefix (ipv4 10 0 0 0) 24.

Definition entry10 : PrefixEntry :=
  mkPrefixEntry prefix10 LOOPBACK IP SP_ECMP None None.

Definition viaB : NextHop :=
  createNextHop "fe80::B" (Some "if_A_B") 10 None false (Some "0").

(** The routes the solver computes while [A] is in the link state. *)
Definition routesOfA : DecisionRouteDb :=
  mkDecisionRouteDb
    (<[prefix10 := mkRibUnicastEntry prefix10 {[viaB]} None false None]> ∅)
    ∅.

Definition emptyLinkState (area : string) : LinkState SimpleLink :=
  {| hasNode _ := false;
     getSpfResult _ := ∅;
     getMetricFromAToB _ _ := None;
     linksFromNode _ := [];
     getAdjacencyDatabases := ∅;
     getKthPaths _ _ _ := [];
     isNodeOverloaded _ := false |}.

Definition withNode (ls : LinkState SimpleLink) (node : string)
    (present : bool) : LinkState SimpleLink :=
  {| hasNode n := if String.eqb n node then present else hasNode ls n;
     getSpfResult := getSpfResult ls;
     getMetricFromAToB := getMetricFromAToB ls;
     linksFromNode := linksFromNode ls;
     getAdjacencyDatabases :=
       if present
       then <[node := mkAdjacencyDatabase node 0 None]>
              (getAdjacencyDatabases ls)
       else delete node (getAdjacencyDatabases ls);
     getKthPaths := getKthPaths ls;
     isNodeOverloaded := isNodeOverloaded ls |}.

Definition perfEventsOfB : PerfEvents := [("B", "PREFIX_DB_UPDATED")].

Definition prefixDbOfB : PrefixDatabase :=
  mkPrefixDatabase "B" [entry10] false (Some perfEventsOfB).

Definition adjDbOfB : AdjacencyDatabase :=
  mkAdjacencyDatabase "B" 0 (Some [("B", "ADJ_DB_UPDATED")]).

#[global] Instance collaborators : Collaborators SimpleLink := {|
  solverBuildRouteDb _ nodeName linkState _ :=
    if hasNode linkState nodeName then Some routesOfA else None;
  RibPolicyThrift := (nat * Z)%type;
  makeRibPolicy t :=
    match t.1 with
    | O => inl (mkOpenrError "Missing policy statement")
    | _ => inr (mkRibPolicy (1000 + 1000 * t.2) (λ e, (e, false)))
    end;
  PrefixChange := bool;
  newLinkState := emptyLinkState;
  updateAdjacencyDatabase ls adjDb _ _ :=
    (withNode ls (adj_thisNodeName adjDb) true,
     mkLinkStateChange true false false);
  deleteAdjacencyDatabase ls node :=
    (withNode ls node false, mkLinkStateChange true false false);
  getHopsFromAToB _ _ _ := None;
  getMaxHopsToNode _ _ := 0;
  hasHolds _ := false;
  updatePrefixDatabase ps db :=
    (mkPrefixState
       (foldl (λ m e,
                 <[pe_prefix e :=
                     <[pdb_thisNodeName db := e]>
                       (default ∅ (m !! pe_prefix e))]> m)
              (prefixes ps) (prefixEntries db))
       (getLoopbackVias ps),
     true);
  needsRouteUpdate calls :=
    existsb (λ c, match c with
                  | applyLinkStateChange _ change _ => topologyChanged change
                  | applyPrefixStateChange change _ => change
                  | _ => false
                  end) calls;
  pendingPerfEvents calls :=
    list.last (omap (λ c, match c with
                          | applyLinkStateChange _ _ pe => pe
                          | applyPrefixStateChange _ pe => pe
                          | _ => None
                          end) (rev calls));
  Backoff := unit;
  reportSuccess b := b;
  getNodeNameFromKey key := takeToColon (dropToColon key);
  prefixKeyFromStr _ := None;
  readAdjacencyDatabase raw :=
    if String.eqb raw "adjacency-db-of-B" then Some adjDbOfB else None;
  readPrefixDatabase raw :=
    if String.eqb raw "prefix-db-of-B" then Some prefixDbOfB else None;
  stoll _ := None
|}.

(** Decision on node [A] at start-up: nothing received, nothing
    published, the cold-start timer running. *)
Definition atStartup : Decision :=
  {| myNodeName_ := "A";
     isRibPolicyEnabled := true;
     enable_ordered_fib_programming := false;
     spfSolver_ := solverFor "A" false;
     areaLinkStates_ := ∅;
     prefixState_ := mkPrefixState ∅ (λ _ _ _, []);
     perPrefixPrefixEntries_ := ∅;
     fullDbPrefixEntries_ := ∅;
     fibTimes_ := ∅;
     routeDb_ := emptyRouteDb;
     ribPolicy_ := None;
     ribPolicyTimer_ := None;
     coldStartTimer_ := true;
     processUpdatesTimer_ := None;
     orderedFibTimer_ := None;
     processUpdatesBackoff_ := ();
     pendingUpdates_ := [];
     routeUpdatesQueue_ := [];
     fbData := ∅ |}.

(** The cold-start timer has fired and nothing was received. *)
Definition coldStartExpired : Decision :=
  mkDecision "A" true false (solverFor "A" false) ∅
    (mkPrefixState ∅ (λ _ _ _, [])) ∅ ∅ ∅ emptyRouteDb None None false None
    None () [] [] ∅.

(** A publication with the prefix database of [B], which carries perf
    events. *)
Definition prefixPublication : Publication :=
  mkPublication None
    [("prefix:B", mkValue (Some "prefix-db-of-B") 1)] [].

(** After the cold start: the routes of [A] are published, and the
    adjacency database of [A] has then expired, so that a route update is
    pending while the link state no longer holds [A]. *)
Definition routesPublishedThenNodeGone : Decision :=
  mkDecision "A" true false (solverFor "A" false)
    (<["0" := emptyLinkState "0"]> ∅)
    (mkPrefixState ∅ (λ _ _ _, [])) ∅ ∅ ∅ routesOfA None None false
    (Some 10) None ()
    [applyLinkStateChange "A" (mkLinkStateChange true false false) None]
    [getRouteDelta routesOfA emptyRouteDb] ∅.

(** A policy with one statement whose TTL is zero seconds, set when the
    clock reads 1000 ms. *)
Definition stalePolicy : nat * Z := (1%nat, 0).
End DecisionScenario.

(** Node [A] is in the link state of area 0, nothing has been published
    yet, and the update of the adjacency database of [A] is pending. *)
Module PendingScenario.
Definition adjacencyPending : Decision :=
  mkDecision "A" true false (solverFor "A" false)
    (<["0" := DecisionScenario.withNode
                (DecisionScenario.emptyLinkState "0") "A" true]> ∅)
    (mkPrefixState ∅ (λ _ _ _, [])) ∅ ∅ ∅ emptyRouteDb None None false
    (Some 10) None ()
    [applyLinkStateChange "A" (mkLinkStateChange true false false)
       (Some [("A", "ADJ_DB_UPDATED")])]
    [] ∅.
End PendingScenario.

(** A link with adjacency labels: a [SimpleLink] and the label each
    end gives it. *)
Record LabelledLink := mkLabelledLink {
  ll_link : SimpleLink;
  ll_label1 : Z;
  ll_label2 : Z
}.

#[global] Instance LabelledLink_eq_dec : EqDecision LabelledLink.
Proof. solve_decision. Defined.

#[global] Instance LabelledLink_ops : LinkOps LabelledLink := {|
  getOtherNodeName l := getOtherNodeName (ll_link l);
  getMetricFromNode l := getMetricFromNode (ll_link l);
  getAdjLabelFromNode l n :=
    if String.eqb n (sl_n1 (ll_link l)) then ll_label1 l else ll_label2 l;
  getIfaceFromNode l := getIfaceFromNode (ll_link l);
  getNhV4FromNode l := getNhV4FromNode (ll_link l);
  getNhV6FromNode l := getNhV6FromNode (ll_link l);
  getArea l := getArea (ll_link l);
  isUp l := isUp (ll_link l)
|}.

(** Node [A] with neighbours [X] (metric 5) and [Y] (metric 7); every
    node has a node label and every link adjacency labels.  [X] and [Y]
    advertise a v4 prefix as a BGP prefix, with the same metric vector;
    [Y] advertises a v6 prefix; [A] advertises a v6 prefix of its own.
    A metric vector is the list of its metrics; the IGP cost entity
    appends the cost negated; of two vectors of one metric the larger
    wins. *)
Module RouteBuilderScenario.
Definition metricVectors : MetricVectorOps := {|
  MetricVector := list Z;
  mv_ref pe := if bool_decide (pe_type pe = BGP) then Some [] else None;
  hasIgpCostEntity mvec := bool_decide (mvec ≠ []);
  addIgpCostEntity mvec igpMetric := mvec ++ [- igpMetric];
  compareMetricVectors a b :=
    match a, b with
    | [x], [y] =>
        if x >? y then WINNER else if x =? y then TIE else OTHER_RESULT
    | _, _ => ERROR
    end;
  getPrefixForwardingType np :=
    if forallb (λ kv : string * PrefixEntry,
                  bool_decide (forwardingType kv.2 = SR_MPLS))
               (map_to_list np)
    then SR_MPLS else IP
|}.

Definition linkAX : LabelledLink :=
  mkLabelledLink (mkSimpleLink "A" "X" 5 5 true) 50001 50011.
Definition linkAY : LabelledLink :=
  mkLabelledLink (mkSimpleLink "A" "Y" 7 7 true) 50002 50012.

Definition spf (n : string) : gmap string NodeSpfResult :=
  if String.eqb n "A" then
    spfTable [("A", 0, []); ("X", 5, ["X"]); ("Y", 7, ["Y"])]
  else if String.eqb n "X" then
    spfTable [("X", 0, []); ("A", 5, ["A"]); ("Y", 12, ["A"])]
  else if String.eqb n "Y" then
    spfTable [("Y", 0, []); ("A", 7, ["A"]); ("X", 12, ["A"])]
  else ∅.

Definition linkState : LinkState LabelledLink :=
  {| hasNode n := bool_decide (n ∈ ["A"; "X"; "Y"]);
     getSpfResult := spf;
     getMetricFromAToB := metricFrom spf;
     linksFromNode n :=
       if String.eqb n "A" then [linkAX; linkAY]
       else if String.eqb n "X" then [linkAX]
       else if String.eqb n "Y" then [linkAY]
       else [];
     getAdjacencyDatabases :=
       <["A" := mkAdjacencyDatabase "A" 101 None]>
         (<["X" := mkAdjacencyDatabase "X" 102 None]>
            (<["Y" := mkAdjacencyDatabase "Y" 103 None]> ∅));
     getKthPaths _ _ _ := [];
     isNodeOverloaded _ := false |}.

Definition bgpPrefix : IpPrefix := mkIpPrefix (ipv4 100 64 0 0) 16.
Definition prefixOfY : IpPrefix := mkIpPrefix "fc00:0:0:0:0:0:Y" 64.
Definition prefixOfA : IpPrefix := mkIpPrefix "fc00:0:0:0:0:0:A" 64.

Definition bgpAdvertisers : gmap string PrefixEntry :=
  <["X" := mkPrefixEntry bgpPrefix BGP IP SP_ECMP None None]>
    (<["Y" := mkPrefixEntry bgpPrefix BGP IP SP_ECMP None None]> ∅).

Definition prefixState : PrefixState :=
  mkPrefixState
    (<[bgpPrefix := bgpAdvertisers]>
       (<[prefixOfY :=
            <["Y" := mkPrefixEntry prefixOfY LOOPBACK IP SP_ECMP None None]>
              ∅]>
          (<[prefixOfA :=
               <["A" := mkPrefixEntry prefixOfA LOOPBACK IP SP_ECMP None
                          None]> ∅]> ∅)))
    (λ nodes_ _ igpMetric,
       (λ n, createNextHop (String.append "lo:" n) None
               (default 0 igpMetric) None false None) <$> nodes_).


(** The solver of [A]: v4 enabled, no LFA, the IGP metric used in the
    BGP selection. *)
Definition solver : SpfSolverImpl :=
  mkSpfSolverImpl ∅ [] "A" true false false false true.

(** The outcome of the route build, which took 3 ms. *)
Definition built : option (option DecisionRouteDb * Counters) :=
  SpfSolverImpl_buildRouteDb (MV := metricVectors) solver "A" linkState
    prefixState 3 ∅.

Definition builtDb : DecisionRouteDb :=
  match built with
  | Some (Some db, _) => db
  | _ => emptyRouteDb
  end.

Definition builtCounters : Counters :=
  match built with
  | Some (_, cnt) => cnt
  | None => ∅
  end.
End RouteBuilderScenario.

(** Decision on node [A] over the scenario above, its one area being
    area 0 and its solver the solver embedded here; nothing has been
    published and the cold start is over. *)
Module SolverScenario.
Definition collaborators : Collaborators LabelledLink := {|
  solverBuildRouteDb s nodeName linkState prefixState :=
    built ← SpfSolverImpl_buildRouteDb
              (MV := RouteBuilderScenario.metricVectors) s nodeName
              linkState prefixState 3 ∅;
    built.1;
  RibPolicyThrift := unit;
  makeRibPolicy _ := inl (mkOpenrError "Missing policy statement");
  PrefixChange := bool;
  newLinkState _ := RouteBuilderScenario.linkState;
  updateAdjacencyDatabase ls _ _ _ :=
    (ls, mkLinkStateChange false false false);
  deleteAdjacencyDatabase ls _ := (ls, mkLinkStateChange false false false);
  getHopsFromAToB _ _ _ := None;
  getMaxHopsToNode _ _ := 0;
  hasHolds _ := false;
  updatePrefixDatabase ps _ := (ps, false);
  needsRouteUpdate _ := true;
  pendingPerfEvents _ := None;
  Backoff := unit;
  reportSuccess b := b;
  getNodeNameFromKey key := key;
  prefixKeyFromStr _ := None;
  readAdjacencyDatabase _ := None;
  readPrefixDatabase _ := None;
  stoll _ := None
|}.

Definition decision : Decision (H0 := collaborators) :=
  mkDecision (H0 := collaborators) "A" true false
    RouteBuilderScenario.solver
    (<["0" := RouteBuilderScenario.linkState]> ∅)
    RouteBuilderScenario.prefixState ∅ ∅ ∅ emptyRouteDb None None false
    None None () [] [] ∅.
End SolverScenario.

(** * Properties *)

(** ** Loops that may throw *)

Lemma foldlM_cons_Some {A B : Type} (f : A → B → option A) (a a' : A)
    (x : B) (l : list B) :
  f a x = Some a' → foldlM f a (x :: l) = foldlM f a' l.
Proof. intros Hf. simpl. by rewrite Hf. Qed.

Lemma foldlM_is_Some {A B : Type} (f : A → B → option A) (a : A)
    (l : list B) :
  (∀ a' x, x ∈ l → is_Some (f a' x)) → is_Some (foldlM f a l).
Proof.
  revert a. induction l as [|x l IH]; intros a Hf; simpl; [by eexists|].
  destruct (Hf a x) as [a' Ha']; [by left|]. rewrite Ha'. simpl.
  apply IH. intros a'' y Hy. apply Hf. by right.
Qed.

(** ** Route deltas *)

Section DeltaLemmas.
Context `{Countable K} {E R : Type} `{EqDecision E}.
Implicit Types (m newEntries oldEntries : gmap K E).

Lemma elem_of_entriesToUpdate (toT : E → R) newEntries oldEntries r :
  r ∈ entriesToUpdate toT newEntries oldEntries ↔
  ∃ k e, newEntries !! k = Some e ∧ oldEntries !! k ≠ Some e ∧ r = toT e.
Proof.
  unfold entriesToUpdate. rewrite list_elem_of_omap. split.
  - intros [[k e] [Hin Hf]]. apply elem_of_map_to_list in Hin.
    exists k, e. simpl in Hf.
    destruct (oldEntries !! k) as [oe|] eqn:Hold.
    + destruct (decide (oe = e)) as [->|Hne]; [done|].
      split_and!; [done| congruence | congruence].
    + split_and!; [done | done | congruence].
  - intros (k & e & Hnew & Hold & ->). exists (k, e). split.
    + by apply elem_of_map_to_list.
    + simpl. destruct (oldEntries !! k) as [oe|]; [|done].
      destruct (decide (oe = e)) as [->|]; [done | done].
Qed.

Lemma elem_of_keysToDelete newEntries oldEntries k :
  k ∈ keysToDelete newEntries oldEntries ↔
  is_Some (oldEntries !! k) ∧ newEntries !! k = None.
Proof.
  unfold keysToDelete. rewrite list_elem_of_omap. split.
  - intros [[k' e] [Hin Hf]]. apply elem_of_map_to_list in Hin.
    simpl in Hf. destruct (newEntries !! k') eqn:Hnew; [done|].
    injection Hf as <-. eauto.
  - intros [[e He] Hnew]. exists (k, e). split.
    + by apply elem_of_map_to_list.
    + simpl. by rewrite Hnew.
Qed.

Lemma lookup_applyDeletes (ks : list K) m k :
  applyDeletes ks m !! k = if decide (k ∈ ks) then None else m !! k.
Proof.
  unfold applyDeletes. revert m.
  induction ks as [|k' ks IH]; intros m; cbn [foldl].
  - by rewrite decide_False by apply not_elem_of_nil.
  - rewrite IH. destruct (decide (k ∈ ks)) as [Hin|Hnin].
    + by rewrite decide_True by (by right).
    + destruct (decide (k = k')) as [->|Hne].
      * rewrite decide_True by (by left). apply lookup_delete_eq.
      * rewrite decide_False by (rewrite elem_of_cons; tauto).
        by apply lookup_delete_ne.
Qed.

Lemma lookup_applyUpdates_other (key : R → K) (fromT : R → E)
    (us : list R) m k :
  (∀ r, r ∈ us → key r ≠ k) →
  applyUpdates key fromT us m !! k = m !! k.
Proof.
  unfold applyUpdates. revert m.
  induction us as [|u us IH]; intros m Hk; simpl; [done|].
  rewrite IH by (intros r Hr; apply Hk; by right).
  apply lookup_insert_ne, Hk. by left.
Qed.

Lemma lookup_applyUpdates_elem (key : R → K) (fromT : R → E)
    (us : list R) m k r :
  r ∈ us → key r = k →
  (∀ r', r' ∈ us → key r' = k → fromT r' = fromT r) →
  applyUpdates key fromT us m !! k = Some (fromT r).
Proof.
  unfold applyUpdates. revert m.
  induction us as [|u us IH] using rev_ind; intros m Hin Hkey Huniq.
  - by apply elem_of_nil in Hin.
  - rewrite foldl_snoc. destruct (decide (key u = k)) as [Hu|Hu].
    + rewrite <- Hu, lookup_insert_eq. f_equal.
      apply Huniq; [|done].
      apply elem_of_app; right; by apply list_elem_of_singleton.
    + rewrite lookup_insert_ne by done.
      apply IH; [|done|].
      * apply elem_of_app in Hin as [Hin|Hin]; [done|].
        apply list_elem_of_singleton in Hin. congruence.
      * intros r' Hr'. apply Huniq, elem_of_app. by left.
Qed.

(** Applying the updates and deletes computed from [newEntries] and
    [oldEntries] to [oldEntries] gives [newEntries], provided the thrift
    form of an entry keeps its key and its content. *)
Lemma apply_entries_round_trip (toT : E → R) (fromT : R → E)
    (key : R → K) newEntries oldEntries :
  (∀ e, fromT (toT e) = e) →
  (∀ k e, newEntries !! k = Some e → key (toT e) = k) →
  applyDeletes (keysToDelete newEntries oldEntries)
    (applyUpdates key fromT (entriesToUpdate toT newEntries oldEntries)
       oldEntries)
  = newEntries.
Proof.
  intros Hinv Hkey. apply map_eq. intros k.
  rewrite lookup_applyDeletes.
  destruct (newEntries !! k) as [e|] eqn:Hnew.
  - rewrite decide_False
      by (rewrite elem_of_keysToDelete; intros [_ ?]; congruence).
    destruct (decide (oldEntries !! k = Some e)) as [Hold|Hold].
    + rewrite lookup_applyUpdates_other; [done|].
      intros r Hr Hk. apply elem_of_entriesToUpdate in Hr
        as (k' & e' & Hnew' & Hold' & ->).
      rewrite (Hkey _ _ Hnew') in Hk. subst k'. congruence.
    + rewrite (lookup_applyUpdates_elem key fromT _ _ k (toT e)).
      * by rewrite Hinv.
      * apply elem_of_entriesToUpdate. eauto.
      * eauto.
      * intros r' Hr' Hk'. apply elem_of_entriesToUpdate in Hr'
          as (k' & e' & Hnew' & _ & ->).
        rewrite (Hkey _ _ Hnew') in Hk'. subst k'. congruence.
  - destruct (decide (k ∈ keysToDelete newEntries oldEntries))
      as [Hin|Hnin]; [done|].
    rewrite lookup_applyUpdates_other.
    + destruct (oldEntries !! k) eqn:Hold; [|done].
      exfalso. apply Hnin, elem_of_keysToDelete. eauto.
    + intros r Hr Hk. apply elem_of_entriesToUpdate in Hr
        as (k' & e' & Hnew' & _ & ->).
      rewrite (Hkey _ _ Hnew') in Hk. subst k'. congruence.
Qed.
End DeltaLemmas.

Lemma fromTUnicastRoute_toTUnicastRoute e :
  fromTUnicastRoute (toTUnicastRoute e) = e.
Proof.
  destruct e. unfold fromTUnicastRoute, toTUnicastRoute. simpl.
  by rewrite list_to_set_elements_L.
Qed.

Lemma fromTMplsRoute_toTMplsRoute e : fromTMplsRoute (toTMplsRoute e) = e.
Proof.
  destruct e. unfold fromTMplsRoute, toTMplsRoute. simpl.
  by rewrite list_to_set_elements_L.
Qed.

(** Entries are equal exactly when their fields are, the next hops being
    compared as sets. *)
Lemma RibUnicastEntry_eq_iff (e1 e2 : RibUnicastEntry) :
  e1 = e2 ↔
  prefix e1 = prefix e2 ∧ nexthops e1 ≡ nexthops e2 ∧
  bestPrefixEntry e1 = bestPrefixEntry e2 ∧
  doNotInstall e1 = doNotInstall e2 ∧ bestNexthop e1 = bestNexthop e2.
Proof.
  split; [by intros ->|].
  destruct e1, e2; simpl. intros (-> & Hn & -> & -> & ->).
  apply leibniz_equiv in Hn. by subst.
Qed.

Lemma RibMplsEntry_eq_iff (e1 e2 : RibMplsEntry) :
  e1 = e2 ↔ label e1 = label e2 ∧ mpls_nexthops e1 ≡ mpls_nexthops e2.
Proof.
  split; [by intros ->|].
  destruct e1, e2; simpl. intros (-> & Hn).
  apply leibniz_equiv in Hn. by subst.
Qed.

(** C1. For route databases [newDb] and [oldDb], [newDb] holding every
    entry under the entry's own prefix or label: applying
    [getRouteDelta newDb oldDb] to [oldDb] gives back [newDb]; a route is
    in an update list exactly when it is the thrift form of an entry of
    [newDb] that [oldDb] lacks or holds with a different content; a
    prefix or label is in a delete list exactly when [oldDb] has it and
    [newDb] does not. *)
Theorem getRouteDelta_round_trip (newDb oldDb : DecisionRouteDb) :
  keyedByOwnKey newDb →
  applyRouteDelta (getRouteDelta newDb oldDb) oldDb = newDb ∧
  (∀ r, r ∈ unicastRoutesToUpdate (getRouteDelta newDb oldDb) ↔
        ∃ p e, unicastEntries newDb !! p = Some e ∧
               unicastEntries oldDb !! p ≠ Some e ∧
               r = toTUnicastRoute e) ∧
  (∀ p, p ∈ unicastRoutesToDelete (getRouteDelta newDb oldDb) ↔
        is_Some (unicastEntries oldDb !! p) ∧
        unicastEntries newDb !! p = None) ∧
  (∀ r, r ∈ mplsRoutesToUpdate (getRouteDelta newDb oldDb) ↔
        ∃ l e, mplsEntries newDb !! l = Some e ∧
               mplsEntries oldDb !! l ≠ Some e ∧
               r = toTMplsRoute e) ∧
  (∀ l, l ∈ mplsRoutesToDelete (getRouteDelta newDb oldDb) ↔
        is_Some (mplsEntries oldDb !! l) ∧ mplsEntries newDb !! l = None).
Proof.
  intros [Hu Hm]. split_and!.
  - destruct newDb as [nu nm], oldDb as [ou om].
    unfold applyRouteDelta, getRouteDelta. simpl in *. f_equal.
    + apply apply_entries_round_trip.
      * apply fromTUnicastRoute_toTUnicastRoute.
      * intros k e He. simpl. by apply Hu.
    + apply apply_entries_round_trip.
      * apply fromTMplsRoute_toTMplsRoute.
      * intros k e He. simpl. by apply Hm.
  - intros r. apply elem_of_entriesToUpdate.
  - intros p. apply elem_of_keysToDelete.
  - intros r. apply elem_of_entriesToUpdate.
  - intros l. apply elem_of_keysToDelete.
Qed.

Lemma keyedByOwnKey_scenario : keyedByOwnKey DeltaScenario.newDb.
Proof.
  split; intros k e; unfold DeltaScenario.newDb; simpl.
  - rewrite !lookup_insert_Some, lookup_empty.
    intros [[<- <-]|[_ [[<- <-]|[_ [[<- <-]|[_ ?]]]]]]; done.
  - rewrite !lookup_insert_Some, lookup_empty.
    intros [[<- <-]|[_ ?]]; done.
Defined.

Lemma getRouteDelta_round_trip_witness :
  keyedByOwnKey DeltaScenario.newDb ∧
  applyRouteDelta (getRouteDelta DeltaScenario.newDb DeltaScenario.oldDb)
    DeltaScenario.oldDb = DeltaScenario.newDb.
Proof.
  split; [exact keyedByOwnKey_scenario|].
  exact (proj1 (getRouteDelta_round_trip DeltaScenario.newDb
                  DeltaScenario.oldDb keyedByOwnKey_scenario)).
Defined.

(** The delta carries the thrift form of an entry, which names the
    entry's own prefix: for a database that files the entry of 20/24
    under 10/24, the delta from the empty database updates 20/24, and
    applying it gives a database with the entry under 20/24, not the
    database the delta was computed for. *)
Lemma getRouteDelta_misfiled_entry_moves :
  unicastRoutesToUpdate
    (getRouteDelta DeltaScenario.misfiledDb emptyRouteDb)
  = [toTUnicastRoute
       (DeltaScenario.unicast DeltaScenario.prefix20
          {[DeltaScenario.viaB]})] ∧
  unicastEntries
    (applyRouteDelta (getRouteDelta DeltaScenario.misfiledDb emptyRouteDb)
       emptyRouteDb) !! DeltaScenario.prefix10 = None ∧
  unicastEntries DeltaScenario.misfiledDb !! DeltaScenario.prefix10
  = Some (DeltaScenario.unicast DeltaScenario.prefix20
            {[DeltaScenario.viaB]}) ∧
  applyRouteDelta (getRouteDelta DeltaScenario.misfiledDb emptyRouteDb)
    emptyRouteDb ≠ DeltaScenario.misfiledDb ∧
  ¬ (∀ newDb oldDb,
       applyRouteDelta (getRouteDelta newDb oldDb) oldDb = newDb).
Proof.
  assert (Hgone : unicastEntries
            (applyRouteDelta
               (getRouteDelta DeltaScenario.misfiledDb emptyRouteDb)
               emptyRouteDb) !! DeltaScenario.prefix10 = None)
    by compute_done.
  assert (Hthere : unicastEntries DeltaScenario.misfiledDb
                     !! DeltaScenario.prefix10
                   = Some (DeltaScenario.unicast DeltaScenario.prefix20
                             {[DeltaScenario.viaB]}))
    by compute_done.
  assert (Hne : applyRouteDelta
                  (getRouteDelta DeltaScenario.misfiledDb emptyRouteDb)
                  emptyRouteDb ≠ DeltaScenario.misfiledDb).
  { intros Heq. rewrite Heq, Hthere in Hgone. discriminate Hgone. }
  split_and!; [compute_done|done|done|done|].
  intros Hall. apply Hne, Hall.
Qed.

(** ** The order on node names *)

Lemma string_ltb_irrefl (x : string) : String.ltb x x = false.
Proof.
  unfold String.ltb.
  change (String.compare x x) with (OrderedTypeEx.String_as_OT.cmp x x).
  by rewrite (proj2 (OrderedTypeEx.String_as_OT.cmp_eq x x) eq_refl).
Qed.

Lemma string_ltb_lt (a b : string) :
  String.ltb a b = true ↔ OrderedTypeEx.String_as_OT.lt a b.
Proof.
  rewrite <- OrderedTypeEx.String_as_OT.cmp_lt.
  unfold String.ltb, OrderedTypeEx.String_as_OT.cmp.
  by destruct (String.compare a b).
Qed.

Lemma string_ltb_trans (a b c : string) :
  String.ltb a b = true → String.ltb b c = true → String.ltb a c = true.
Proof.
  rewrite !string_ltb_lt. apply OrderedTypeEx.String_as_OT.lt_trans.
Qed.

Lemma string_ltb_asym (a b : string) :
  String.ltb a b = true → String.ltb b a = false.
Proof.
  intros Hab. destruct (String.ltb b a) eqn:Hba; [|done].
  pose proof (string_ltb_trans _ _ _ Hab Hba) as Haa.
  by rewrite string_ltb_irrefl in Haa.
Qed.

Lemma string_ltb_total (a b : string) :
  String.ltb a b = false → a = b ∨ String.ltb b a = true.
Proof.
  unfold String.ltb. rewrite (String.compare_antisym b a).
  destruct (String.compare a b) eqn:Hc; simpl; try done.
  - left. by apply String.compare_eq_iff.
  - by right.
Qed.

(** [x] is not above [n] and [n] is not above [d]: then [x] is not above
    [d]. *)
Lemma string_not_ltb_trans (d n x : string) :
  String.ltb n x = false → String.ltb d n = false → String.ltb d x = false.
Proof.
  intros Hnx Hdn. destruct (String.ltb d x) eqn:Hdx; [|done].
  destruct (string_ltb_total _ _ Hnx) as [->|Hxn].
  - by rewrite Hdx in Hdn.
  - by rewrite (string_ltb_trans _ _ _ Hdx Hxn) in Hdn.
Qed.

(** ** Node labels *)

Section NodeLabelLemmas.
Context {Link : Type} `{LinkOps Link}.

(** A node whose valid label is already held by a node with a smaller
    name is skipped, and the duplicate is counted. *)
Lemma nodeLabelStep_keeps_smaller (s : SpfSolverImpl) (me : string)
    (ls : LinkState Link) (st : NodeLabelState) (adjDb : AdjacencyDatabase)
    (owner : string) (e : RibMplsEntry) :
  nodeLabel adjDb ≠ 0 →
  isMplsLabelValid (nodeLabel adjDb) = true →
  labelToNode st !! nodeLabel adjDb = Some (owner, e) →
  String.ltb owner (adj_thisNodeName adjDb) = true →
  nodeLabelStep s me ls st adjDb =
    Some (mkNodeLabelState (labelToNode st)
            (addStatValue "decision.duplicate_node_label" 1 (counters st))).
Proof.
  intros Hnz Hvalid Hfound Hlt. unfold nodeLabelStep.
  rewrite (proj2 (Z.eqb_neq _ _) Hnz), Hvalid, Hfound. simpl.
  by rewrite Hlt.
Qed.

(** The local node takes over a valid label held by a node with a
    larger name. *)
Lemma nodeLabelStep_smaller_local_replaces (s : SpfSolverImpl)
    (me : string) (ls : LinkState Link) (st : NodeLabelState)
    (adjDb : AdjacencyDatabase) (owner : string) (e : RibMplsEntry) :
  nodeLabel adjDb ≠ 0 →
  isMplsLabelValid (nodeLabel adjDb) = true →
  labelToNode st !! nodeLabel adjDb = Some (owner, e) →
  String.ltb owner (adj_thisNodeName adjDb) = false →
  adj_thisNodeName adjDb = me →
  ∃ st', nodeLabelStep s me ls st adjDb = Some st' ∧
         fst <$> labelToNode st' !! nodeLabel adjDb = Some me.
Proof.
  intros Hnz Hvalid Hfound Hlt Hme. unfold nodeLabelStep.
  rewrite (proj2 (Z.eqb_neq _ _) Hnz), Hvalid, Hfound. simpl.
  rewrite Hlt, Hme, String.eqb_refl. eexists. split; [done|].
  simpl. by rewrite lookup_insert_eq.
Qed.

(** The loop files every entry under the entry's own label. *)
Lemma nodeLabelStep_keeps_own_labels (s : SpfSolverImpl) (me : string)
    (ls : LinkState Link) (st st' : NodeLabelState)
    (adjDb : AdjacencyDatabase) :
  (∀ l n e, labelToNode st !! l = Some (n, e) → label e = l) →
  nodeLabelStep s me ls st adjDb = Some st' →
  ∀ l n e, labelToNode st' !! l = Some (n, e) → label e = l.
Proof.
  intros Hkeys Hstep. unfold nodeLabelStep in Hstep.
  assert (Hins : ∀ n0 nhs l n e,
    <[nodeLabel adjDb := (n0, mkRibMplsEntry (nodeLabel adjDb) nhs)]>
      (delete (nodeLabel adjDb) (labelToNode st)) !! l = Some (n, e) →
    label e = l).
  { intros n0 nhs l n e.
    destruct (decide (l = nodeLabel adjDb)) as [->|Hne].
    - rewrite lookup_insert_eq. by intros [= <- <-].
    - rewrite lookup_insert_ne, lookup_delete_ne by done. apply Hkeys. }
  destruct (nodeLabel adjDb =? 0); [by injection Hstep as <-|].
  destruct (negb (isMplsLabelValid _)); [by injection Hstep as <-|].
  destruct (match labelToNode st !! nodeLabel adjDb with
            | Some iter => String.ltb iter.1 (adj_thisNodeName adjDb)
            | None => false
            end); [by injection Hstep as <-|].
  destruct (String.eqb _ me).
  - injection Hstep as <-. simpl. apply Hins.
  - destruct (getNextHopsWithMetric _ _ _ _ _) as [metricNhs|];
      simpl in Hstep; [|done].
    destruct (decide (metricNhs.2 = ∅)); [by injection Hstep as <-|].
    destruct (getNextHopsThrift _ _ _ _ _ _ _ _ _) as [nhs|];
      simpl in Hstep; [|done].
    injection Hstep as <-. simpl. apply Hins.
Qed.

(** The step keeps the invariant: the holder of a label is the smallest
    name among the nodes whose label the loop installs. *)
Lemma nodeLabelStep_smallestHolder (s : SpfSolverImpl) (me : string)
    (ls : LinkState Link) (seen : list AdjacencyDatabase)
    (st st' : NodeLabelState) (adjDb : AdjacencyDatabase) :
  smallestHolder s me ls seen (labelToNode st) →
  nodeLabelStep s me ls st adjDb = Some st' →
  smallestHolder s me ls (seen ++ [adjDb]) (labelToNode st').
Proof.
  intros Hinv Hstep.
  (* the state is left as it is, and [adjDb] is not installed or is
     above the holder of its label *)
  assert (Hsame :
    (installsNodeLabel s me ls adjDb →
     ∃ holder, labelToNode st !! nodeLabel adjDb = Some holder ∧
               String.ltb holder.1 (adj_thisNodeName adjDb) = true) →
    smallestHolder s me ls (seen ++ [adjDb]) (labelToNode st)).
  { intros Hskip l. specialize (Hinv l).
    destruct (labelToNode st !! l) as [holder|] eqn:Hl.
    - destruct Hinv as [(db & Hdb & Hlab & Hname) Hleast]. split.
      + exists db. by rewrite elem_of_app; auto.
      + intros db' [Hin| ->%list_elem_of_singleton]%elem_of_app Hl' Hinst.
        * by apply Hleast.
        * destruct (Hskip Hinst) as (holder' & Hh & Hlt).
          rewrite Hl', Hl in Hh. injection Hh as <-.
          by apply string_ltb_asym.
    - intros db' [Hin| ->%list_elem_of_singleton]%elem_of_app Hl' Hinst.
      + by apply (Hinv db').
      + destruct (Hskip Hinst) as (holder' & Hh & _). congruence. }
  (* [adjDb] becomes the holder of its label *)
  assert (Hnew : ∀ e,
    match labelToNode st !! nodeLabel adjDb with
    | Some iter => String.ltb iter.1 (adj_thisNodeName adjDb)
    | None => false
    end = false →
    smallestHolder s me ls (seen ++ [adjDb])
      (<[nodeLabel adjDb := (adj_thisNodeName adjDb, e)]>
         (delete (nodeLabel adjDb) (labelToNode st)))).
  { intros e Hnlt l. destruct (decide (l = nodeLabel adjDb)) as [->|Hne].
    - rewrite lookup_insert_eq. simpl. split.
      + exists adjDb. by rewrite elem_of_app, list_elem_of_singleton; auto.
      + intros db' [Hin| ->%list_elem_of_singleton]%elem_of_app Hl' Hinst.
        * specialize (Hinv (nodeLabel adjDb)).
          destruct (labelToNode st !! nodeLabel adjDb) as [holder|].
          -- destruct Hinv as [_ Hleast].
             eapply string_not_ltb_trans; [exact Hnlt|by apply Hleast].
          -- by destruct (Hinv db').
        * apply string_ltb_irrefl.
    - rewrite lookup_insert_ne, lookup_delete_ne by done.
      specialize (Hinv l).
      destruct (labelToNode st !! l) as [holder|].
      + destruct Hinv as [(db & Hdb & Hlab & Hname) Hleast]. split.
        * exists db. by rewrite elem_of_app; auto.
        * intros db' [Hin| ->%list_elem_of_singleton]%elem_of_app Hl' Hinst;
            [by apply Hleast|done].
      + intros db' [Hin| ->%list_elem_of_singleton]%elem_of_app Hl' Hinst;
          [by apply (Hinv db')|done]. }
  unfold nodeLabelStep in Hstep.
  destruct (nodeLabel adjDb =? 0) eqn:Hz.
  { injection Hstep as <-. apply Hsame. intros (Hnz & _).
    by apply Z.eqb_eq in Hz. }
  destruct (isMplsLabelValid (nodeLabel adjDb)) eqn:Hvalid; simpl in Hstep.
  2: { injection Hstep as <-. simpl. apply Hsame. intros (_ & Hv & _).
       congruence. }
  destruct (match labelToNode st !! nodeLabel adjDb with
            | Some iter => String.ltb iter.1 (adj_thisNodeName adjDb)
            | None => false
            end) eqn:Hlt.
  { injection Hstep as <-. simpl. apply Hsame. intros _.
    destruct (labelToNode st !! nodeLabel adjDb) as [holder|]; [|done].
    by exists holder. }
  destruct (String.eqb (adj_thisNodeName adjDb) me) eqn:Hme.
  { injection Hstep as <-. simpl. by apply Hnew. }
  destruct (getNextHopsWithMetric _ _ _ _ _) as [metricNhs|] eqn:Hnhs;
    simpl in Hstep; [|done].
  destruct (decide (metricNhs.2 = ∅)) as [Hempty|Hroute].
  { injection Hstep as <-. simpl. apply Hsame.
    intros (_ & _ & [Hlocal|(m & Hm & Hne)]).
    - by apply String.eqb_neq in Hme.
    - rewrite Hnhs in Hm. by injection Hm as <-. }
  destruct (getNextHopsThrift _ _ _ _ _ _ _ _ _) as [nhs|];
    simpl in Hstep; [|done].
  injection Hstep as <-. simpl. by apply Hnew.
Qed.

Lemma nodeLabelSteps_smallestHolder (s : SpfSolverImpl) (me : string)
    (ls : LinkState Link) (order seen : list AdjacencyDatabase)
    (st st' : NodeLabelState) :
  smallestHolder s me ls seen (labelToNode st) →
  foldlM (nodeLabelStep s me ls) st order = Some st' →
  smallestHolder s me ls (seen ++ order) (labelToNode st').
Proof.
  revert seen st. induction order as [|adjDb order IH]; intros seen st Hinv.
  - intros [= <-]. by rewrite app_nil_r.
  - simpl. destruct (nodeLabelStep s me ls st adjDb) as [st1|] eqn:Hstep;
      simpl; [|done].
    intros Hrest. rewrite (cons_middle adjDb seen order), app_assoc.
    eapply IH; [|exact Hrest].
    by eapply nodeLabelStep_smallestHolder.
Qed.

(** Whatever the order of the adjacency databases, a label the loop
    leaves in its table is held by a node that advertises it, and no
    node whose label the loop installs has a smaller name: of the nodes
    that collide on a label, the smallest name keeps it. *)
Lemma nodeLabelLoop_smallest_name_holds (s : SpfSolverImpl) (me : string)
    (ls : LinkState Link) (order : list AdjacencyDatabase) (cnt : Counters)
    (st : NodeLabelState) (l : Z) (holder : string * RibMplsEntry) :
  nodeLabelLoop s me ls order cnt = Some st →
  labelToNode st !! l = Some holder →
  (∃ adjDb, adjDb ∈ order ∧ nodeLabel adjDb = l ∧
            adj_thisNodeName adjDb = holder.1) ∧
  (∀ adjDb, adjDb ∈ order → nodeLabel adjDb = l →
            installsNodeLabel s me ls adjDb →
            String.ltb (adj_thisNodeName adjDb) holder.1 = false).
Proof.
  intros Hloop Hl.
  assert (Hinv : smallestHolder s me ls ([] ++ order) (labelToNode st)).
  { eapply nodeLabelSteps_smallestHolder; [|exact Hloop].
    intros l'. simpl. rewrite lookup_empty. by intros db ?%elem_of_nil. }
  specialize (Hinv l). by rewrite Hl in Hinv.
Qed.
End NodeLabelLemmas.

Lemma duplicate_label_all_orders :
  DuplicateLabelScenario.outcome <$>
    permutations [DuplicateLabelScenario.dbA; DuplicateLabelScenario.dbB;
                  DuplicateLabelScenario.dbC]
  = replicate 6 (Some (Some "B", 1)).
Proof. vm_compute. reflexivity. Qed.

(** C2. With [B] and [C] both advertising node label 5000, whatever the
    order in which the adjacency databases are visited the loop ends with
    the label held by [B], the smaller of the two names, and has counted
    one duplicate. *)
Theorem duplicate_node_label_keeps_smaller (order : list AdjacencyDatabase) :
  order ≡ₚ [DuplicateLabelScenario.dbA; DuplicateLabelScenario.dbB;
            DuplicateLabelScenario.dbC] →
  DuplicateLabelScenario.outcome order = Some (Some "B", 1).
Proof.
  intros Hp. symmetry in Hp. apply permutations_Permutation in Hp.
  apply (list_elem_of_fmap_2 DuplicateLabelScenario.outcome) in Hp.
  rewrite duplicate_label_all_orders in Hp.
  by apply elem_of_replicate in Hp as [? _].
Qed.

Lemma duplicate_node_label_keeps_smaller_witness :
  [DuplicateLabelScenario.dbC; DuplicateLabelScenario.dbB;
   DuplicateLabelScenario.dbA]
  ≡ₚ [DuplicateLabelScenario.dbA; DuplicateLabelScenario.dbB;
      DuplicateLabelScenario.dbC] ∧
  DuplicateLabelScenario.outcome
    [DuplicateLabelScenario.dbC; DuplicateLabelScenario.dbB;
     DuplicateLabelScenario.dbA] = Some (Some "B", 1).
Proof.
  assert (Hp : [DuplicateLabelScenario.dbC; DuplicateLabelScenario.dbB;
                DuplicateLabelScenario.dbA]
               ≡ₚ [DuplicateLabelScenario.dbA; DuplicateLabelScenario.dbB;
                   DuplicateLabelScenario.dbC]).
  { etransitivity; [apply Permutation_swap|].
    etransitivity; [apply Permutation_skip, Permutation_swap|].
    apply Permutation_swap. }
  split; [exact Hp|].
  exact (duplicate_node_label_keeps_smaller _ Hp).
Defined.

(** ** KSP2 path selection *)

Section Ksp2Paths.
Context {Link : Type} `{LinkOps Link}.
Implicit Types (a b p : list Link) (ps : list (list Link)).

Lemma pathStartsWith_spec a b :
  pathStartsWith a b = true ↔ ∃ l2, b = a ++ l2.
Proof.
  revert b. induction a as [|x a IH]; intros [|y b]; simpl.
  - split; [by exists []|done].
  - split; [by eexists|done].
  - split; [done|]. by intros [l2 ?].
  - rewrite andb_true_iff, bool_decide_eq_true, IH. split.
    + intros [-> [l2 ->]]. by exists l2.
    + intros [l2 Heq]. injection Heq as -> ->. eauto.
Qed.

(** [pathAInPathB a b] holds exactly when [a] is a contiguous run of
    links of [b]. *)
Lemma pathAInPathB_spec a b :
  pathAInPathB a b = true ↔ ∃ l1 l2, b = l1 ++ a ++ l2.
Proof.
  induction b as [|y b IH]; simpl.
  - rewrite orb_false_r, pathStartsWith_spec. split.
    + intros [l2 ->]. by exists [], l2.
    + intros (l1 & l2 & Heq). symmetry in Heq.
      apply app_eq_nil in Heq as [-> Heq]. eauto.
  - rewrite orb_true_iff, pathStartsWith_spec, IH. split.
    + intros [[l2 ->]|(l1 & l2 & ->)].
      * by exists [], l2.
      * by exists (y :: l1), l2.
    + intros ([|z l1] & l2 & Heq); simpl in Heq.
      * left. eauto.
      * right. injection Heq as -> ->. eauto.
Qed.

Lemma foldl_snoc_all {A : Type} (init l : list A) :
  foldl (λ acc x, acc ++ [x]) init l = init ++ l.
Proof.
  revert init. induction l as [|x l IH]; intros init; simpl.
  - by rewrite app_nil_r.
  - by rewrite IH, <- app_assoc.
Qed.

Lemma foldl_nested_flat_map {A B C : Type} (g : A → C → A)
    (f : B → list C) (init : A) (l : list B) :
  foldl (λ acc x, foldl g acc (f x)) init l = foldl g init (flat_map f l).
Proof.
  revert init. induction l as [|x l IH]; intros init; simpl; [done|].
  by rewrite IH, foldl_app.
Qed.

(** The first loop gathers the shortest paths to every destination but
    this node itself. *)
Lemma ksp2FirstPaths_flat_map (me : string) (dstNodes : list string)
    (ls : LinkState Link) :
  ksp2FirstPaths me dstNodes ls =
  flat_map (λ node, if String.eqb node me then []
                    else getKthPaths ls me node 1) dstNodes.
Proof.
  unfold ksp2FirstPaths.
  enough (Hgen : ∀ init,
    foldl (λ paths node,
             if String.eqb node me then paths
             else foldl (λ ps path, ps ++ [path]) paths
                        (getKthPaths ls me node 1)) init dstNodes
    = init ++ flat_map (λ node, if String.eqb node me then []
                                else getKthPaths ls me node 1) dstNodes)
    by apply (Hgen []).
  induction dstNodes as [|n l IH]; intros init; simpl.
  - by rewrite app_nil_r.
  - rewrite IH. destruct (String.eqb n me); simpl; [done|].
    by rewrite foldl_snoc_all, <- app_assoc.
Qed.

Lemma foldl_ksp2AddSecPath (firsts acc secPaths : list (list Link)) :
  foldl (ksp2AddSecPath (length firsts)) (firsts ++ acc) secPaths =
  firsts ++ acc ++ List.filter (keepsSecPath firsts) secPaths.
Proof.
  revert acc. induction secPaths as [|sp sps IH]; intros acc; simpl.
  - by rewrite app_nil_r.
  - unfold ksp2AddSecPath at 2. rewrite take_app_length.
    fold (keepsSecPath firsts sp).
    destruct (keepsSecPath firsts sp).
    + rewrite <- app_assoc, IH. by rewrite <- !app_assoc.
    + apply IH.
Qed.

Lemma ksp2Paths_split (me : string) (dstNodes : list string)
    (ls : LinkState Link) :
  ksp2Paths me dstNodes ls =
  ksp2FirstPaths me dstNodes ls ++
  List.filter (keepsSecPath (ksp2FirstPaths me dstNodes ls))
    (flat_map (λ node, getKthPaths ls me node 2) dstNodes).
Proof.
  unfold ksp2Paths.
  rewrite (foldl_nested_flat_map
             (ksp2AddSecPath (length (ksp2FirstPaths me dstNodes ls)))
             (λ node, getKthPaths ls me node 2)).
  rewrite <- (app_nil_r (ksp2FirstPaths me dstNodes ls)) at 2.
  by rewrite foldl_ksp2AddSecPath.
Qed.

Lemma keepsSecPath_spec ps secPath :
  keepsSecPath ps secPath = true ↔
  ∀ first, first ∈ ps → ¬ ∃ l1 l2, secPath = l1 ++ first ++ l2.
Proof.
  unfold keepsSecPath. rewrite negb_true_iff. split.
  - intros Hex first Hin Hsub. apply pathAInPathB_spec in Hsub.
    assert (existsb (λ f, pathAInPathB f secPath) ps = true) as Ht.
    { apply existsb_exists. exists first. split; [|done].
      by apply list_elem_of_In. }
    congruence.
  - intros Hall. destruct (existsb _ ps) eqn:Hex; [|done].
    apply existsb_exists in Hex as (first & Hin & Hsub).
    apply list_elem_of_In in Hin. apply pathAInPathB_spec in Hsub.
    by destruct (Hall first Hin).
Qed.

(** C3. The paths retained by [selectKsp2] are the first-shortest
    paths, which are the paths [getKthPaths ... 1] gives for the
    destinations of the prefix other than this node, followed by the
    second-shortest paths that were added; a second-shortest path (to
    any destination of the prefix) is among the added ones exactly when
    no retained first-shortest path, of whichever destination, is a
    contiguous run of its links. *)
Theorem ksp2_second_paths_filtered (me : string) (dstNodes : list string)
    (ls : LinkState Link) :
  ∃ firsts added,
    ksp2Paths me dstNodes ls = firsts ++ added ∧
    firsts = ksp2FirstPaths me dstNodes ls ∧
    (∀ first,
       first ∈ firsts ↔
       ∃ node, node ∈ dstNodes ∧ node ≠ me ∧
               first ∈ getKthPaths ls me node 1) ∧
    (∀ secPath,
       secPath ∈ added ↔
       (∃ node, node ∈ dstNodes ∧ secPath ∈ getKthPaths ls me node 2) ∧
       (∀ node first, node ∈ dstNodes → node ≠ me →
                      first ∈ getKthPaths ls me node 1 →
                      ¬ ∃ l1 l2, secPath = l1 ++ first ++ l2)).
Proof.
  assert (Hfirsts : ∀ first,
    first ∈ ksp2FirstPaths me dstNodes ls ↔
    ∃ node, node ∈ dstNodes ∧ node ≠ me ∧
            first ∈ getKthPaths ls me node 1).
  { intros first. rewrite ksp2FirstPaths_flat_map.
    rewrite list_elem_of_In, in_flat_map. split.
    - intros (node & Hn & Hp). exists node.
      destruct (String.eqb_spec node me) as [|Hne]; [done|].
      by rewrite !list_elem_of_In.
    - intros (node & Hn & Hne & Hp). exists node.
      rewrite <- list_elem_of_In. split; [done|].
      destruct (String.eqb_spec node me) as [|_]; [done|].
      by apply list_elem_of_In. }
  eexists _, _. split; [apply ksp2Paths_split|]. split; [done|].
  split; [exact Hfirsts|].
  intros secPath.
  rewrite list_elem_of_In, filter_In, keepsSecPath_spec, in_flat_map.
  split.
  - intros [(node & Hn & Hp) Hk]. split.
    + exists node. by rewrite !list_elem_of_In.
    + intros node' first Hin Hne Hfirst. apply Hk, Hfirsts.
      by exists node'.
  - intros [(node & Hn & Hp) Hk]. split.
    + exists node. by rewrite <- !list_elem_of_In.
    + intros first (node' & Hin & Hne & Hfirst)%Hfirsts.
      by apply (Hk node' first).
Qed.
End Ksp2Paths.

(** In the full mesh both second-shortest paths start with a retained
    first-shortest path, and neither is kept. *)
Example ksp2_full_mesh :
  ksp2Paths "A" ["B"; "C"] Ksp2Scenario.linkState =
  [[Ksp2Scenario.linkAB]; [Ksp2Scenario.linkAC]].
Proof. reflexivity. Qed.

(** ** Loop-free alternates *)

Section LeastOf.
Context `{Countable K}.
Implicit Types (m : gmap K Z) (C : K → Z → Prop).

Lemma leastOf_ext m C C' :
  (∀ k v, C k v ↔ C' k v) → leastOf m C → leastOf m C'.
Proof.
  intros Heq Hm k. specialize (Hm k). destruct (m !! k) as [v|].
  - destruct Hm as [Hc Hmin]. split; [by apply Heq|].
    intros w Hw. by apply Hmin, Heq.
  - intros w Hw. by apply (Hm w), Heq.
Qed.

Lemma leastOf_self m : leastOf m (λ k v, m !! k = Some v).
Proof.
  intros k. destruct (m !! k) as [v|] eqn:Hk; [|done].
  split; [done|]. intros w [= ->]. lia.
Qed.

(** Offering one more candidate [d] under the key [key] and keeping the
    smaller value, as the body of the LFA loop does. *)
Lemma leastOf_offer m C key d :
  leastOf m C →
  leastOf (match m !! key with
           | None => <[key := d]> m
           | Some v => if v >? d then <[key := d]> m else m
           end)
          (λ k v, C k v ∨ (k = key ∧ v = d)).
Proof.
  intros Hm k. pose proof (Hm key) as Hkey. pose proof (Hm k) as Hk.
  destruct (m !! key) as [v0|] eqn:Hlook.
  - destruct Hkey as [Hc0 Hmin0].
    destruct (Z.gtb_spec v0 d) as [Hgt|Hle].
    + destruct (decide (k = key)) as [->|Hne].
      * rewrite lookup_insert_eq. split; [by right|].
        intros w [Hw|[_ ->]]; [|lia]. specialize (Hmin0 w Hw). lia.
      * rewrite lookup_insert_ne by done.
        destruct (m !! k) as [v|].
        -- destruct Hk as [Hc Hmin]. split; [by left|].
           intros w [Hw|[? _]]; [by apply Hmin|done].
        -- intros w [Hw|[? _]]; [by apply (Hk w)|done].
    + destruct (m !! k) as [v|] eqn:Hlk.
      * destruct Hk as [Hc Hmin]. split; [by left|].
        intros w [Hw|[-> ->]]; [by apply Hmin|].
        rewrite Hlook in Hlk. injection Hlk as <-. lia.
      * intros w [Hw|[-> _]]; [by apply (Hk w)|congruence].
  - destruct (decide (k = key)) as [->|Hne].
    + rewrite lookup_insert_eq. split; [by right|].
      intros w [Hw|[_ ->]]; [by destruct (Hkey w)|lia].
    + rewrite lookup_insert_ne by done.
      destruct (m !! k) as [v|].
      * destruct Hk as [Hc Hmin]. split; [by left|].
        intros w [Hw|[? _]]; [by apply Hmin|done].
      * intros w [Hw|[? _]]; [by apply (Hk w)|done].
Qed.
End LeastOf.

Section LfaLemmas.
Context {Link : Type} `{LinkOps Link}.
Implicit Types (nhs : gmap (string * string) Z)
  (C : string * string → Z → Prop).

Lemma lfaStep_leastOf pd sm N spfN n2h nhs C D :
  leastOf nhs C →
  leastOf (lfaStep pd sm N spfN n2h nhs D)
    (λ k v, C k v ∨ neighbourOffer pd sm N spfN n2h [D] k v).
Proof.
  intros Hm. unfold lfaStep.
  destruct (spfN !! D) as [r|] eqn:HD.
  - destruct (Z.ltb_spec (metric r) (metric_add sm n2h)) as [Hlt|Hge].
    + eapply leastOf_ext; [|apply (leastOf_offer _ _ (N, dstNodeRef pd D)
                                    (metric r) Hm)].
      intros [k1 k2] v. simpl. unfold neighbourOffer. simpl. split.
      * intros [Hc|[[= -> ->] ->]]; [by left|]. right.
        split; [done|]. exists D, r.
        split_and!; [apply list_elem_of_singleton|..]; done.
      * intros [Hc|[-> (D' & r' & HD' & Hk2 & Hr' & Hv & _)]]; [by left|].
        apply list_elem_of_singleton in HD'. subst D'.
        right. split; [congruence|]. congruence.
    + eapply leastOf_ext; [|exact Hm].
      intros k v. split; [by left|].
      intros [Hc|[_ (D' & r' & HD' & _ & Hr' & Hv & Hlt)]]; [done|].
      apply list_elem_of_singleton in HD'. subst D'.
      rewrite HD in Hr'. injection Hr' as <-. lia.
  - eapply leastOf_ext; [|exact Hm].
    intros k v. split; [by left|].
    intros [Hc|[_ (D' & r' & HD' & _ & Hr' & _)]]; [done|].
    apply list_elem_of_singleton in HD'. subst D'. congruence.
Qed.

Lemma neighbourOffer_cons pd sm N spfN n2h D dsts k v :
  neighbourOffer pd sm N spfN n2h (D :: dsts) k v ↔
  neighbourOffer pd sm N spfN n2h [D] k v ∨
  neighbourOffer pd sm N spfN n2h dsts k v.
Proof.
  unfold neighbourOffer. split.
  - intros [Hk (D' & r & HD' & Hrest)].
    apply elem_of_cons in HD' as [->|HD'].
    + left. split; [done|]. exists D, r.
      split; [apply list_elem_of_singleton|]; done.
    + right. split; [done|]. by exists D', r.
  - intros [[Hk (D' & r & HD' & Hrest)]|[Hk (D' & r & HD' & Hrest)]];
      (split; [done|]); exists D', r; (split; [|done]).
    + apply list_elem_of_singleton in HD'. subst. by left.
    + by right.
Qed.

Lemma foldl_lfaStep_leastOf pd sm N spfN n2h dsts nhs C :
  leastOf nhs C →
  leastOf (foldl (lfaStep pd sm N spfN n2h) nhs dsts)
    (λ k v, C k v ∨ neighbourOffer pd sm N spfN n2h dsts k v).
Proof.
  revert nhs C. induction dsts as [|D dsts IH]; intros nhs C Hm; simpl.
  - eapply leastOf_ext; [|exact Hm]. intros k v. split; [by left|].
    intros [?|[_ (D & r & HD & _)]]; [done|]. by apply elem_of_nil in HD.
  - eapply leastOf_ext; [|apply IH, lfaStep_leastOf, Hm].
    intros k v. simpl.
    rewrite (neighbourOffer_cons _ _ _ _ _ D dsts). tauto.
Qed.

Lemma lfaOffer_nil me dsts pd ls sm k v : ¬ lfaOffer me dsts pd ls sm [] k v.
Proof. intros (link & ? & ? & ? & Hin & _). by apply elem_of_nil in Hin. Qed.

Lemma lfaOffer_cons me dsts pd ls sm link links k v :
  lfaOffer me dsts pd ls sm (link :: links) k v ↔
  lfaOffer me dsts pd ls sm [link] k v ∨ lfaOffer me dsts pd ls sm links k v.
Proof.
  unfold lfaOffer. split.
  - intros (l & rN & D & r & Hin & Hrest).
    apply elem_of_cons in Hin as [->|Hin].
    + left. exists link, rN, D, r.
      split; [apply list_elem_of_singleton|]; done.
    + right. by exists l, rN, D, r.
  - intros [(l & rN & D & r & Hin & Hrest)|(l & rN & D & r & Hin & Hrest)];
      exists l, rN, D, r; (split; [|done]).
    + apply list_elem_of_singleton in Hin. subst. by left.
    + by right.
Qed.

Lemma lfaLinkStep_leastOf me dsts pd ls sm nhs nhs' C link :
  leastOf nhs C →
  lfaLinkStep me dsts pd ls sm nhs link = Some nhs' →
  leastOf nhs' (λ k v, C k v ∨ lfaOffer me dsts pd ls sm [link] k v).
Proof.
  intros Hm Hstep. unfold lfaLinkStep in Hstep.
  destruct (isUp link) eqn:Hup; simpl in Hstep.
  - destruct (getSpfResult ls (getOtherNodeName link me) !! me)
      as [rN|] eqn:HrN; simpl in Hstep; [|done].
    injection Hstep as <-.
    eapply leastOf_ext; [|apply foldl_lfaStep_leastOf, Hm].
    intros [k1 k2] v. simpl. unfold neighbourOffer, lfaOffer. simpl. split.
    + intros [Hc|[-> (D & r & HD & Hk2 & Hr & Hv & Hlt)]]; [by left|].
      right. exists link, rN, D, r.
      split_and!; [apply list_elem_of_singleton|..]; done.
    + intros [Hc|(l & rN' & D & r & Hin & _ & Hother & HrN' & HD & Hk2
                    & Hr & Hv & Hlt)]; [by left|].
      apply list_elem_of_singleton in Hin. subst l k1.
      rewrite HrN in HrN'. injection HrN' as <-.
      right. split; [done|]. by exists D, r.
  - injection Hstep as <-.
    eapply leastOf_ext; [|exact Hm].
    intros k v. split; [by left|].
    intros [Hc|(l & ? & ? & ? & Hin & Hup' & _)]; [done|].
    apply list_elem_of_singleton in Hin. subst l. congruence.
Qed.

Lemma addLfaNextHops_leastOf me dsts pd ls sm links nhs nhs' C :
  leastOf nhs C →
  foldlM (lfaLinkStep me dsts pd ls sm) nhs links = Some nhs' →
  leastOf nhs' (λ k v, C k v ∨ lfaOffer me dsts pd ls sm links k v).
Proof.
  revert nhs C. induction links as [|link links IH]; intros nhs C Hm Hfold;
    simpl in Hfold.
  - injection Hfold as <-. eapply leastOf_ext; [|exact Hm].
    intros k v. split; [by left|].
    intros [?|Hoff]; [done|]. by apply lfaOffer_nil in Hoff.
  - destruct (lfaLinkStep me dsts pd ls sm nhs link) as [nhs1|] eqn:Hstep;
      simpl in Hfold; [|done].
    eapply leastOf_ext;
      [|apply (IH _ _ (lfaLinkStep_leastOf _ _ _ _ _ _ _ _ _ Hm Hstep) Hfold)].
    intros k v. simpl.
    rewrite (lfaOffer_cons _ _ _ _ _ link links). tauto.
Qed.
End LfaLemmas.

Section LfaTheorem.
Context {Link : Type} `{LinkOps Link}.

Lemma getMinCostNodes_reachable (spfResult : gmap string NodeSpfResult)
    (dsts : list string) (D : string) :
  D ∈ (getMinCostNodes spfResult dsts).2 → is_Some (spfResult !! D).
Proof.
  unfold getMinCostNodes.
  enough (Hgen : ∀ acc,
    (∀ D', D' ∈ acc.2 → is_Some (spfResult !! D')) →
    ∀ D', D' ∈ (foldl (minCostStep spfResult) acc dsts).2 →
          is_Some (spfResult !! D')).
  { apply Hgen. simpl. intros D' HD'. by apply not_elem_of_empty in HD'. }
  induction dsts as [|d dsts IH]; intros acc Hacc; simpl; [done|].
  apply IH. unfold minCostStep.
  destruct (spfResult !! d) as [it|] eqn:Hd; [|done].
  destruct (acc.1 >=? metric it); [|done]. simpl.
  intros D'. rewrite elem_of_union, elem_of_singleton.
  intros [->|HD']; [by eexists|].
  destruct (acc.1 >? metric it); simpl in HD'; [|by apply Hacc].
  by apply not_elem_of_empty in HD'.
Qed.

(** [getNextHopsWithMetric] returns when the metric towards every next
    hop of a closest destination is known and, with LFA enabled, every
    neighbour behind a link that is up has this node in its SPF
    result. *)
Lemma getNextHopsWithMetric_returns (s : SpfSolverImpl) (me : string)
    (dsts : list string) (pd : bool) (ls : LinkState Link) :
  (∀ D r nh, D ∈ (getMinCostNodes (getSpfResult ls me) dsts).2 →
             getSpfResult ls me !! D = Some r → nh ∈ nextHops r →
             is_Some (getMetricFromAToB ls me nh)) →
  (computeLfaPaths_ s = true →
   ∀ link, link ∈ linksFromNode ls me → isUp link = true →
           is_Some (getSpfResult ls (getOtherNodeName link me) !! me)) →
  is_Some (getNextHopsWithMetric s me dsts pd ls).
Proof.
  intros Hsp Hlfa. unfold getNextHopsWithMetric.
  destruct (decide _) as [|Hne]; [by eexists|].
  assert (Hbase : is_Some (addShortestPathNextHops me pd ls
            (getMinCostNodes (getSpfResult ls me) dsts).1
            (elements (getMinCostNodes (getSpfResult ls me) dsts).2) ∅)).
  { unfold addShortestPathNextHops. apply foldlM_is_Some.
    intros nhs D HD. apply elem_of_elements in HD.
    destruct (getMinCostNodes_reachable _ _ _ HD) as [r Hr].
    rewrite Hr. simpl. apply foldlM_is_Some.
    intros nhs' nh Hnh. apply elem_of_elements in Hnh.
    destruct (Hsp D r nh HD Hr Hnh) as [m Hm]. rewrite Hm. by eexists. }
  destruct Hbase as [base Hbase]. rewrite Hbase. simpl.
  destruct (computeLfaPaths_ s) eqn:Hc; simpl; [|by eexists].
  assert (Hadd : is_Some (addLfaNextHops me dsts pd ls
            (getMinCostNodes (getSpfResult ls me) dsts).1 base)).
  { unfold addLfaNextHops. apply foldlM_is_Some.
    intros nhs link Hlink. unfold lfaLinkStep.
    destruct (isUp link) eqn:Hup; simpl; [|by eexists].
    destruct (Hlfa eq_refl link Hlink Hup) as [r Hr]. rewrite Hr.
    by eexists. }
  destruct Hadd as [nhs Hadd]. rewrite Hadd. by eexists.
Qed.

(** What is recorded when [getNextHopsWithMetric] returns with LFA
    enabled. *)
Lemma getNextHopsWithMetric_lfa_spec (s : SpfSolverImpl) (me : string)
    (dsts : list string) (pd : bool) (ls : LinkState Link) (sm : Z)
    (nhs : gmap (string * string) Z) :
  computeLfaPaths_ s = true →
  (getMinCostNodes (getSpfResult ls me) dsts).2 ≠ ∅ →
  getNextHopsWithMetric s me dsts pd ls = Some (sm, nhs) →
  ∃ base,
    sm = (getMinCostNodes (getSpfResult ls me) dsts).1 ∧
    addShortestPathNextHops me pd ls sm
      (elements (getMinCostNodes (getSpfResult ls me) dsts).2) ∅
      = Some base ∧
    (∀ k, is_Some (nhs !! k) ↔
          is_Some (base !! k) ∨
          ∃ v, lfaOffer me dsts pd ls sm (linksFromNode ls me) k v) ∧
    (∀ k v, nhs !! k = Some v →
            (base !! k = Some v ∨
             lfaOffer me dsts pd ls sm (linksFromNode ls me) k v) ∧
            (∀ w, lfaOffer me dsts pd ls sm (linksFromNode ls me) k w →
                  v ≤ w) ∧
            (∀ w, base !! k = Some w → v ≤ w)).
Proof.
  intros Hlfa Hne Hres. unfold getNextHopsWithMetric in Hres.
  rewrite decide_False in Hres by done. rewrite Hlfa in Hres.
  destruct (addShortestPathNextHops _ _ _ _ _ _) as [base|] eqn:Hbase;
    simpl in Hres; [|done].
  destruct (addLfaNextHops _ _ _ _ _ _) as [nhs'|] eqn:Hadd;
    simpl in Hres; [|done].
  injection Hres as <- <-. exists base. split; [done|]. split; [done|].
  pose proof (addLfaNextHops_leastOf _ _ _ _ _ _ _ _ _
                (leastOf_self base) Hadd) as Hleast.
  split.
  - intros k. specialize (Hleast k). simpl in Hleast.
    destruct (nhs' !! k) as [v|].
    + split; [|intros _; by eexists]. intros _.
      destruct Hleast as [[Hb|Hoff] _]; [left; by eexists|right; eauto].
    + split; [by intros [? ?]|]. intros [[w Hb]|[w Hoff]].
      * destruct (Hleast w). by left.
      * destruct (Hleast w). by right.
  - intros k v Hk. specialize (Hleast k). simpl in Hleast.
    rewrite Hk in Hleast. destruct Hleast as [Hc Hmin].
    split_and!; [done|..].
    + intros w Hw. apply Hmin. by right.
    + intros w Hw. apply Hmin. by left.
Qed.

(** C4. With LFA computation enabled, a destination within reach, the
    metric towards every next hop of a closest destination known and
    this node present in the SPF result of every neighbour behind a link
    that is up, [getNextHopsWithMetric] returns, and it records the
    keys of the next hops [base] of the shortest paths and, besides
    them, exactly the keys [(N, dstTag)] for which neighbour [N] makes
    an offer: it is reached over a link that is up and
    [dist(N, D) < shortestMetric + dist(N, me)] for a destination [D]
    filed under [dstTag], [dist(N, me)] being the metric of this node in
    the SPF result of [N].  The value kept under a key is the least of
    the offers made for it and of the value in [base], if any. *)
Theorem lfa_next_hops_recorded (s : SpfSolverImpl) (me : string)
    (dsts : list string) (pd : bool) (ls : LinkState Link) :
  computeLfaPaths_ s = true →
  (getMinCostNodes (getSpfResult ls me) dsts).2 ≠ ∅ →
  (∀ D r nh, D ∈ (getMinCostNodes (getSpfResult ls me) dsts).2 →
             getSpfResult ls me !! D = Some r → nh ∈ nextHops r →
             is_Some (getMetricFromAToB ls me nh)) →
  (∀ link, link ∈ linksFromNode ls me → isUp link = true →
           is_Some (getSpfResult ls (getOtherNodeName link me) !! me)) →
  ∃ sm nhs base,
    getNextHopsWithMetric s me dsts pd ls = Some (sm, nhs) ∧
    sm = (getMinCostNodes (getSpfResult ls me) dsts).1 ∧
    addShortestPathNextHops me pd ls sm
      (elements (getMinCostNodes (getSpfResult ls me) dsts).2) ∅
      = Some base ∧
    (∀ k, is_Some (nhs !! k) ↔
          is_Some (base !! k) ∨
          ∃ v, lfaOffer me dsts pd ls sm (linksFromNode ls me) k v) ∧
    (∀ k v, nhs !! k = Some v →
            (base !! k = Some v ∨
             lfaOffer me dsts pd ls sm (linksFromNode ls me) k v) ∧
            (∀ w, lfaOffer me dsts pd ls sm (linksFromNode ls me) k w →
                  v ≤ w) ∧
            (∀ w, base !! k = Some w → v ≤ w)).
Proof.
  intros Hlfa Hne Hsp Hnb.
  destruct (getNextHopsWithMetric_returns s me dsts pd ls Hsp (λ _, Hnb))
    as [[sm nhs] Hres].
  destruct (getNextHopsWithMetric_lfa_spec s me dsts pd ls sm nhs
              Hlfa Hne Hres) as (base & Hsm & Hbase & Halt & Hmin).
  by exists sm, nhs, base.
Qed.
End LfaTheorem.

Lemma lfa_scenario_result :
  getNextHopsWithMetric LfaScenario.solver "A" ["D"] false
    LfaScenario.linkState = Some (1, LfaScenario.recorded).
Proof. vm_compute. reflexivity. Qed.

Lemma lfa_scenario_closest :
  (getMinCostNodes (getSpfResult LfaScenario.linkState "A") ["D"]).2
  = {["D"]}.
Proof. compute_done. Qed.

Lemma lfa_scenario_metrics_known (D : string) (r : NodeSpfResult)
    (nh : string) :
  D ∈ (getMinCostNodes (getSpfResult LfaScenario.linkState "A") ["D"]).2 →
  getSpfResult LfaScenario.linkState "A" !! D = Some r →
  nh ∈ nextHops r →
  is_Some (getMetricFromAToB LfaScenario.linkState "A" nh).
Proof.
  rewrite lfa_scenario_closest, elem_of_singleton. intros -> Hr Hnh.
  assert (Hr' : getSpfResult LfaScenario.linkState "A" !! "D"
                = Some (mkNodeSpfResult 1 {["D"]}))
    by (vm_compute; reflexivity).
  rewrite Hr' in Hr. injection Hr as <-. simpl in Hnh.
  apply elem_of_singleton in Hnh as ->. by eexists.
Qed.

Lemma lfa_alternate_scenario_result :
  getNextHopsWithMetric LfaAlternateScenario.solver "A" ["D"] false
    LfaAlternateScenario.linkState
  = Some (2, LfaAlternateScenario.recorded).
Proof. vm_compute. reflexivity. Qed.

Lemma lfa_alternate_scenario_base :
  addShortestPathNextHops "A" false LfaAlternateScenario.linkState 2
    (elements
       (getMinCostNodes (getSpfResult LfaAlternateScenario.linkState "A")
          ["D"]).2) ∅
  = Some LfaAlternateScenario.shortest.
Proof. vm_compute. reflexivity. Qed.

Lemma lfa_alternate_scenario_closest :
  (getMinCostNodes (getSpfResult LfaAlternateScenario.linkState "A")
     ["D"]).2 = {["D"]}.
Proof. compute_done. Qed.

Lemma lfa_alternate_scenario_metrics_known (D : string)
    (r : NodeSpfResult) (nh : string) :
  D ∈ (getMinCostNodes (getSpfResult LfaAlternateScenario.linkState "A")
         ["D"]).2 →
  getSpfResult LfaAlternateScenario.linkState "A" !! D = Some r →
  nh ∈ nextHops r →
  is_Some (getMetricFromAToB LfaAlternateScenario.linkState "A" nh).
Proof.
  rewrite lfa_alternate_scenario_closest, elem_of_singleton.
  intros -> Hr Hnh.
  assert (Hr' : getSpfResult LfaAlternateScenario.linkState "A" !! "D"
                = Some (mkNodeSpfResult 2 {["B"]}))
    by (vm_compute; reflexivity).
  rewrite Hr' in Hr. injection Hr as <-. simpl in Hnh.
  apply elem_of_singleton in Hnh as ->. by eexists.
Qed.

Lemma lfa_alternate_scenario_neighbours (link : SimpleLink) :
  link ∈ linksFromNode LfaAlternateScenario.linkState "A" →
  isUp link = true →
  is_Some (getSpfResult LfaAlternateScenario.linkState
             (getOtherNodeName link "A") !! "A").
Proof.
  simpl. rewrite !elem_of_cons, elem_of_nil.
  intros [->|[->|[]]] Hup; vm_compute; by eexists.
Qed.

(** In the scenario the shortest path to [D] goes through [B], and [C]
    is recorded besides: it reaches [D] at distance 1, less than the
    shortest metric 2 plus its own distance 2 to this node. *)
Lemma lfa_alternate_scenario_offer :
  LfaAlternateScenario.shortest !! ("C", "") = None ∧
  LfaAlternateScenario.recorded !! ("C", "") = Some 1 ∧
  lfaOffer "A" ["D"] false LfaAlternateScenario.linkState 2
    (linksFromNode LfaAlternateScenario.linkState "A") ("C", "") 1.
Proof.
  split; [compute_done|]. split; [compute_done|].
  exists LfaAlternateScenario.linkAC, (mkNodeSpfResult 2 {["A"]}), "D",
    (mkNodeSpfResult 1 {["D"]}).
  split_and!; try reflexivity.
  - simpl. rewrite !elem_of_cons. tauto.
  - apply list_elem_of_singleton. reflexivity.
Qed.

Lemma lfa_next_hops_recorded_witness :
  computeLfaPaths_ LfaAlternateScenario.solver = true ∧
  (getMinCostNodes (getSpfResult LfaAlternateScenario.linkState "A")
     ["D"]).2 ≠ ∅ ∧
  getNextHopsWithMetric LfaAlternateScenario.solver "A" ["D"] false
    LfaAlternateScenario.linkState
  = Some (2, LfaAlternateScenario.recorded) ∧
  LfaAlternateScenario.shortest !! ("C", "") = None ∧
  LfaAlternateScenario.recorded !! ("C", "") = Some 1 ∧
  ∃ sm nhs base,
    getNextHopsWithMetric LfaAlternateScenario.solver "A" ["D"] false
      LfaAlternateScenario.linkState = Some (sm, nhs) ∧
    sm = (getMinCostNodes (getSpfResult LfaAlternateScenario.linkState "A")
            ["D"]).1 ∧
    addShortestPathNextHops "A" false LfaAlternateScenario.linkState sm
      (elements
         (getMinCostNodes (getSpfResult LfaAlternateScenario.linkState "A")
            ["D"]).2)
      ∅
      = Some base ∧
    (∀ k, is_Some (nhs !! k) ↔
          is_Some (base !! k) ∨
          ∃ v, lfaOffer "A" ["D"] false LfaAlternateScenario.linkState sm
                 (linksFromNode LfaAlternateScenario.linkState "A") k v) ∧
    (∀ k v, nhs !! k = Some v →
            (base !! k = Some v ∨
             lfaOffer "A" ["D"] false LfaAlternateScenario.linkState sm
               (linksFromNode LfaAlternateScenario.linkState "A") k v) ∧
            (∀ w, lfaOffer "A" ["D"] false LfaAlternateScenario.linkState sm
                    (linksFromNode LfaAlternateScenario.linkState "A") k w →
                  v ≤ w) ∧
            (∀ w, base !! k = Some w → v ≤ w)).
Proof.
  assert (Hne : (getMinCostNodes
                   (getSpfResult LfaAlternateScenario.linkState "A")
                   ["D"]).2 ≠ ∅).
  { intros Heq. vm_compute in Heq. discriminate Heq. }
  split; [reflexivity|]. split; [exact Hne|].
  split; [exact lfa_alternate_scenario_result|].
  split; [exact (proj1 lfa_alternate_scenario_offer)|].
  split; [exact (proj1 (proj2 lfa_alternate_scenario_offer))|].
  exact (lfa_next_hops_recorded LfaAlternateScenario.solver "A" ["D"] false
           LfaAlternateScenario.linkState eq_refl Hne
           lfa_alternate_scenario_metrics_known
           lfa_alternate_scenario_neighbours).
Defined.

(** In the scenario the neighbours [N1] (behind a link that is down)
    and [N2] (whose own distance to this node, 2, is less than the metric
    10 of the direct link) both meet the criterion stated with the link
    metric, for destination [D] and shortest metric 1; neither is
    recorded. *)
Lemma lfa_link_metric_criterion_differs :
  getNextHopsWithMetric LfaScenario.solver "A" ["D"] false
    LfaScenario.linkState = Some (1, LfaScenario.recorded) ∧
  lfaOfferByLinkMetric "A" ["D"] false LfaScenario.linkState 1 ("N1", "") ∧
  LfaScenario.recorded !! ("N1", "") = None ∧
  lfaOfferByLinkMetric "A" ["D"] false LfaScenario.linkState 1 ("N2", "") ∧
  LfaScenario.recorded !! ("N2", "") = None ∧
  ¬ (∀ k, is_Some (LfaScenario.recorded !! k) ↔
          lfaOfferByLinkMetric "A" ["D"] false LfaScenario.linkState 1 k).
Proof.
  assert (H1 : lfaOfferByLinkMetric "A" ["D"] false LfaScenario.linkState 1
                 ("N1", "")).
  { exists LfaScenario.linkAN1, "D", (mkNodeSpfResult 1 {["D"]}).
    split_and!; [| reflexivity | apply list_elem_of_singleton; reflexivity
                 | reflexivity | vm_compute; reflexivity
                 | vm_compute; reflexivity].
    simpl. rewrite !elem_of_cons. tauto. }
  assert (H2 : lfaOfferByLinkMetric "A" ["D"] false LfaScenario.linkState 1
                 ("N2", "")).
  { exists LfaScenario.linkAN2, "D", (mkNodeSpfResult 3 {["X"]}).
    split_and!; [| reflexivity | apply list_elem_of_singleton; reflexivity
                 | reflexivity | vm_compute; reflexivity
                 | vm_compute; reflexivity].
    simpl. rewrite !elem_of_cons. tauto. }
  assert (R1 : LfaScenario.recorded !! ("N1", "") = None)
    by (vm_compute; reflexivity).
  assert (R2 : LfaScenario.recorded !! ("N2", "") = None)
    by (vm_compute; reflexivity).
  split_and!; [vm_compute; reflexivity | done..|].
  intros Hclaim. apply Hclaim in H1. rewrite R1 in H1. by destruct H1.
Qed.

(** ** The minimum next-hop gate of KSP2 *)

Section MinNexthop.
Context {Link : Type} `{LinkOps Link}.

Lemma largestMinNexthop_step (done_ : list string)
    (nodePrefixes : gmap string PrefixEntry) (acc : option Z) (node : string) :
  largestMinNexthop done_ nodePrefixes acc →
  largestMinNexthop (done_ ++ [node]) nodePrefixes
    (match nodePrefixes !! node with
     | Some npKv =>
         match minNexthop npKv with
         | Some v =>
             match acc with
             | None => Some v
             | Some cur => if v >? cur then Some v else Some cur
             end
         | None => acc
         end
     | None => acc
     end).
Proof.
  intros Hacc.
  assert (Hsnoc : ∀ n, n ∈ done_ ++ [node] ↔ n ∈ done_ ∨ n = node).
  { intros n. by rewrite elem_of_app, list_elem_of_singleton. }
  assert (Hkeep : (∀ pe, nodePrefixes !! node = Some pe → minNexthop pe = None)
                  → largestMinNexthop (done_ ++ [node]) nodePrefixes acc).
  { intros Hnone. destruct acc as [t|]; simpl in *.
    - destruct Hacc as [(n & pe & Hn & Hpe & Ht) Hmax]. split.
      + exists n, pe. rewrite Hsnoc. eauto.
      + intros n' pe' v Hn' Hpe' Hv. apply Hsnoc in Hn' as [Hn'| ->].
        * eauto.
        * rewrite (Hnone _ Hpe') in Hv. done.
    - intros n pe Hn Hpe. apply Hsnoc in Hn as [Hn| ->]; eauto. }
  destruct (nodePrefixes !! node) as [npKv|] eqn:Hnode;
    [|apply Hkeep; intros; done].
  destruct (minNexthop npKv) as [v|] eqn:Hv;
    [|apply Hkeep; intros pe [= <-]; done].
  destruct acc as [cur|]; simpl in *.
  - destruct Hacc as [(n & pe & Hn & Hpe & Ht) Hmax].
    destruct (Z.gtb_spec v cur) as [Hgt|Hle]; simpl.
    + split.
      * exists node, npKv. rewrite Hsnoc. eauto.
      * intros n' pe' v' Hn' Hpe' Hv'. apply Hsnoc in Hn' as [Hn'| ->].
        -- specialize (Hmax _ _ _ Hn' Hpe' Hv'). lia.
        -- rewrite Hnode in Hpe'. injection Hpe' as <-.
           rewrite Hv in Hv'. injection Hv' as <-. lia.
    + split.
      * exists n, pe. rewrite Hsnoc. eauto.
      * intros n' pe' v' Hn' Hpe' Hv'. apply Hsnoc in Hn' as [Hn'| ->].
        -- eauto.
        -- rewrite Hnode in Hpe'. injection Hpe' as <-.
           rewrite Hv in Hv'. injection Hv' as <-. done.
  - split.
    + exists node, npKv. rewrite Hsnoc. eauto.
    + intros n' pe' v' Hn' Hpe' Hv'. apply Hsnoc in Hn' as [Hn'| ->].
      * by rewrite (Hacc _ _ Hn' Hpe') in Hv'.
      * rewrite Hnode in Hpe'. injection Hpe' as <-.
        rewrite Hv in Hv'. injection Hv' as <-. done.
Qed.

(** The threshold is the largest [minNexthop] among the selected
    destinations that advertise the prefix. *)
Lemma getMinNextHopThreshold_spec (bp : BestPathCalResult)
    (nodePrefixes : gmap string PrefixEntry) :
  largestMinNexthop (nodes bp) nodePrefixes
    (getMinNextHopThreshold bp nodePrefixes).
Proof.
  unfold getMinNextHopThreshold.
  enough (Hgen : ∀ l done_ acc,
    largestMinNexthop done_ nodePrefixes acc →
    largestMinNexthop (done_ ++ l) nodePrefixes
      (foldl (λ maxMinNexthopForPrefix node,
                match nodePrefixes !! node with
                | Some npKv =>
                    match minNexthop npKv with
                    | Some v =>
                        match maxMinNexthopForPrefix with
                        | None => Some v
                        | Some cur => if v >? cur then Some v else Some cur
                        end
                    | None => maxMinNexthopForPrefix
                    end
                | None => maxMinNexthopForPrefix
                end) acc l)).
  { apply (Hgen (nodes bp) [] None). intros n pe Hn.
    by apply elem_of_nil in Hn. }
  induction l as [|node l IH]; intros done_ acc Hacc; simpl.
  - by rewrite app_nil_r.
  - rewrite (cons_middle node done_ l), app_assoc.
    apply IH, largestMinNexthop_step, Hacc.
Qed.

Lemma ksp2BelowMinNextHop_spec (minNextHop : option Z) (size_ static : Z) :
  ksp2BelowMinNextHop minNextHop size_ static = true ↔
  ∃ t, minNextHop = Some t ∧ t > size_ - static.
Proof.
  unfold ksp2BelowMinNextHop. destruct minNextHop as [t|].
  - destruct (Z.gtb_spec t (size_ - static)); split.
    + intros _. exists t. split; [done|lia].
    + done.
    + done.
    + intros (t' & [= <-] & ?). lia.
  - split; [done|]. by intros (? & ? & _).
Qed.

Lemma ksp2WalkPath_walks (ls : LinkState Link) (path : list Link)
    (cost : Z) (start : string) (labels : list Z) :
  (∀ n, n ∈ pathNodes start path →
        is_Some (getAdjacencyDatabases ls !! n)) →
  ∃ cost' labels',
    foldlM (ksp2WalkStep ls) (cost, start, labels) path
    = Some (cost', default start (list.last (pathNodes start path)), labels')
    ∧ length labels' = (length labels + length path)%nat.
Proof.
  revert cost start labels.
  induction path as [|link rest IH]; intros cost start labels Hadj.
  - exists cost, labels. split; [done|simpl; lia].
  - destruct (Hadj (getOtherNodeName link start)) as [adjDb HadjDb];
      [by left|].
    destruct (IH (metric_add cost (getMetricFromNode link start))
                (getOtherNodeName link start) (nodeLabel adjDb :: labels))
      as (cost' & labels' & Hfold & Hlen).
    { intros n Hn. apply Hadj. by right. }
    exists cost', labels'. split; [|simpl in *; lia].
    rewrite (foldlM_cons_Some _ _
               (metric_add cost (getMetricFromNode link start),
                getOtherNodeName link start, nodeLabel adjDb :: labels)).
    + rewrite Hfold. cbn [pathNodes]. rewrite last_cons.
      by destruct (list.last _).
    + unfold ksp2WalkStep. by rewrite HadjDb.
Qed.

Lemma ksp2PathNextHop_is_Some (me : string) (prefix_ : IpPrefix)
    (nodePrefixes : gmap string PrefixEntry) (ls : LinkState Link)
    (path : list Link) :
  ksp2Walkable ls nodePrefixes me path →
  is_Some (ksp2PathNextHop me prefix_ nodePrefixes ls path).
Proof.
  intros (Hne & Hadj & Hend). unfold ksp2PathNextHop, ksp2WalkPath.
  destruct (ksp2WalkPath_walks ls path 0 me [] Hadj)
    as (cost & labels & Hwalk & Hlen).
  destruct (list.last (pathNodes me path)) as [n|] eqn:Hlast.
  - destruct (Hend n eq_refl) as [pe Hpe].
    rewrite Hwalk. cbn [mbind option_bind default].
    destruct path as [|link rest]; [done|].
    destruct labels as [|l0 labels]; [simpl in Hlen; lia|].
    cbn [pop_back mbind option_bind]. unfold id. rewrite Hpe.
    simpl. by eexists.
  - apply last_None in Hlast. by destruct path.
Qed.

(** [selectKsp2] returns when every retained path can be turned into a
    next hop, this node, if it is among the destinations, advertises the
    prefix with a prepend label, and the best node of a BGP prefix
    advertises it. *)
Lemma selectKsp2_returns (s : SpfSolverImpl)
    (ue : gmap IpPrefix RibUnicastEntry) (prefix_ : IpPrefix)
    (me : string) (bp : BestPathCalResult)
    (nodePrefixes : gmap string PrefixEntry) (hasBgp : bool)
    (ls : LinkState Link) (ps : PrefixState) :
  (∀ path, path ∈ ksp2Paths me (nodes bp) ls →
           ksp2Walkable ls nodePrefixes me path) →
  (me ∈ nodes bp →
   ∃ pe, nodePrefixes !! me = Some pe ∧ is_Some (prependLabel pe)) →
  (hasBgp = true → is_Some (nodePrefixes !! bestNode bp)) →
  is_Some (selectKsp2 s ue prefix_ me bp nodePrefixes hasBgp ls ps).
Proof.
  intros Hwalk Hself Hbgp. unfold selectKsp2.
  destruct (length _ =? 0)%nat; [by eexists|].
  assert (Hnhs : is_Some (ksp2NextHops s prefix_ me bp nodePrefixes ls
                            (ksp2Paths me (nodes bp) ls))).
  { unfold ksp2NextHops.
    assert (Hfold : is_Some (foldlM (λ (acc : gset NextHop) path,
                      nh ← ksp2PathNextHop me prefix_ nodePrefixes ls path;
                      Some ({[nh]} ∪ acc)) ∅ (ksp2Paths me (nodes bp) ls))).
    { apply foldlM_is_Some. intros acc path Hpath.
      destruct (ksp2PathNextHop_is_Some me prefix_ nodePrefixes ls path
                  (Hwalk path Hpath)) as [nh Hnh].
      rewrite Hnh. by eexists. }
    destruct Hfold as [nhs Hfold]. rewrite Hfold. simpl.
    unfold ksp2StaticNextHops.
    destruct (bool_decide (me ∈ nodes bp)) eqn:Hme; [|by eexists].
    apply bool_decide_eq_true in Hme.
    destruct (Hself Hme) as (pe & Hpe & [l Hl]). rewrite Hpe. simpl.
    rewrite Hl. simpl. destruct (staticRoutes_ s !! l); by eexists. }
  destruct Hnhs as [[nhs static] Hnhs]. rewrite Hnhs. simpl.
  destruct (ksp2BelowMinNextHop _ _ _); [by eexists|].
  destruct hasBgp; simpl; [|by eexists].
  destruct (getLoopbackVias ps _ _ _) as [|nh [|? ?]]; simpl;
    [by eexists| |by eexists].
  destruct (Hbgp eq_refl) as [pe Hpe]. rewrite Hpe. by eexists.
Qed.

(** What [selectKsp2] leaves in the unicast entries when it returns
    with at least one path retained. *)
Lemma selectKsp2_gate_spec (s : SpfSolverImpl)
    (ue ue' : gmap IpPrefix RibUnicastEntry) (prefix_ : IpPrefix)
    (me : string) (bp : BestPathCalResult)
    (nodePrefixes : gmap string PrefixEntry) (hasBgp : bool)
    (ls : LinkState Link) (ps : PrefixState) :
  ue !! prefix_ = None →
  ksp2Paths me (nodes bp) ls ≠ [] →
  selectKsp2 s ue prefix_ me bp nodePrefixes hasBgp ls ps = Some ue' →
  ∃ nhs staticNexthops,
    ksp2NextHops s prefix_ me bp nodePrefixes ls (ksp2Paths me (nodes bp) ls)
      = Some (nhs, staticNexthops) ∧
    largestMinNexthop (nodes bp) nodePrefixes
      (getMinNextHopThreshold bp nodePrefixes) ∧
    (ue' !! prefix_ = None ↔
     ∃ t, getMinNextHopThreshold bp nodePrefixes = Some t ∧
          t > Z.of_nat (size nhs) - staticNexthops) ∧
    (∀ e, ue' !! prefix_ = Some e → prefix e = prefix_ ∧ nexthops e = nhs) ∧
    (∀ p, p ≠ prefix_ → ue' !! p = ue !! p).
Proof.
  intros Hfresh Hpaths Hsel. unfold selectKsp2 in Hsel.
  destruct (ksp2Paths me (nodes bp) ls) as [|p0 paths] eqn:Hps; [done|].
  simpl in Hsel.
  destruct (ksp2NextHops s prefix_ me bp nodePrefixes ls (p0 :: paths))
    as [[nhs static]|] eqn:Hnhs; simpl in Hsel; [|done].
  exists nhs, static. split; [done|].
  split; [apply getMinNextHopThreshold_spec|].
  rewrite <- ksp2BelowMinNextHop_spec.
  destruct (ksp2BelowMinNextHop _ _ _) eqn:Hgate.
  - injection Hsel as <-. split_and!; [done| |done].
    intros e He. congruence.
  - assert (∃ entry', prefix entry' = prefix_ ∧ nexthops entry' = nhs ∧
                      ue' = emplace prefix_ entry' ue) as (e' & Hp & Hn & ->).
    { destruct hasBgp; simpl in Hsel.
      - destruct (getLoopbackVias ps _ _ _) as [|nh [|? ?]];
          simpl in Hsel.
        + injection Hsel as <-. eexists. split_and!.
          3: reflexivity. all: reflexivity.
        + destruct (nodePrefixes !! bestNode bp) as [pe|];
            simpl in Hsel; [|done].
          injection Hsel as <-. eexists. split_and!.
          3: reflexivity. all: reflexivity.
        + injection Hsel as <-. eexists. split_and!.
          3: reflexivity. all: reflexivity.
      - injection Hsel as <-. eexists. split_and!.
        3: reflexivity. all: reflexivity. }
    unfold emplace. rewrite Hfresh. split_and!.
    + rewrite lookup_insert_eq. split; done.
    + intros e. rewrite lookup_insert_eq. by intros [= <-].
    + intros p Hne. by apply lookup_insert_ne.
Qed.

Lemma ksp2_dynamic_fold (me : string) (prefix_ : IpPrefix)
    (nodePrefixes : gmap string PrefixEntry) (ls : LinkState Link)
    (paths : list (list Link)) (acc nhs : gset NextHop) :
  foldlM (λ (acc : gset NextHop) path,
            nh ← ksp2PathNextHop me prefix_ nodePrefixes ls path;
            Some ({[nh]} ∪ acc)) acc paths = Some nhs →
  ∀ nh, nh ∈ nhs ↔
        nh ∈ acc ∨ ksp2DynamicNextHop me prefix_ nodePrefixes ls paths nh.
Proof.
  unfold ksp2DynamicNextHop. revert acc.
  induction paths as [|path paths IH]; intros acc; simpl.
  - intros [= <-] nh. split; [by left|].
    by intros [?|(? & ?%elem_of_nil & _)].
  - destruct (ksp2PathNextHop me prefix_ nodePrefixes ls path) as [nh0|]
      eqn:Hpath; simpl; [|done].
    intros Hfold nh. rewrite (IH _ Hfold nh), elem_of_union,
      elem_of_singleton.
    split.
    + intros [[->|?]|(path' & Hin & Hnh)].
      * right. exists path. split; [apply list_elem_of_here|done].
      * by left.
      * right. exists path'. split; [by apply list_elem_of_further|done].
    + intros [?|(path' & [->|Hin]%elem_of_cons & Hnh)].
      * left. by right.
      * left. left. congruence.
      * right. by exists path'.
Qed.

Lemma ksp2PathNextHop_ifName (me : string) (prefix_ : IpPrefix)
    (nodePrefixes : gmap string PrefixEntry) (ls : LinkState Link)
    (path : list Link) (nh : NextHop) :
  ksp2PathNextHop me prefix_ nodePrefixes ls path = Some nh →
  is_Some (nh_ifName nh).
Proof.
  unfold ksp2PathNextHop.
  destruct (ksp2WalkPath me ls path) as [[[cost n] labels]|];
    simpl; [|done].
  destruct (pop_back labels) as [labels1|]; simpl; [|done].
  destruct (nodePrefixes !! n) as [pe|]; simpl; [|done].
  destruct (head path) as [firstLink|]; simpl; [|done].
  intros [= <-]. by eexists.
Qed.

Lemma ksp2_static_fold (routeNhs : list NextHop) (nhs : gset NextHop)
    (n : Z) :
  foldl (λ '(acc, staticNexthops) nh,
           ({[createNextHop (nh_address nh) None 0 None true None]} ∪ acc,
            staticNexthops + 1))
        (nhs, n) routeNhs
  = (list_to_set (ksp2StaticNextHop <$> routeNhs) ∪ nhs,
     n + Z.of_nat (length routeNhs)).
Proof.
  revert nhs n. induction routeNhs as [|nh l IH]; intros nhs n; simpl.
  - f_equal; [by rewrite (left_id_L ∅ (∪))|lia].
  - rewrite IH. f_equal; [|lia]. unfold ksp2StaticNextHop.
    apply set_eq. intros x.
    rewrite !elem_of_union, elem_of_singleton. tauto.
Qed.

(** The next-hop set of the entry and the static count, after the two
    loops. *)
Lemma ksp2NextHops_spec (s : SpfSolverImpl) (prefix_ : IpPrefix)
    (me : string) (bp : BestPathCalResult)
    (nodePrefixes : gmap string PrefixEntry) (ls : LinkState Link)
    (paths : list (list Link)) (nhs : gset NextHop) (staticNexthops : Z) :
  ksp2NextHops s prefix_ me bp nodePrefixes ls paths
  = Some (nhs, staticNexthops) →
  ∃ dynamic : gset NextHop,
    (∀ nh, nh ∈ dynamic ↔
           ksp2DynamicNextHop me prefix_ nodePrefixes ls paths nh) ∧
    nhs = list_to_set
            (ksp2StaticNextHop <$> ksp2StaticRoute s me bp nodePrefixes)
          ∪ dynamic ∧
    staticNexthops
    = Z.of_nat (length (ksp2StaticRoute s me bp nodePrefixes)).
Proof.
  unfold ksp2NextHops.
  destruct (foldlM _ ∅ paths) as [dynamic|] eqn:Hdyn; simpl; [|done].
  intros Hstatic. exists dynamic. split.
  { intros nh. rewrite (ksp2_dynamic_fold _ _ _ _ _ _ _ Hdyn nh).
    split; [|by right]. intros [?%elem_of_empty|?]; done. }
  revert Hstatic. unfold ksp2StaticNextHops, ksp2StaticRoute.
  destruct (bool_decide (me ∈ nodes bp)).
  2: { intros [= <- <-]. simpl. by rewrite (left_id_L ∅ (∪)). }
  destruct (nodePrefixes !! me) as [pe|]; simpl; [|done].
  destruct (prependLabel pe) as [label_|]; simpl; [|done].
  destruct (staticRoutes_ s !! label_) as [routeNhs|]; simpl.
  - rewrite ksp2_static_fold. intros [= <- <-]. split; [done|lia].
  - intros [= <- <-]. simpl. by rewrite (left_id_L ∅ (∪)).
Qed.

Lemma ksp2StaticNextHop_inj : Inj (=) (=) (λ address : string,
  createNextHop address None 0 None true None).
Proof. by intros a1 a2 [= ->]. Qed.

(** The static next hops having pairwise different addresses, the size
    of the next-hop set less the static count is the number of dynamic
    next hops. *)
Lemma ksp2_dynamic_count (me : string) (prefix_ : IpPrefix)
    (nodePrefixes : gmap string PrefixEntry) (ls : LinkState Link)
    (paths : list (list Link)) (route : list NextHop)
    (dynamic : gset NextHop) :
  (∀ nh, nh ∈ dynamic ↔
         ksp2DynamicNextHop me prefix_ nodePrefixes ls paths nh) →
  NoDup (nh_address <$> route) →
  Z.of_nat (size (list_to_set (ksp2StaticNextHop <$> route) ∪ dynamic))
  - Z.of_nat (length route)
  = Z.of_nat (size dynamic).
Proof.
  intros Hdyn Hnodup. rewrite size_union.
  - rewrite size_list_to_set.
    + rewrite length_fmap. lia.
    + unfold ksp2StaticNextHop.
      rewrite (list_fmap_compose nh_address
                 (λ address, createNextHop address None 0 None true None)).
      by apply (@NoDup_fmap_2 _ _ _ ksp2StaticNextHop_inj).
  - intros nh Hstatic (path & _ & [iface Hif]%ksp2PathNextHop_ifName)%Hdyn.
    apply elem_of_list_to_set, list_elem_of_fmap in Hstatic
      as (r & -> & _).
    discriminate Hif.
Qed.

(** C5. In [selectKsp2], for a prefix without entry yet, with at least
    one path retained and every look-up of the next-hop assembly
    answered (every retained path can be turned into a next hop; this
    node, if it is among the destinations, advertises a prepend label;
    the best node of a BGP prefix advertises the prefix), and with the
    next hops of the static route appended having pairwise different
    addresses, the call returns and the unicast entry of the prefix is
    left out exactly when the threshold exceeds the number of dynamic
    next hops, those made of the retained paths; the threshold is the
    largest [minNexthop] among the destinations selected for the
    prefix.  Otherwise the entry is emplaced, its next hops being the
    dynamic ones and those appended for the static route; no other
    prefix is touched. *)
Theorem ksp2_min_nexthop_gate (s : SpfSolverImpl)
    (ue : gmap IpPrefix RibUnicastEntry) (prefix_ : IpPrefix)
    (me : string) (bp : BestPathCalResult)
    (nodePrefixes : gmap string PrefixEntry) (hasBgp : bool)
    (ls : LinkState Link) (ps : PrefixState) :
  ue !! prefix_ = None →
  ksp2Paths me (nodes bp) ls ≠ [] →
  (∀ path, path ∈ ksp2Paths me (nodes bp) ls →
           ksp2Walkable ls nodePrefixes me path) →
  (me ∈ nodes bp →
   ∃ pe, nodePrefixes !! me = Some pe ∧ is_Some (prependLabel pe)) →
  (hasBgp = true → is_Some (nodePrefixes !! bestNode bp)) →
  NoDup (nh_address <$> ksp2StaticRoute s me bp nodePrefixes) →
  ∃ ue' (dynamic : gset NextHop),
    selectKsp2 s ue prefix_ me bp nodePrefixes hasBgp ls ps = Some ue' ∧
    (∀ nh, nh ∈ dynamic ↔
           ksp2DynamicNextHop me prefix_ nodePrefixes ls
             (ksp2Paths me (nodes bp) ls) nh) ∧
    largestMinNexthop (nodes bp) nodePrefixes
      (getMinNextHopThreshold bp nodePrefixes) ∧
    (ue' !! prefix_ = None ↔
     ∃ t, getMinNextHopThreshold bp nodePrefixes = Some t ∧
          t > Z.of_nat (size dynamic)) ∧
    (∀ e, ue' !! prefix_ = Some e →
          prefix e = prefix_ ∧
          ∀ nh, nh ∈ nexthops e ↔
                nh ∈ dynamic ∨
                ∃ r, r ∈ ksp2StaticRoute s me bp nodePrefixes ∧
                     nh = ksp2StaticNextHop r) ∧
    (∀ p, p ≠ prefix_ → ue' !! p = ue !! p).
Proof.
  intros Hfresh Hpaths Hwalk Hself Hbgp Hnodup.
  destruct (selectKsp2_returns s ue prefix_ me bp nodePrefixes hasBgp ls ps
              Hwalk Hself Hbgp) as [ue' Hsel].
  destruct (selectKsp2_gate_spec s ue ue' prefix_ me bp nodePrefixes hasBgp
              ls ps Hfresh Hpaths Hsel)
    as (nhs & static & Hnhs & Hmax & Hgate & Hentry & Hother).
  destruct (ksp2NextHops_spec _ _ _ _ _ _ _ _ _ Hnhs)
    as (dynamic & Hdyn & -> & ->).
  rewrite (ksp2_dynamic_count me prefix_ nodePrefixes ls _ _ dynamic
             Hdyn Hnodup) in Hgate.
  exists ue', dynamic. split_and!; try done.
  intros e [Hp ->]%Hentry. split; [done|]. intros nh.
  rewrite elem_of_union, elem_of_list_to_set, list_elem_of_fmap.
  split.
  - intros [(r & -> & Hr)|?]; [right; by exists r|by left].
  - intros [?|(r & Hr & ->)]; [by right|left; by exists r].
Qed.

(** [selectKsp2] files the entry it emits under the entry's own prefix. *)
Lemma selectKsp2_keeps_own_keys (s : SpfSolverImpl)
    (ue ue' : gmap IpPrefix RibUnicastEntry) (prefix_ : IpPrefix)
    (me : string) (bp : BestPathCalResult)
    (nodePrefixes : gmap string PrefixEntry) (hasBgp : bool)
    (ls : LinkState Link) (ps : PrefixState) :
  (∀ p e, ue !! p = Some e → prefix e = p) →
  selectKsp2 s ue prefix_ me bp nodePrefixes hasBgp ls ps = Some ue' →
  ∀ p e, ue' !! p = Some e → prefix e = p.
Proof.
  intros Hkeys Hsel. unfold selectKsp2 in Hsel.
  destruct (length _ =? 0)%nat; [by injection Hsel as <-|].
  destruct (ksp2NextHops _ _ _ _ _ _ _) as [[nhs static]|];
    simpl in Hsel; [|done].
  destruct (ksp2BelowMinNextHop _ _ _); [by injection Hsel as <-|].
  assert (∃ entry', prefix entry' = prefix_ ∧
                    ue' = emplace prefix_ entry' ue) as (e' & Hp & ->).
  { destruct hasBgp; simpl in Hsel.
    - destruct (getLoopbackVias ps _ _ _) as [|nh [|? ?]]; simpl in Hsel.
      + injection Hsel as <-. eexists. split; [|reflexivity]. done.
      + destruct (nodePrefixes !! bestNode bp) as [pe|];
          simpl in Hsel; [|done].
        injection Hsel as <-. eexists. split; [|reflexivity]. done.
      + injection Hsel as <-. eexists. split; [|reflexivity]. done.
    - injection Hsel as <-. eexists. split; [|reflexivity]. done. }
  intros p e. unfold emplace.
  destruct (ue !! prefix_) eqn:Hold; [apply Hkeys|].
  destruct (decide (p = prefix_)) as [->|Hne].
  - rewrite lookup_insert_eq. by intros [= <-].
  - rewrite lookup_insert_ne by done. apply Hkeys.
Qed.
End MinNexthop.

Lemma min_nexthop_scenario_emitted :
  selectKsp2 MinNexthopScenario.solver ∅ MinNexthopScenario.vip "A"
    MinNexthopScenario.bestNodes MinNexthopScenario.nodePrefixes false
    MinNexthopScenario.linkState MinNexthopScenario.prefixState
  = Some {[ MinNexthopScenario.vip :=
              mkRibUnicastEntry MinNexthopScenario.vip
                {[MinNexthopScenario.viaB; MinNexthopScenario.viaE]}
                None false None ]}.
Proof. compute_done. Qed.

Lemma min_nexthop_scenario_paths :
  ksp2Paths "A" (nodes MinNexthopScenario.bestNodes)
    MinNexthopScenario.linkState
  = [[MinNexthopScenario.linkAB];
     [MinNexthopScenario.linkAE; MinNexthopScenario.linkEB]].
Proof. vm_compute. reflexivity. Qed.

Lemma anycast_scenario_paths :
  ksp2Paths "A" (nodes AnycastScenario.bestNodes)
    MinNexthopScenario.linkState
  = [[MinNexthopScenario.linkAB];
     [MinNexthopScenario.linkAE; MinNexthopScenario.linkEB]].
Proof. vm_compute. reflexivity. Qed.

Lemma anycast_scenario_walkable (path : list SimpleLink) :
  path ∈ ksp2Paths "A" (nodes AnycastScenario.bestNodes)
           MinNexthopScenario.linkState →
  ksp2Walkable MinNexthopScenario.linkState AnycastScenario.nodePrefixes
    "A" path.
Proof.
  rewrite anycast_scenario_paths, !elem_of_cons, elem_of_nil.
  intros [->|[->|[]]]; (split; [done|]); split.
  - intros n. simpl. rewrite list_elem_of_singleton. intros ->.
    vm_compute. by eexists.
  - intros n [= <-]. vm_compute. by eexists.
  - intros n. simpl. rewrite !elem_of_cons, elem_of_nil.
    intros [->|[->|[]]]; vm_compute; by eexists.
  - intros n [= <-]. vm_compute. by eexists.
Qed.

Lemma anycast_scenario_static_route :
  ksp2StaticRoute AnycastScenario.solver "A" AnycastScenario.bestNodes
    AnycastScenario.nodePrefixes
  = [AnycastScenario.static1; AnycastScenario.static2].
Proof. vm_compute. reflexivity. Qed.

(** In the anycast scenario two dynamic next hops are computed, the
    threshold is 2 and the entry is emitted with four next hops, the
    two static ones among them. *)
Lemma anycast_scenario_emitted :
  selectKsp2 AnycastScenario.solver ∅ MinNexthopScenario.vip "A"
    AnycastScenario.bestNodes AnycastScenario.nodePrefixes true
    MinNexthopScenario.linkState MinNexthopScenario.prefixState
  = Some {[ MinNexthopScenario.vip :=
              mkRibUnicastEntry MinNexthopScenario.vip
                {[MinNexthopScenario.viaB; MinNexthopScenario.viaE;
                  ksp2StaticNextHop AnycastScenario.static1;
                  ksp2StaticNextHop AnycastScenario.static2]}
                None false None ]} ∧
  getMinNextHopThreshold AnycastScenario.bestNodes
    AnycastScenario.nodePrefixes = Some 2.
Proof. split; compute_done. Qed.

Lemma ksp2_min_nexthop_gate_witness :
  (∅ : gmap IpPrefix RibUnicastEntry) !! MinNexthopScenario.vip = None ∧
  ksp2Paths "A" (nodes AnycastScenario.bestNodes)
    MinNexthopScenario.linkState ≠ [] ∧
  NoDup (nh_address <$>
         ksp2StaticRoute AnycastScenario.solver "A"
           AnycastScenario.bestNodes AnycastScenario.nodePrefixes) ∧
  ∃ ue' (dynamic : gset NextHop),
    selectKsp2 AnycastScenario.solver ∅ MinNexthopScenario.vip "A"
      AnycastScenario.bestNodes AnycastScenario.nodePrefixes true
      MinNexthopScenario.linkState MinNexthopScenario.prefixState
    = Some ue' ∧
    (∀ nh, nh ∈ dynamic ↔
           ksp2DynamicNextHop "A" MinNexthopScenario.vip
             AnycastScenario.nodePrefixes MinNexthopScenario.linkState
             (ksp2Paths "A" (nodes AnycastScenario.bestNodes)
                MinNexthopScenario.linkState) nh) ∧
    largestMinNexthop (nodes AnycastScenario.bestNodes)
      AnycastScenario.nodePrefixes
      (getMinNextHopThreshold AnycastScenario.bestNodes
         AnycastScenario.nodePrefixes) ∧
    (ue' !! MinNexthopScenario.vip = None ↔
     ∃ t, getMinNextHopThreshold AnycastScenario.bestNodes
            AnycastScenario.nodePrefixes = Some t ∧
          t > Z.of_nat (size dynamic)) ∧
    (∀ e, ue' !! MinNexthopScenario.vip = Some e →
          prefix e = MinNexthopScenario.vip ∧
          ∀ nh, nh ∈ nexthops e ↔
                nh ∈ dynamic ∨
                ∃ r, r ∈ ksp2StaticRoute AnycastScenario.solver "A"
                           AnycastScenario.bestNodes
                           AnycastScenario.nodePrefixes ∧
                     nh = ksp2StaticNextHop r) ∧
    (∀ p, p ≠ MinNexthopScenario.vip →
          ue' !! p = (∅ : gmap IpPrefix RibUnicastEntry) !! p).
Proof.
  assert (Hps : ksp2Paths "A" (nodes AnycastScenario.bestNodes)
                  MinNexthopScenario.linkState ≠ []).
  { rewrite anycast_scenario_paths. discriminate. }
  assert (Hnodup : NoDup (nh_address <$>
                          ksp2StaticRoute AnycastScenario.solver "A"
                            AnycastScenario.bestNodes
                            AnycastScenario.nodePrefixes)).
  { rewrite anycast_scenario_static_route. simpl.
    apply NoDup_cons_2; [|apply NoDup_singleton].
    rewrite list_elem_of_singleton. discriminate. }
  split; [apply lookup_empty|]. split; [exact Hps|].
  split; [exact Hnodup|].
  apply (ksp2_min_nexthop_gate AnycastScenario.solver ∅
           MinNexthopScenario.vip "A" AnycastScenario.bestNodes
           AnycastScenario.nodePrefixes true
           MinNexthopScenario.linkState MinNexthopScenario.prefixState
           (lookup_empty _) Hps anycast_scenario_walkable).
  - intros _. eexists. split; [reflexivity|]. by eexists.
  - intros _. by eexists.
  - exact Hnodup.
Defined.

(** With a static route whose two next hops share an address, one next
    hop is appended and two are counted: of the three next hops of the
    entry two are dynamic and the threshold is 2, yet the entry is left
    out. *)
Lemma ksp2_static_next_hops_counted_each :
  ksp2NextHops
    (AnycastScenario.solverWith
       [AnycastScenario.static1; AnycastScenario.static1'])
    MinNexthopScenario.vip "A" AnycastScenario.bestNodes
    AnycastScenario.nodePrefixes MinNexthopScenario.linkState
    (ksp2Paths "A" (nodes AnycastScenario.bestNodes)
       MinNexthopScenario.linkState)
  = Some ({[MinNexthopScenario.viaB; MinNexthopScenario.viaE;
            ksp2StaticNextHop AnycastScenario.static1]}, 2) ∧
  getMinNextHopThreshold AnycastScenario.bestNodes
    AnycastScenario.nodePrefixes = Some 2 ∧
  selectKsp2
    (AnycastScenario.solverWith
       [AnycastScenario.static1; AnycastScenario.static1'])
    ∅ MinNexthopScenario.vip "A" AnycastScenario.bestNodes
    AnycastScenario.nodePrefixes true MinNexthopScenario.linkState
    MinNexthopScenario.prefixState
  = Some ∅.
Proof. split_and!; compute_done. Qed.

(** With [B] and [C] advertising the prefix, [C] overloaded and asking
    for three next hops, [B] for one: the threshold over the advertisers
    is 3 and two dynamic next hops are computed, yet the entry is
    emitted, the threshold of the selected destination [B] being 1. *)
Lemma min_nexthop_of_unselected_advertiser_ignored :
  nodes MinNexthopScenario.bestNodes = ["B"] ∧
  advertisersMinNexthop MinNexthopScenario.nodePrefixes = Some 3 ∧
  ksp2NextHops MinNexthopScenario.solver MinNexthopScenario.vip "A"
    MinNexthopScenario.bestNodes MinNexthopScenario.nodePrefixes
    MinNexthopScenario.linkState
    (ksp2Paths "A" (nodes MinNexthopScenario.bestNodes)
       MinNexthopScenario.linkState)
  = Some ({[MinNexthopScenario.viaB; MinNexthopScenario.viaE]}, 0) ∧
  size ({[MinNexthopScenario.viaB; MinNexthopScenario.viaE]} : gset NextHop)
  = 2%nat ∧
  (∃ ue',
     selectKsp2 MinNexthopScenario.solver ∅ MinNexthopScenario.vip "A"
       MinNexthopScenario.bestNodes MinNexthopScenario.nodePrefixes false
       MinNexthopScenario.linkState MinNexthopScenario.prefixState
     = Some ue' ∧
     is_Some (ue' !! MinNexthopScenario.vip)) ∧
  ¬ (∀ ue' nhs staticNexthops,
       selectKsp2 MinNexthopScenario.solver ∅ MinNexthopScenario.vip "A"
         MinNexthopScenario.bestNodes MinNexthopScenario.nodePrefixes false
         MinNexthopScenario.linkState MinNexthopScenario.prefixState
       = Some ue' →
       ksp2NextHops MinNexthopScenario.solver MinNexthopScenario.vip "A"
         MinNexthopScenario.bestNodes MinNexthopScenario.nodePrefixes
         MinNexthopScenario.linkState
         (ksp2Paths "A" (nodes MinNexthopScenario.bestNodes)
            MinNexthopScenario.linkState)
       = Some (nhs, staticNexthops) →
       (ue' !! MinNexthopScenario.vip = None ↔
        ∃ t, advertisersMinNexthop MinNexthopScenario.nodePrefixes = Some t ∧
             t > Z.of_nat (size nhs) - staticNexthops)).
Proof.
  assert (Hnhs :
    ksp2NextHops MinNexthopScenario.solver MinNexthopScenario.vip "A"
      MinNexthopScenario.bestNodes MinNexthopScenario.nodePrefixes
      MinNexthopScenario.linkState
      (ksp2Paths "A" (nodes MinNexthopScenario.bestNodes)
         MinNexthopScenario.linkState)
    = Some ({[MinNexthopScenario.viaB; MinNexthopScenario.viaE]}, 0))
    by compute_done.
  assert (Hadv : advertisersMinNexthop MinNexthopScenario.nodePrefixes
                 = Some 3) by compute_done.
  assert (Hsize :
    size ({[MinNexthopScenario.viaB; MinNexthopScenario.viaE]}
          : gset NextHop) = 2%nat) by compute_done.
  split_and!; [compute_done | done.. | |].
  - eexists. split; [exact min_nexthop_scenario_emitted|].
    rewrite lookup_singleton_eq. by eexists.
  - intros Hclaim.
    destruct (Hclaim _ _ _ min_nexthop_scenario_emitted Hnhs) as [_ Hdrop].
    rewrite lookup_singleton_eq in Hdrop.
    assert (Hnone : Some (mkRibUnicastEntry MinNexthopScenario.vip
                            {[MinNexthopScenario.viaB;
                              MinNexthopScenario.viaE]} None false None)
                    = None); [|discriminate Hnone].
    apply Hdrop. exists 3. split; [exact Hadv|]. rewrite Hsize. lia.
Qed.

(** ** Static routes *)

Lemma lastEventFor_snoc (l : Z) (evs : list StaticRouteEvent)
    (e : StaticRouteEvent) :
  lastEventFor l (evs ++ [e]) =
  if decide (eventLabel e = l) then Some e else lastEventFor l evs.
Proof.
  unfold lastEventFor.
  rewrite list.filter_app, list.filter_cons, list.filter_nil.
  destruct (decide (eventLabel e = l)).
  - apply last_snoc.
  - by rewrite app_nil_r.
Qed.

Lemma lastEventFor_label (l : Z) (evs : list StaticRouteEvent)
    (e : StaticRouteEvent) :
  lastEventFor l evs = Some e → eventLabel e = l.
Proof.
  unfold lastEventFor. intros Hlast. apply last_Some_elem_of in Hlast.
  by apply list_elem_of_filter in Hlast as [? _].
Qed.

Lemma lastEventFor_nonempty (evs : list StaticRouteEvent) :
  evs ≠ [] → ∃ e, lastEventFor (eventLabel e) evs = Some e.
Proof.
  destruct evs as [|e0 evs0] using rev_ind; [done|]. intros _.
  exists e0. rewrite lastEventFor_snoc. by rewrite decide_True.
Qed.

Lemma squashUpdate_events (acc : gmap Z MplsRoute * gset Z)
    (u : RouteDatabaseDelta) :
  squashUpdate acc u =
  foldl squashEvent acc
    ((RouteUpdated <$> mplsRoutesToUpdate u) ++
     (RouteDeleted <$> mplsRoutesToDelete u)).
Proof.
  unfold squashUpdate. rewrite foldl_app.
  assert (Hu : ∀ l a,
    foldl (λ a r, (<[topLabel r := r]> a.1, a.2 ∖ {[topLabel r]})) a l
    = foldl squashEvent a (RouteUpdated <$> l)).
  { induction l as [|r l IH]; intros a; simpl; [done|]. apply IH. }
  assert (Hd : ∀ l a,
    foldl (λ a k, (delete k a.1, {[k]} ∪ a.2)) a l
    = foldl squashEvent a (RouteDeleted <$> l)).
  { induction l as [|k l IH]; intros a; simpl; [done|]. apply IH. }
  by rewrite Hu, Hd.
Qed.

Lemma squashUpdates_events (updates : list RouteDatabaseDelta) :
  squashUpdates updates =
  foldl squashEvent (∅, ∅) (staticRouteEvents updates).
Proof.
  unfold squashUpdates, staticRouteEvents.
  generalize ((∅, ∅) : gmap Z MplsRoute * gset Z).
  induction updates as [|u updates IH]; intros acc; simpl; [done|].
  by rewrite foldl_app, IH, squashUpdate_events.
Qed.

(** After the squashing, a label has an update exactly when its last
    event is that update, and is marked deleted exactly when its last
    event is a delete. *)
Lemma squashEvents_spec (evs : list StaticRouteEvent) (l : Z) :
  (foldl squashEvent (∅, ∅) evs).1 !! l =
    match lastEventFor l evs with
    | Some (RouteUpdated r) => Some r
    | _ => None
    end ∧
  (l ∈ (foldl squashEvent (∅, ∅) evs).2 ↔
   lastEventFor l evs = Some (RouteDeleted l)).
Proof.
  induction evs as [|e evs [IHu IHd]] using rev_ind.
  - simpl. split; [apply lookup_empty|]. split; [|done].
    intros Hin. by apply not_elem_of_empty in Hin.
  - rewrite foldl_snoc, lastEventFor_snoc.
    destruct e as [r|k]; simpl.
    + destruct (decide (topLabel r = l)) as [<-|Hne].
      * rewrite lookup_insert_eq. split; [done|].
        rewrite elem_of_difference, elem_of_singleton. split; [tauto|done].
      * rewrite lookup_insert_ne by done. split; [done|].
        rewrite elem_of_difference, elem_of_singleton, IHd.
        split; [tauto|]. intros Hl. split; [done|congruence].
    + destruct (decide (k = l)) as [<-|Hne].
      * rewrite lookup_delete_eq. split; [done|].
        rewrite elem_of_union, elem_of_singleton. split; [done|tauto].
      * rewrite lookup_delete_ne by done. split; [done|].
        rewrite elem_of_union, elem_of_singleton, IHd.
        split; [intros [?|?]; [congruence|done]|tauto].
Qed.

(** C9. [processStaticRouteUpdates] empties the list of pending deltas
    and squashes them label by label, the events being taken in arrival
    order: the stored static routes hold the next hops of the last update
    of a label whose last event is an update, nothing for a label whose
    last event is a delete, and are unchanged for the other labels; no
    delta is returned when there was no event, and otherwise the returned
    delta lists exactly the updates that are the last event of their
    label and exactly the labels whose last event is a delete. *)
Theorem processStaticRouteUpdates_squashes (s : SpfSolverImpl) :
  let evs := staticRouteEvents (staticRoutesUpdates_ s) in
  let s' := (processStaticRouteUpdates s).1 in
  staticRoutesUpdates_ s' = [] ∧
  (∀ l, staticRoutes_ s' !! l =
        match lastEventFor l evs with
        | Some (RouteUpdated r) => Some (mr_nextHops r)
        | Some (RouteDeleted _) => None
        | None => staticRoutes_ s !! l
        end) ∧
  match (processStaticRouteUpdates s).2 with
  | None => evs = []
  | Some delta =>
      evs ≠ [] ∧
      thisNodeName delta = solverNodeName_ s ∧
      unicastRoutesToUpdate delta = [] ∧ unicastRoutesToDelete delta = [] ∧
      NoDup (mplsRoutesToUpdate delta) ∧ NoDup (mplsRoutesToDelete delta) ∧
      (∀ r, r ∈ mplsRoutesToUpdate delta ↔
            lastEventFor (topLabel r) evs = Some (RouteUpdated r)) ∧
      (∀ l, l ∈ mplsRoutesToDelete delta ↔
            lastEventFor l evs = Some (RouteDeleted l))
  end.
Proof.
  intros evs s'. subst s'. unfold processStaticRouteUpdates.
  rewrite squashUpdates_events. fold evs.
  pose proof (squashEvents_spec evs) as Hspec.
  set (upd := (foldl squashEvent (∅, ∅) evs).1) in *.
  set (del := (foldl squashEvent (∅, ∅) evs).2) in *.
  destruct ((size upd =? 0)%nat && (size del =? 0)%nat) eqn:Hempty; simpl.
  - apply andb_true_iff in Hempty as [Hu Hd].
    apply Nat.eqb_eq, map_size_empty_iff in Hu.
    apply Nat.eqb_eq, size_empty_iff, leibniz_equiv in Hd.
    assert (Hevs : evs = []).
    { destruct (decide (evs = [])) as [|Hne]; [done|]. exfalso.
      destruct (lastEventFor_nonempty evs Hne) as [e He].
      destruct (Hspec (eventLabel e)) as [Hl Hr]. rewrite He in Hl, Hr.
      destruct e as [r|k]; simpl in *.
      - rewrite Hu, lookup_empty in Hl. done.
      - rewrite Hd in Hr. apply (not_elem_of_empty (C:=gset Z) k).
        by apply Hr. }
    split; [done|]. split; [|done].
    intros l. by rewrite Hevs.
  - split; [done|]. split.
    + intros l.
      change (foldl (λ m k, delete k m) ?m0 ?ks !! l)
        with (applyDeletes ks m0 !! l).
      change (foldl (λ m kv, <[kv.1 := mr_nextHops kv.2]> m) ?m0 ?us)
        with (applyUpdates fst (λ kv : Z * MplsRoute, mr_nextHops kv.2)
                us m0).
      rewrite lookup_applyDeletes.
      destruct (Hspec l) as [Hl Hr].
      destruct (decide (l ∈ elements del)) as [Hin|Hnin].
      * apply elem_of_elements, Hr in Hin. by rewrite Hin.
      * rewrite elem_of_elements, Hr in Hnin. fold upd in Hl.
        destruct (upd !! l) as [r|] eqn:Hupd.
        -- destruct (lastEventFor l evs) as [[r'|?]|]; [|done|done].
           injection Hl as ->.
           apply (lookup_applyUpdates_elem fst (λ kv, mr_nextHops kv.2)
                    _ _ l (l, r')).
           ++ by apply elem_of_map_to_list.
           ++ done.
           ++ intros [l2 r2] Hin2 Hk. simpl in *. subst l2.
              apply elem_of_map_to_list in Hin2. congruence.
        -- rewrite (lookup_applyUpdates_other fst (λ kv, mr_nextHops kv.2)).
           ++ destruct (lastEventFor l evs) as [[?|k]|] eqn:Hlast;
                [done| |done].
              pose proof (lastEventFor_label _ _ _ Hlast) as Hk.
              simpl in Hk. subst k. done.
           ++ intros [l2 r2] Hin2 Hk. simpl in *. subst l2.
              apply elem_of_map_to_list in Hin2. congruence.
    + assert (Hkey : ∀ l r, upd !! l = Some r → topLabel r = l).
      { intros l r Hlr. destruct (Hspec l) as [Hl _]. fold upd in Hl.
        rewrite Hlr in Hl.
        destruct (lastEventFor l evs) as [[r'|?]|] eqn:Hlast; [|done|done].
        injection Hl as ->. by apply lastEventFor_label in Hlast. }
      split_and!; [|done|done|done| |apply NoDup_elements| |].
      * intros Hevs. unfold upd, del in Hempty. rewrite Hevs in Hempty.
        cbn [foldl fst snd] in Hempty.
        by rewrite map_size_empty, size_empty in Hempty.
      * apply NoDup_fmap_2_strong; [|apply NoDup_map_to_list].
        intros [l1 r1] [l2 r2] H1 H2 Heq. simpl in Heq. subst r2.
        apply elem_of_map_to_list in H1, H2.
        apply Hkey in H1, H2. congruence.
      * intros r. rewrite list_elem_of_fmap. split.
        -- intros ([l r'] & -> & Hin). simpl.
           apply elem_of_map_to_list in Hin.
           pose proof (Hkey _ _ Hin) as Hk. subst l.
           destruct (Hspec (topLabel r')) as [Hl _]. fold upd in Hl.
           rewrite Hin in Hl.
           destruct (lastEventFor (topLabel r') evs) as [[r2|?]|];
             [|done|done].
           by injection Hl as ->.
        -- intros Hlast. exists (topLabel r, r). split; [done|].
           apply elem_of_map_to_list.
           destruct (Hspec (topLabel r)) as [Hl _]. fold upd in Hl.
           by rewrite Hlast in Hl.
      * intros l. rewrite elem_of_elements. apply Hspec.
Qed.

(** ** The Decision module *)

(** *** The merge of the route databases of the areas *)

Lemma insertRange_union `{Countable K} {V : Type} (src dst : gmap K V) :
  insertRange src dst = dst ∪ src.
Proof.
  unfold insertRange. rewrite <- (list_to_map_to_list src) at 2.
  generalize (map_to_list src). intros l. revert dst.
  induction l as [|[k v] l IH]; intros dst; simpl.
  - by rewrite (right_id_L ∅ (∪)).
  - rewrite IH. apply map_eq. intros i. rewrite !lookup_union.
    unfold emplace. destruct (dst !! k) as [v0|] eqn:Hk.
    + destruct (decide (i = k)) as [->|Hne].
      * rewrite Hk, lookup_insert_eq. simpl.
        by destruct (list_to_map l !! k).
      * by rewrite lookup_insert_ne.
    + destruct (decide (i = k)) as [->|Hne].
      * rewrite !lookup_insert_eq, Hk. simpl.
        by destruct (list_to_map l !! k).
      * by rewrite !lookup_insert_ne.
Qed.

Lemma foldl_union_lookup `{Countable K} {V B : Type}
    (g : B → option (gmap K V)) (l : list B) (m0 : gmap K V) :
  let merged :=
    foldl (λ m x, match g x with Some src => m ∪ src | None => m end)
          m0 l in
  (∀ k v, m0 !! k = Some v → merged !! k = Some v) ∧
  (∀ k v, merged !! k = Some v →
          m0 !! k = Some v ∨ ∃ x src, x ∈ l ∧ g x = Some src ∧
                                      src !! k = Some v) ∧
  (∀ x src k, x ∈ l → g x = Some src → is_Some (src !! k) →
              is_Some (merged !! k)).
Proof.
  revert m0. induction l as [|x l IH]; intros m0; simpl.
  { split_and!; [done|by left|by intros x src k ?%elem_of_nil]. }
  destruct (IH (match g x with Some src => m0 ∪ src | None => m0 end))
    as (Hkeep & Hfrom & Hall).
  assert (Hstep : ∀ k v, m0 !! k = Some v →
    match g x with Some src => m0 ∪ src | None => m0 end !! k = Some v).
  { intros k v Hk. destruct (g x); [|done]. by apply lookup_union_Some_l. }
  split_and!.
  - intros k v Hk. by apply Hkeep, Hstep.
  - intros k v [Hk|(y & src & Hy & Hg & Hsrc)]%Hfrom.
    + destruct (g x) as [src|] eqn:Hg; [|by left].
      apply lookup_union_Some_raw in Hk as [?|[_ Hsrc]]; [by left|].
      right. exists x, src. split; [apply list_elem_of_here|done].
    + right. exists y, src. split; [by apply list_elem_of_further|done].
  - intros y src k [->|Hy]%elem_of_cons Hg Hsrc; [|by eapply Hall].
    rewrite Hg in Hkeep, Hstep |- *.
    destruct (m0 !! k) as [v0|] eqn:Hk.
    + exists v0. by apply Hkeep, lookup_union_Some_l.
    + destruct Hsrc as [v Hv]. exists v. apply Hkeep.
      by apply lookup_union_Some_raw; right.
Qed.

Section DecisionProperties.
Context {Link : Type} `{LinkOps Link} `{Collaborators Link}.

Lemma buildRouteDb_None (d : Decision) (nodeName : string) :
  buildRouteDb d nodeName = None ↔
  unicastEntries (mergedRouteDb d nodeName) = ∅ ∧
  mplsEntries (mergedRouteDb d nodeName) = ∅.
Proof.
  unfold buildRouteDb.
  destruct (bool_decide (unicastEntries (mergedRouteDb d nodeName) = ∅))
    eqn:Hu;
    destruct (bool_decide (mplsEntries (mergedRouteDb d nodeName) = ∅))
      eqn:Hm; simpl.
  - apply bool_decide_eq_true in Hu, Hm. done.
  - apply bool_decide_eq_false in Hm. split; [done|tauto].
  - apply bool_decide_eq_false in Hu. split; [done|tauto].
  - apply bool_decide_eq_false in Hu. split; [done|tauto].
Qed.

Lemma buildRouteDb_no_area (d : Decision) (nodeName : string) :
  areaLinkStates_ d = ∅ → buildRouteDb d nodeName = None.
Proof.
  intros Hno. apply buildRouteDb_None. unfold mergedRouteDb.
  by rewrite Hno, map_to_list_empty.
Qed.

Lemma mergedRouteDb_unions (d : Decision) (nodeName : string)
    (l : list (string * LinkState Link)) (db0 : DecisionRouteDb) :
  unicastEntries (foldl (mergeAreaDb nodeName d) db0 l)
  = foldl (λ m (kv : string * LinkState Link),
             match unicastEntries <$>
                     solverBuildRouteDb (spfSolver_ d) nodeName kv.2
                       (prefixState_ d) with
             | Some src => m ∪ src
             | None => m
             end) (unicastEntries db0) l ∧
  mplsEntries (foldl (mergeAreaDb nodeName d) db0 l)
  = foldl (λ m (kv : string * LinkState Link),
             match mplsEntries <$>
                     solverBuildRouteDb (spfSolver_ d) nodeName kv.2
                       (prefixState_ d) with
             | Some src => m ∪ src
             | None => m
             end) (mplsEntries db0) l.
Proof.
  revert db0. induction l as [|kv l IH]; intros db0; simpl; [done|].
  destruct (IH (mergeAreaDb nodeName d db0 kv)) as [-> ->].
  unfold mergeAreaDb.
  destruct (solverBuildRouteDb _ _ _ _) as [areaDb|]; simpl; [|done].
  by rewrite !insertRange_union.
Qed.

Lemma areaRouteDb_elem_of (d : Decision) (nodeName : string)
    (proj : DecisionRouteDb → Prop) :
  (∃ kv areaDb, kv ∈ map_to_list (areaLinkStates_ d) ∧
                solverBuildRouteDb (spfSolver_ d) nodeName kv.2
                  (prefixState_ d) = Some areaDb ∧ proj areaDb) ↔
  ∃ area areaDb, areaRouteDb d nodeName area = Some areaDb ∧ proj areaDb.
Proof.
  unfold areaRouteDb. split.
  - intros ([area ls] & areaDb & Hin%elem_of_map_to_list & Hdb & Hp).
    exists area, areaDb. rewrite Hin. done.
  - intros (area & areaDb & Hdb & Hp).
    destruct (areaLinkStates_ d !! area) as [ls|] eqn:Hls; [|done].
    exists (area, ls), areaDb. by rewrite elem_of_map_to_list.
Qed.

Lemma mergedRouteDb_areas (d : Decision) (nodeName : string) :
  (∀ p e, unicastEntries (mergedRouteDb d nodeName) !! p = Some e →
          ∃ area areaDb, areaRouteDb d nodeName area = Some areaDb ∧
                         unicastEntries areaDb !! p = Some e) ∧
  (∀ l e, mplsEntries (mergedRouteDb d nodeName) !! l = Some e →
          ∃ area areaDb, areaRouteDb d nodeName area = Some areaDb ∧
                         mplsEntries areaDb !! l = Some e) ∧
  (∀ area areaDb, areaRouteDb d nodeName area = Some areaDb →
     (∀ p, is_Some (unicastEntries areaDb !! p) →
           is_Some (unicastEntries (mergedRouteDb d nodeName) !! p)) ∧
     (∀ l, is_Some (mplsEntries areaDb !! l) →
           is_Some (mplsEntries (mergedRouteDb d nodeName) !! l))).
Proof.
  unfold mergedRouteDb.
  destruct (mergedRouteDb_unions d nodeName
              (map_to_list (areaLinkStates_ d)) emptyRouteDb) as [Hu Hm].
  pose proof (foldl_union_lookup
    (λ kv : string * LinkState Link,
       unicastEntries <$> solverBuildRouteDb (spfSolver_ d) nodeName kv.2
                            (prefixState_ d))
    (map_to_list (areaLinkStates_ d)) (unicastEntries emptyRouteDb))
    as (_ & Hufrom & Huall).
  pose proof (foldl_union_lookup
    (λ kv : string * LinkState Link,
       mplsEntries <$> solverBuildRouteDb (spfSolver_ d) nodeName kv.2
                         (prefixState_ d))
    (map_to_list (areaLinkStates_ d)) (mplsEntries emptyRouteDb))
    as (_ & Hmfrom & Hmall).
  simpl in Hu, Hm, Hufrom, Huall, Hmfrom, Hmall.
  rewrite <- Hu in Hufrom, Huall. rewrite <- Hm in Hmfrom, Hmall.
  set (db := foldl (mergeAreaDb nodeName d) emptyRouteDb
               (map_to_list (areaLinkStates_ d))) in *.
  split_and!.
  - intros p e [Hp|(kv & src & Hin & Hsrc & Hp)]%Hufrom;
      [by rewrite lookup_empty in Hp|].
    apply (areaRouteDb_elem_of d nodeName
             (λ areaDb, unicastEntries areaDb !! p = Some e)).
    destruct (solverBuildRouteDb _ _ _ _) as [areaDb|] eqn:Hdb; [|done].
    injection Hsrc as <-. by exists kv, areaDb.
  - intros l e [Hl|(kv & src & Hin & Hsrc & Hl)]%Hmfrom;
      [by rewrite lookup_empty in Hl|].
    apply (areaRouteDb_elem_of d nodeName
             (λ areaDb, mplsEntries areaDb !! l = Some e)).
    destruct (solverBuildRouteDb _ _ _ _) as [areaDb|] eqn:Hdb; [|done].
    injection Hsrc as <-. by exists kv, areaDb.
  - intros area areaDb Hdb.
    destruct (proj2 (areaRouteDb_elem_of d nodeName (λ a, a = areaDb)))
      as (kv & areaDb' & Hin & Hsolver & ->); [by exists area, areaDb|].
    split.
    + intros p Hp. apply (Huall kv (unicastEntries areaDb)); try done.
      by rewrite Hsolver.
    + intros l Hl. apply (Hmall kv (mplsEntries areaDb)); try done.
      by rewrite Hsolver.
Qed.

(** C6. When the route build yields no value, [coldStartUpdate] does not
    emit an empty delta: it dereferences the empty optional, which is
    undefined behaviour. *)
Theorem coldStartUpdate_without_routes (now : Z) (d : Decision) :
  buildRouteDb d (myNodeName_ d) = None →
  coldStartUpdate now d = UndefinedBehaviour.
Proof. intros Hnone. unfold coldStartUpdate. by rewrite Hnone. Qed.

(** With routes to program, the cold start publishes them with an empty
    list of perf events. *)
Lemma coldStartUpdate_with_routes (now : Z) (d : Decision)
    (routeDb : DecisionRouteDb) :
  buildRouteDb d (myNodeName_ d) = Some routeDb →
  coldStartUpdate now d =
  Done (sendRouteUpdate now routeDb (Some []) "COLD_START_UPDATE" d).
Proof. intros Hsome. unfold coldStartUpdate. by rewrite Hsome. Qed.

Lemma updateNodePrefixDatabase_pending (key : string)
    (prefixDb : PrefixDatabase) (d : Decision) :
  pendingUpdates_ (updateNodePrefixDatabase key prefixDb d).1 =
  pendingUpdates_ d.
Proof.
  unfold updateNodePrefixDatabase.
  by destruct (match prefixKeyFromStr key with
               | Some _ => _
               | None => _
               end) as [pp fd].
Qed.

(** The prefix database handed on keeps the perf events received. *)
Lemma updateNodePrefixDatabase_perfEvents (key : string)
    (prefixDb : PrefixDatabase) (d : Decision) :
  pdb_perfEvents (updateNodePrefixDatabase key prefixDb d).2 =
  pdb_perfEvents prefixDb.
Proof.
  unfold updateNodePrefixDatabase.
  by destruct (match prefixKeyFromStr key with
               | Some _ => _
               | None => _
               end) as [pp fd].
Qed.

(** C7. Whatever perf events the prefix database of a publication
    carries, the change is recorded in the pending updates by a call of
    [applyPrefixStateChange] whose [perfEvents] argument is empty. *)
Theorem prefix_update_drops_perfEvents (key nodeName : string)
    (prefixDb : PrefixDatabase) (d : Decision) :
  nodeName = pdb_thisNodeName prefixDb →
  ∃ d' change,
    processPrefixKeyVal key nodeName prefixDb d = Done d' ∧
    pendingUpdates_ d' =
      pendingUpdates_ d ++ [applyPrefixStateChange change None].
Proof.
  intros ->. unfold processPrefixKeyVal. rewrite String.eqb_refl. simpl.
  pose proof (updateNodePrefixDatabase_pending key prefixDb d) as Hpend.
  destruct (updateNodePrefixDatabase key prefixDb d) as [d1 nodePrefixDb].
  eexists _, _. split; [reflexivity|]. simpl in *. by rewrite Hpend.
Qed.

(** The adjacency branch hands the perf events of the database to
    [applyLinkStateChange]. *)
Lemma adjacency_update_keeps_perfEvents (area nodeName : string)
    (adjacencyDb : AdjacencyDatabase) (d d' : Decision) :
  processAdjKeyVal area nodeName adjacencyDb d = Done d' →
  ∃ change,
    pendingUpdates_ d' =
      pendingUpdates_ d ++
      [applyLinkStateChange (adj_thisNodeName adjacencyDb) change
         (adj_perfEvents adjacencyDb)].
Proof.
  unfold processAdjKeyVal.
  destruct (negb _); [done|].
  destruct (areaLinkStates_ d !! area) as [ls|]; [|done].
  destruct (if enable_ordered_fib_programming d then _ else _) as [up down].
  intros [= <-]. eexists.
  destruct (hasHolds _); [|reflexivity].
  by destruct (orderedFibTimer_ _) as [[?|]|].
Qed.

(** C8. A policy whose remaining TTL is not positive leaves [Decision]
    as it was, active policy and timer included; the promise is dropped
    without a value or an error, so that the caller's future holds a
    broken promise and no [OpenrError]. *)
Theorem setRibPolicy_stale (now : Z) (ribPolicyThrift : RibPolicyThrift)
    (ribPolicy : RibPolicy) (d : Decision) :
  isRibPolicyEnabled d = true →
  makeRibPolicy ribPolicyThrift = inr ribPolicy →
  getTtlDuration ribPolicy now ≤ 0 →
  setRibPolicy now ribPolicyThrift d = (d, FutureBrokenPromise).
Proof.
  intros Hen Hmk Httl. unfold setRibPolicy. rewrite Hen, Hmk. simpl.
  by rewrite (proj2 (Z.leb_le _ _) Httl).
Qed.

(** A policy is accepted only with a positive remaining TTL, for which
    the expiry timer is armed. *)
Lemma setRibPolicy_accepted (now : Z) (ribPolicyThrift : RibPolicyThrift)
    (d d' : Decision) :
  setRibPolicy now ribPolicyThrift d = (d', FutureValue) →
  ∃ ribPolicy,
    makeRibPolicy ribPolicyThrift = inr ribPolicy ∧
    0 < getTtlDuration ribPolicy now ∧
    ribPolicy_ d' = Some ribPolicy ∧
    ribPolicyTimer_ d' = Some (getTtlDuration ribPolicy now).
Proof.
  unfold setRibPolicy. destruct (negb _); [done|].
  destruct (makeRibPolicy ribPolicyThrift) as [e|ribPolicy]; [done|].
  destruct (Z.leb_spec (getTtlDuration ribPolicy now) 0); [done|].
  intros [= <-]. exists ribPolicy. split_and!; [done|lia|..];
    unfold processRibPolicyUpdate; simpl;
    destruct (coldStartTimer_ d); simpl; try done;
    by destruct (buildRouteDb _ _).
Qed.

(** The failures that are reported to the caller. *)
Lemma setRibPolicy_failures (now : Z) (ribPolicyThrift : RibPolicyThrift)
    (d d' : Decision) (e : OpenrError) :
  setRibPolicy now ribPolicyThrift d = (d', FutureException e) →
  d' = d ∧
  (isRibPolicyEnabled d = false ∨ makeRibPolicy ribPolicyThrift = inl e).
Proof.
  unfold setRibPolicy. destruct (isRibPolicyEnabled d); simpl.
  - destruct (makeRibPolicy ribPolicyThrift) as [e'|ribPolicy].
    + intros [= <- <-]. auto.
    + by destruct (_ <=? 0).
  - intros [= <- <-]. auto.
Qed.

End DecisionProperties.

(** *** The scenarios *)

Lemma coldStartUpdate_without_routes_witness :
  buildRouteDb DecisionScenario.coldStartExpired
    (myNodeName_ DecisionScenario.coldStartExpired) = None ∧
  coldStartUpdate 5000 DecisionScenario.coldStartExpired = UndefinedBehaviour.
Proof.
  assert (Hnone : buildRouteDb DecisionScenario.coldStartExpired
                    (myNodeName_ DecisionScenario.coldStartExpired) = None).
  { apply buildRouteDb_no_area. reflexivity. }
  split; [exact Hnone|].
  exact (coldStartUpdate_without_routes 5000
           DecisionScenario.coldStartExpired Hnone).
Defined.

Lemma prefix_update_drops_perfEvents_witness :
  "B" = pdb_thisNodeName DecisionScenario.prefixDbOfB ∧
  pdb_perfEvents DecisionScenario.prefixDbOfB
    = Some DecisionScenario.perfEventsOfB ∧
  ∃ d' change,
    processPrefixKeyVal "prefix:B" "B" DecisionScenario.prefixDbOfB
      DecisionScenario.atStartup = Done d' ∧
    pendingUpdates_ d' =
      pendingUpdates_ DecisionScenario.atStartup ++
      [applyPrefixStateChange change None].
Proof.
  split; [reflexivity|]. split; [reflexivity|].
  exact (prefix_update_drops_perfEvents "prefix:B" "B"
           DecisionScenario.prefixDbOfB DecisionScenario.atStartup eq_refl).
Defined.

(** The publication of the prefix database of [B], perf events
    included, leaves one pending call, without perf events. *)
Lemma publication_perfEvents_dropped :
  readPrefixDatabase "prefix-db-of-B" = Some DecisionScenario.prefixDbOfB ∧
  ∃ d',
    processPublication DecisionScenario.prefixPublication
      DecisionScenario.atStartup = Done d' ∧
    pendingUpdates_ d' = [applyPrefixStateChange true None].
Proof.
  split; [reflexivity|]. eexists. split; [reflexivity|].
  vm_compute. reflexivity.
Qed.

Lemma setRibPolicy_stale_witness :
  isRibPolicyEnabled DecisionScenario.coldStartExpired = true ∧
  getTtlDuration (mkRibPolicy 1000 (λ e, (e, false))) 1000 ≤ 0 ∧
  setRibPolicy 1000 DecisionScenario.stalePolicy
    DecisionScenario.coldStartExpired
  = (DecisionScenario.coldStartExpired, FutureBrokenPromise).
Proof.
  assert (Httl : getTtlDuration (mkRibPolicy 1000 (λ e, (e, false))) 1000 ≤ 0).
  { unfold getTtlDuration. simpl. lia. }
  split; [reflexivity|]. split; [exact Httl|].
  exact (setRibPolicy_stale 1000 DecisionScenario.stalePolicy
           (mkRibPolicy 1000 (λ e, (e, false)))
           DecisionScenario.coldStartExpired eq_refl eq_refl Httl).
Defined.



(** * Further properties of the route computation *)

(** ** The closest destinations *)

(** The invariant of the loop of [getMinCostNodes] over the
    destinations [seen] so far. *)
Lemma minCostStep_closest (spfResult : gmap string NodeSpfResult)
    (seen : list string) (acc : Z * gset string) (d : string) :
  (∀ r, spfResult !! d = Some r → metric r ≤ metric_max) →
  closestAmong spfResult seen acc →
  closestAmong spfResult (seen ++ [d]) (minCostStep spfResult acc d).
Proof.
  intros Hbound (Hmem & Hleast & Hmax). unfold closestAmong, minCostStep.
  destruct (spfResult !! d) as [it|] eqn:Hd.
  2: { split_and!; [| |done].
       - intros D. rewrite Hmem, elem_of_app, list_elem_of_singleton.
         split; [intros [? ?]; auto|].
         intros [[?| ->] (r & Hr & ?)]; [eauto|congruence].
       - intros D r [?| ->%list_elem_of_singleton]%elem_of_app Hr;
           [eauto|congruence]. }
  specialize (Hbound it eq_refl).
  destruct (Z.geb_spec acc.1 (metric it)) as [Hge|Hlt].
  - destruct (Z.gtb_spec acc.1 (metric it)) as [Hgt|Hle]; cbn [fst snd].
    + split_and!.
      * intros D. rewrite elem_of_union, elem_of_singleton, elem_of_app,
          list_elem_of_singleton. split.
        -- intros [->|HD]; [eauto|]. by apply not_elem_of_empty in HD.
        -- intros [[HD| ->] (r & Hr & Hm)]; [|by left].
           specialize (Hleast D r HD Hr). lia.
      * intros D r [HD| ->%list_elem_of_singleton]%elem_of_app Hr.
        -- specialize (Hleast D r HD Hr). lia.
        -- rewrite Hd in Hr. injection Hr as <-. lia.
      * intros Hempty. exfalso.
        apply (not_elem_of_empty (C:=gset string) d). rewrite <- Hempty.
        apply elem_of_union. left. by apply elem_of_singleton.
    + assert (Heq : acc.1 = metric it) by lia. split_and!.
      * intros D. rewrite elem_of_union, elem_of_singleton, Hmem,
          elem_of_app, list_elem_of_singleton. split.
        -- intros [->|[HD Hr]]; [eauto|auto].
        -- intros [[HD| ->] Hr]; [right|left]; done.
      * intros D r [HD| ->%list_elem_of_singleton]%elem_of_app Hr.
        -- by apply (Hleast D r).
        -- rewrite Hd in Hr. injection Hr as <-. lia.
      * intros Hempty. exfalso.
        apply (not_elem_of_empty (C:=gset string) d). rewrite <- Hempty.
        apply elem_of_union. left. by apply elem_of_singleton.
  - split_and!; [| |done].
    + intros D. rewrite Hmem, elem_of_app, list_elem_of_singleton.
      split; [intros [? ?]; auto|].
      intros [[?| ->] (r & Hr & Hm)]; [eauto|].
      rewrite Hd in Hr. injection Hr as <-. lia.
    + intros D r [HD| ->%list_elem_of_singleton]%elem_of_app Hr.
      * by apply (Hleast D r).
      * rewrite Hd in Hr. injection Hr as <-. lia.
Qed.

Lemma getMinCostNodes_closestAmong (spfResult : gmap string NodeSpfResult)
    (dsts : list string) :
  (∀ D r, D ∈ dsts → spfResult !! D = Some r → metric r ≤ metric_max) →
  closestAmong spfResult dsts (getMinCostNodes spfResult dsts).
Proof.
  unfold getMinCostNodes.
  induction dsts as [|d dsts IH] using rev_ind; intros Hbound.
  - split_and!; [| |done].
    + intros D. split; [by intros ?%not_elem_of_empty|].
      by intros [?%elem_of_nil _].
    + by intros D r ?%elem_of_nil.
  - rewrite foldl_app. simpl. apply minCostStep_closest.
    + intros r Hr. apply (Hbound d r); [|done].
      apply elem_of_app. right. by apply list_elem_of_singleton.
    + apply IH. intros D r HD. apply Hbound. apply elem_of_app. by left.
Qed.

(** X1. Distances being 64-bit unsigned numbers, [getMinCostNodes]
    returns the least distance among the destinations found in the SPF
    result together with exactly the destinations at that distance; no
    destination is returned exactly when none is found, and the distance
    returned is then the largest 64-bit number. *)
Theorem getMinCostNodes_least (spfResult : gmap string NodeSpfResult)
    (dsts : list string) :
  (∀ D r, D ∈ dsts → spfResult !! D = Some r → metric r ≤ metric_max) →
  (∀ D, D ∈ (getMinCostNodes spfResult dsts).2 ↔
        D ∈ dsts ∧
        ∃ r, spfResult !! D = Some r ∧
             metric r = (getMinCostNodes spfResult dsts).1) ∧
  (∀ D r, D ∈ dsts → spfResult !! D = Some r →
          (getMinCostNodes spfResult dsts).1 ≤ metric r) ∧
  ((getMinCostNodes spfResult dsts).2 = ∅ ↔
   ∀ D, D ∈ dsts → spfResult !! D = None) ∧
  ((getMinCostNodes spfResult dsts).2 = ∅ →
   (getMinCostNodes spfResult dsts).1 = metric_max).
Proof.
  intros Hbound.
  destruct (getMinCostNodes_closestAmong spfResult dsts Hbound)
    as (Hmem & Hleast & Hmax).
  split_and!; [done..| |done].
  split.
  - intros Hempty D HD.
    destruct (spfResult !! D) as [r|] eqn:Hr; [exfalso|done].
    pose proof (Hleast D r HD Hr) as Hle.
    pose proof (Hbound D r HD Hr) as Hub.
    rewrite (Hmax Hempty) in Hle.
    apply (not_elem_of_empty (C:=gset string) D). rewrite <- Hempty.
    apply Hmem. split; [done|]. exists r. split; [done|].
    rewrite (Hmax Hempty). lia.
  - intros Hnone. apply set_eq. intros D. split.
    + intros (HD & r & Hr & _)%Hmem. rewrite (Hnone D HD) in Hr. done.
    + by intros ?%not_elem_of_empty.
Qed.

Lemma lfa_scenario_distances (D : string) (r : NodeSpfResult) :
  D ∈ ["N2"; "D"; "X"; "Z"] → LfaScenario.spf "A" !! D = Some r →
  metric r ≤ metric_max.
Proof.
  rewrite !elem_of_cons, elem_of_nil.
  intros [->|[->|[->|[->|[]]]]] Hr; vm_compute in Hr;
    try discriminate Hr; injection Hr as <-; vm_compute; discriminate.
Qed.

Lemma getMinCostNodes_least_witness :
  (∀ D, D ∈ (getMinCostNodes (LfaScenario.spf "A")
               ["N2"; "D"; "X"; "Z"]).2 ↔
        D ∈ ["N2"; "D"; "X"; "Z"] ∧
        ∃ r, LfaScenario.spf "A" !! D = Some r ∧
             metric r = (getMinCostNodes (LfaScenario.spf "A")
                           ["N2"; "D"; "X"; "Z"]).1) ∧
  (∀ D r, D ∈ ["N2"; "D"; "X"; "Z"] → LfaScenario.spf "A" !! D = Some r →
          (getMinCostNodes (LfaScenario.spf "A")
             ["N2"; "D"; "X"; "Z"]).1 ≤ metric r) ∧
  ((getMinCostNodes (LfaScenario.spf "A") ["N2"; "D"; "X"; "Z"]).2 = ∅ ↔
   ∀ D, D ∈ ["N2"; "D"; "X"; "Z"] → LfaScenario.spf "A" !! D = None) ∧
  ((getMinCostNodes (LfaScenario.spf "A") ["N2"; "D"; "X"; "Z"]).2 = ∅ →
   (getMinCostNodes (LfaScenario.spf "A") ["N2"; "D"; "X"; "Z"]).1
   = metric_max).
Proof.
  exact (getMinCostNodes_least (LfaScenario.spf "A") ["N2"; "D"; "X"; "Z"]
           lfa_scenario_distances).
Defined.

(** ** Drained nodes *)

Section DrainedNodes.
Context {Link : Type} `{LinkOps Link}.

(** X2. [maybeFilterDrainedNodes] leaves the outcome, the best node and
    the best IGP metric as they are and returns nodes of the given set
    only.  When some node of the set is not overloaded it returns
    exactly the nodes that are not; when all are overloaded it returns
    the set as given: a set that is not empty is never emptied. *)
Theorem maybeFilterDrainedNodes_keeps_a_node (result : BestPathCalResult)
    (ls : LinkState Link) :
  success (maybeFilterDrainedNodes result ls) = success result ∧
  bestNode (maybeFilterDrainedNodes result ls) = bestNode result ∧
  bestIgpMetric (maybeFilterDrainedNodes result ls) = bestIgpMetric result ∧
  (∀ n, n ∈ nodes (maybeFilterDrainedNodes result ls) → n ∈ nodes result) ∧
  (nodes result ≠ [] → nodes (maybeFilterDrainedNodes result ls) ≠ []) ∧
  ((∃ n, n ∈ nodes result ∧ isNodeOverloaded ls n = false) →
   ∀ n, n ∈ nodes (maybeFilterDrainedNodes result ls) ↔
        n ∈ nodes result ∧ isNodeOverloaded ls n = false) ∧
  ((∀ n, n ∈ nodes result → isNodeOverloaded ls n = true) →
   maybeFilterDrainedNodes result ls = result).
Proof.
  unfold maybeFilterDrainedNodes. simpl.
  assert (Hfilter : ∀ n,
    n ∈ List.filter (λ n, negb (isNodeOverloaded ls n)) (nodes result) ↔
    n ∈ nodes result ∧ isNodeOverloaded ls n = false).
  { intros n. rewrite !list_elem_of_In, List.filter_In, negb_true_iff.
    done. }
  destruct (List.filter _ (nodes result)) as [|n0 rest] eqn:Hf; simpl.
  - split_and!; try done.
    intros (n & Hn & Hok). exfalso.
    apply (elem_of_nil n), Hfilter. done.
  - split_and!; try done.
    + intros n Hn. by apply Hfilter in Hn as [? _].
    + intros Hall. exfalso.
      assert (Hn0 : n0 ∈ n0 :: rest) by apply list_elem_of_here.
      apply Hfilter in Hn0 as [Hin Hok].
      rewrite (Hall n0 Hin) in Hok. discriminate Hok.
Qed.
End DrainedNodes.

(** ** Next hops over the links of this node *)

Section NextHopsThrift.
Context {Link : Type} `{LinkOps Link}.

Lemma nextHopOverLink_collapsed (s : SpfSolverImpl) (me : string)
    (dsts : list string) (isV4 : bool) (minMetric : Z)
    (nhn : gmap (string * string) Z) (swap : option Z)
    (ls : LinkState Link) (link : Link) :
  nextHopOverLink s me dsts isV4 minMetric nhn swap ls link ""
  = Some (collapsedNextHop s me dsts isV4 minMetric nhn swap link).
Proof.
  unfold nextHopOverLink, collapsedNextHop, nextHopVia, swapOrPhp.
  destruct (nhn !! (getOtherNodeName link me, "")) as [v|]; [|done].
  destruct (isUp link); simpl; [|done].
  destruct (computeLfaPaths_ s); simpl.
  - destruct swap as [l|]; simpl; [by destruct (bool_decide _)|done].
  - destruct (_ =? minMetric); simpl; [|done].
    destruct swap as [l|]; simpl; [by destruct (bool_decide _)|done].
Qed.

Lemma getNextHopsThrift_links (s : SpfSolverImpl) (me : string)
    (dsts : list string) (isV4 : bool) (minMetric : Z)
    (nhn : gmap (string * string) Z) (swap : option Z)
    (ls : LinkState Link) (links : list Link) (acc : gset NextHop) :
  ∃ nhs,
    foldlM (λ nextHops link,
              foldlM (λ nextHops' dstNode,
                        r ← nextHopOverLink s me dsts isV4 minMetric nhn
                               swap ls link dstNode;
                        Some (match r with
                              | Some nh => {[nh]} ∪ nextHops'
                              | None => nextHops'
                              end))
                     nextHops [""])
           acc links = Some nhs ∧
    ∀ nh, nh ∈ nhs ↔
          nh ∈ acc ∨
          ∃ link, link ∈ links ∧
                  collapsedNextHop s me dsts isV4 minMetric nhn swap link
                  = Some nh.
Proof.
  revert acc. induction links as [|link links IH]; intros acc.
  - exists acc. split; [done|]. intros nh. split; [auto|].
    intros [?|(link & ?%elem_of_nil & _)]; done.
  - cbn [foldlM]. rewrite nextHopOverLink_collapsed. cbn [mbind option_bind].
    destruct (IH (match collapsedNextHop s me dsts isV4 minMetric nhn swap
                          link with
                  | Some nh => {[nh]} ∪ acc
                  | None => acc
                  end)) as (nhs & Hfold & Hmem).
    exists nhs. split; [exact Hfold|]. intros nh. rewrite Hmem.
    destruct (collapsedNextHop s me dsts isV4 minMetric nhn swap link)
      as [nh0|] eqn:Hlink.
    + rewrite elem_of_union, elem_of_singleton. split.
      * intros [[->|?]|(l & Hl & Hnh)]; [right|by left|right].
        -- exists link. split; [apply list_elem_of_here|done].
        -- exists l. split; [by apply list_elem_of_further|done].
      * intros [?|(l & [->|Hl]%elem_of_cons & Hnh)]; [by left; right| |].
        -- left; left. congruence.
        -- right. eauto.
    + split.
      * intros [?|(l & Hl & Hnh)]; [by left|right].
        exists l. split; [by apply list_elem_of_further|done].
      * intros [?|(l & [->|Hl]%elem_of_cons & Hnh)]; [by left| |].
        -- congruence.
        -- right. eauto.
Qed.

(** X3. With the destinations taken together ([perDestination] false)
    and a map of next-hop nodes that is not empty, [getNextHopsThrift]
    returns, and its next hops are exactly those over a link of this
    node that is up and leads to a neighbour [N] recorded under [(N, "")]
    with a remaining distance [v]; with LFA disabled the link is used
    only when its metric plus [v] is the minimum metric.  The next hop
    has the metric of the link plus [v], the interface and the area of
    the link, is not marked non-shortest, and carries for a swap label
    PHP towards a neighbour that is a destination and SWAP towards any
    other. *)
Theorem getNextHopsThrift_collapsed (s : SpfSolverImpl) (me : string)
    (dsts : list string) (isV4 : bool) (minMetric : Z)
    (nhn : gmap (string * string) Z) (swap : option Z)
    (ls : LinkState Link) :
  nhn ≠ ∅ →
  ∃ nhs,
    getNextHopsThrift s me dsts isV4 false minMetric nhn swap ls = Some nhs ∧
    ∀ nh, nh ∈ nhs ↔
          ∃ link v,
            link ∈ linksFromNode ls me ∧ isUp link = true ∧
            nhn !! (getOtherNodeName link me, "") = Some v ∧
            (computeLfaPaths_ s = false →
             metric_add (getMetricFromNode link me) v = minMetric) ∧
            nh = nextHopVia me dsts isV4 swap link v.
Proof.
  intros Hne. unfold getNextHopsThrift. rewrite decide_False by done.
  destruct (getNextHopsThrift_links s me dsts isV4 minMetric nhn swap ls
              (linksFromNode ls me) ∅) as (nhs & Hfold & Hmem).
  exists nhs. split; [exact Hfold|]. intros nh. rewrite Hmem. split.
  - intros [?%not_elem_of_empty|(link & Hlink & Hnh)]; [done|].
    unfold collapsedNextHop in Hnh.
    destruct (nhn !! (getOtherNodeName link me, "")) as [v|] eqn:Hv;
      [|done].
    destruct (isUp link) eqn:Hup; simpl in Hnh; [|done].
    destruct (computeLfaPaths_ s) eqn:Hlfa; simpl in Hnh.
    + injection Hnh as <-. exists link, v. split_and!; done.
    + destruct (Z.eqb_spec (metric_add (getMetricFromNode link me) v)
                  minMetric) as [Heq|]; [|done].
      injection Hnh as <-. exists link, v. split_and!; done.
  - intros (link & v & Hlink & Hup & Hv & Hmin & ->). right.
    exists link. split; [done|]. unfold collapsedNextHop.
    rewrite Hv, Hup. simpl.
    destruct (computeLfaPaths_ s); simpl; [done|].
    by rewrite (Hmin eq_refl), Z.eqb_refl.
Qed.
End NextHopsThrift.

Lemma getNextHopsThrift_collapsed_witness :
  (<[("B", "") := 0]> ∅ : gmap (string * string) Z) ≠ ∅ ∧
  ∃ nhs,
    getNextHopsThrift (solverFor "A" false) "A" ["B"] false false 10
      (<[("B", "") := 0]> ∅) (Some 5000) DuplicateLabelScenario.linkState
    = Some nhs ∧
    ∀ nh, nh ∈ nhs ↔
          ∃ link v,
            link ∈ linksFromNode DuplicateLabelScenario.linkState "A" ∧
            isUp link = true ∧
            (<[("B", "") := 0]> ∅ : gmap (string * string) Z)
              !! (getOtherNodeName link "A", "") = Some v ∧
            (computeLfaPaths_ (solverFor "A" false) = false →
             metric_add (getMetricFromNode link "A") v = 10) ∧
            nh = nextHopVia "A" ["B"] false (Some 5000) link v.
Proof.
  assert (Hne : (<[("B", "") := 0]> ∅ : gmap (string * string) Z) ≠ ∅)
    by apply insert_non_empty.
  split; [exact Hne|].
  exact (getNextHopsThrift_collapsed (solverFor "A" false) "A" ["B"] false
           10 (<[("B", "") := 0]> ∅) (Some 5000)
           DuplicateLabelScenario.linkState Hne).
Defined.

(** ** Next-hop nodes of the shortest paths *)

Section ShortestPathNextHops.
Context {Link : Type} `{LinkOps Link}.

(** The value recorded for a next-hop node: the shortest metric less
    the metric from this node to it. *)
Lemma shortestPathInner_spec (me : string) (ls : LinkState Link) (sm : Z)
    (tag : string) (l : list string) (nhs nhs2 : gmap (string * string) Z)
    (K : string * string → Prop) :
  foldlM (λ nhs' nhName,
            m ← getMetricFromAToB ls me nhName;
            Some (<[(nhName, tag) := metric_sub sm m]> nhs'))
         nhs l = Some nhs2 →
  (∀ k v, nhs !! k = Some v ↔ K k ∧ remainingDistance me ls sm k v) →
  ∀ k v, nhs2 !! k = Some v ↔
         (K k ∨ (k.1 ∈ l ∧ k.2 = tag)) ∧ remainingDistance me ls sm k v.
Proof.
  revert nhs K. induction l as [|a l IH]; intros nhs K Hfold Hinv k v.
  - injection Hfold as <-. rewrite Hinv. split.
    + intros [? ?]. auto.
    + intros [[?|[?%elem_of_nil _]] ?]; done.
  - cbn [foldlM] in Hfold.
    destruct (getMetricFromAToB ls me a) as [m|] eqn:Hm;
      cbn [mbind option_bind] in Hfold; [|done].
    rewrite (IH _ (λ k, K k ∨ k = (a, tag)) Hfold).
    + rewrite elem_of_cons. split.
      * intros [[[?| ->]|[? ?]] ?]; split; auto.
      * intros [[?|[[Ha|?] Ht]] ?]; split; auto.
        left; right. destruct k as [k1 k2]. simpl in *. congruence.
    + intros k' v'. destruct (decide (k' = (a, tag))) as [->|Hne].
      * rewrite lookup_insert_eq. unfold remainingDistance. simpl. split.
        -- intros [= <-]. split; [by right|]. by exists m.
        -- intros [_ (m' & Hm' & ->)]. congruence.
      * rewrite lookup_insert_ne by done. rewrite Hinv. split.
        -- intros [? ?]. auto.
        -- intros [[?|?] ?]; done.
Qed.

Lemma addShortestPathNextHops_spec (me : string) (pd : bool)
    (ls : LinkState Link) (sm : Z) (ds : list string)
    (nhs nhs2 : gmap (string * string) Z) (K : string * string → Prop) :
  addShortestPathNextHops me pd ls sm ds nhs = Some nhs2 →
  (∀ k v, nhs !! k = Some v ↔ K k ∧ remainingDistance me ls sm k v) →
  ∀ k v, nhs2 !! k = Some v ↔
         (K k ∨ onShortestPath me pd ls ds k) ∧
         remainingDistance me ls sm k v.
Proof.
  unfold addShortestPathNextHops.
  revert nhs K. induction ds as [|D ds IH]; intros nhs K Hfold Hinv k v.
  - injection Hfold as <-. rewrite Hinv. split.
    + intros [? ?]. auto.
    + intros [[?|(D & r & ?%elem_of_nil & _)] ?]; done.
  - cbn [foldlM] in Hfold.
    destruct (getSpfResult ls me !! D) as [r|] eqn:Hr;
      cbn [mbind option_bind] in Hfold; [|done].
    destruct (foldlM _ nhs (elements (nextHops r))) as [nhs1|] eqn:Hinner;
      cbn [mbind option_bind] in Hfold; [|done].
    rewrite (IH _ (λ k, K k ∨ (k.1 ∈ elements (nextHops r) ∧
                               k.2 = dstNodeRef pd D)) Hfold).
    + unfold onShortestPath. split.
      * intros [[[?|[Hk1 Hk2]]|(D' & r' & HD' & ?)] ?]; split; auto.
        -- right. exists D, r. split; [apply list_elem_of_here|].
           apply elem_of_elements in Hk1. done.
        -- right. exists D', r'. split; [by apply list_elem_of_further|].
           done.
      * intros [[?|(D' & r' & [->|HD']%elem_of_cons & Hr' & Hk1 & Hk2)] ?];
          split; auto.
        -- left; right. rewrite Hr in Hr'. injection Hr' as <-.
           split; [by apply elem_of_elements|done].
        -- right. exists D', r'. done.
    + by apply (shortestPathInner_spec me ls sm (dstNodeRef pd D)
                  (elements (nextHops r)) nhs).
Qed.

(** X4. With LFA disabled, and the metric from this node to every next
    hop of a closest destination known, [getNextHopsWithMetric] returns
    the least distance to a destination and records exactly the keys
    [(nh, dstTag)] where [nh] is a next hop of the SPF result towards a
    closest destination filed under [dstTag]; the value recorded is the
    shortest metric less the metric from this node to [nh].  With no
    destination in reach nothing is recorded. *)
Theorem shortest_path_next_hops_recorded (s : SpfSolverImpl) (me : string)
    (dsts : list string) (pd : bool) (ls : LinkState Link) :
  computeLfaPaths_ s = false →
  (∀ D r nh, D ∈ (getMinCostNodes (getSpfResult ls me) dsts).2 →
             getSpfResult ls me !! D = Some r → nh ∈ nextHops r →
             is_Some (getMetricFromAToB ls me nh)) →
  ∃ nhs,
    getNextHopsWithMetric s me dsts pd ls
    = Some ((getMinCostNodes (getSpfResult ls me) dsts).1, nhs) ∧
    (∀ k v,
       nhs !! k = Some v ↔
       (∃ D r, D ∈ (getMinCostNodes (getSpfResult ls me) dsts).2 ∧
               getSpfResult ls me !! D = Some r ∧
               k.1 ∈ nextHops r ∧ k.2 = dstNodeRef pd D) ∧
       (∃ m, getMetricFromAToB ls me k.1 = Some m ∧
             v = metric_sub
                   (getMinCostNodes (getSpfResult ls me) dsts).1 m)) ∧
    ((getMinCostNodes (getSpfResult ls me) dsts).2 = ∅ → nhs = ∅).
Proof.
  intros Hlfa Hsp.
  destruct (getNextHopsWithMetric_returns s me dsts pd ls Hsp)
    as [[sm nhs] Hres].
  { rewrite Hlfa. discriminate. }
  unfold getNextHopsWithMetric in Hres. rewrite Hlfa in Hres.
  destruct (decide _) as [Hempty|Hne].
  - injection Hres as <- <-. exists ∅. split_and!; [| |done].
    + unfold getNextHopsWithMetric. by rewrite decide_True.
    + intros k v. rewrite lookup_empty. split; [done|].
      intros [(D & r & HD & _) _]. rewrite Hempty in HD.
      by apply not_elem_of_empty in HD.
  - destruct (addShortestPathNextHops _ _ _ _ _ _) as [base|] eqn:Hbase;
      cbn [mbind option_bind] in Hres; [|done].
    injection Hres as <- <-. exists base. split_and!; [| |done].
    + unfold getNextHopsWithMetric. rewrite decide_False by done.
      by rewrite Hbase, Hlfa.
    + intros k v.
      rewrite (addShortestPathNextHops_spec _ _ _ _ _ _ _ (λ _, False)
                 Hbase).
      * unfold onShortestPath, remainingDistance. split.
        -- intros [[[]|(D & r & HD & ?)] ?]. split; [|done].
           exists D, r. by rewrite <- elem_of_elements.
        -- intros [(D & r & HD & ?) ?]. split; [|done].
           right. exists D, r. by rewrite elem_of_elements.
      * intros k' v'. rewrite lookup_empty. split; [done|by intros [[] _]].
Qed.
End ShortestPathNextHops.

Lemma shortest_path_next_hops_recorded_witness :
  computeLfaPaths_ (solverFor "A" false) = false ∧
  ∃ nhs,
    getNextHopsWithMetric (solverFor "A" false) "A" ["D"] false
      LfaScenario.linkState
    = Some ((getMinCostNodes (getSpfResult LfaScenario.linkState "A")
               ["D"]).1, nhs) ∧
    (∀ k v,
       nhs !! k = Some v ↔
       (∃ D r, D ∈ (getMinCostNodes
                      (getSpfResult LfaScenario.linkState "A") ["D"]).2 ∧
               getSpfResult LfaScenario.linkState "A" !! D = Some r ∧
               k.1 ∈ nextHops r ∧ k.2 = dstNodeRef false D) ∧
       (∃ m, getMetricFromAToB LfaScenario.linkState "A" k.1 = Some m ∧
             v = metric_sub
                   (getMinCostNodes
                      (getSpfResult LfaScenario.linkState "A") ["D"]).1
                   m)) ∧
    ((getMinCostNodes (getSpfResult LfaScenario.linkState "A") ["D"]).2
     = ∅ → nhs = ∅).
Proof.
  split; [reflexivity|].
  exact (shortest_path_next_hops_recorded (solverFor "A" false) "A" ["D"]
           false LfaScenario.linkState eq_refl lfa_scenario_metrics_known).
Defined.

(** ** The nodes that announce a prefix *)

Lemma elem_of_set_insert (x y : string) (l : list string) :
  y ∈ set_insert x l ↔ y = x ∨ y ∈ l.
Proof.
  induction l as [|z l IH]; simpl.
  - rewrite list_elem_of_singleton, elem_of_nil. tauto.
  - destruct (String.eqb_spec x z) as [->|Hne].
    + rewrite elem_of_cons. tauto.
    + destruct (String.ltb x z).
      * rewrite elem_of_cons. tauto.
      * rewrite !elem_of_cons, IH. tauto.
Qed.

Lemma allAnnouncingNodes_spec (me : string) (advertisers : list string) :
  match allAnnouncingNodes me advertisers with
  | None => me ∈ advertisers
  | Some ns => (me ∉ advertisers) ∧ (∀ n, n ∈ ns ↔ n ∈ advertisers)
  end.
Proof.
  unfold allAnnouncingNodes.
  enough (Hgen : ∀ acc,
    match foldlM (λ acc n, if String.eqb n me then None
                           else Some (set_insert n acc)) acc advertisers
    with
    | None => me ∈ advertisers
    | Some ns =>
        (me ∉ advertisers) ∧ (∀ n, n ∈ ns ↔ n ∈ acc ∨ n ∈ advertisers)
    end).
  { specialize (Hgen []). destruct (foldlM _ _ _); [|done].
    destruct Hgen as [? Hmem]. split; [done|]. intros n. rewrite Hmem.
    rewrite elem_of_nil. tauto. }
  induction advertisers as [|a l IH]; intros acc; cbn [foldlM].
  - split; [by intros ?%elem_of_nil|]. intros n. rewrite elem_of_nil. tauto.
  - destruct (String.eqb_spec a me) as [->|Hne]; cbn [mbind option_bind].
    + apply list_elem_of_here.
    + specialize (IH (set_insert a acc)).
      destruct (foldlM _ _ l) as [ns|].
      * destruct IH as [Hnot Hmem]. split.
        -- rewrite elem_of_cons. intros [?|?]; [congruence|done].
        -- intros n. rewrite Hmem, elem_of_set_insert, elem_of_cons. tauto.
      * by apply list_elem_of_further.
Qed.

Lemma elem_of_map_keys {V : Type} (m : gmap string V) (n : string) :
  n ∈ (map_to_list m).*1 ↔ is_Some (m !! n).
Proof.
  rewrite list_elem_of_fmap. split.
  - intros ([k v] & -> & Hkv). apply elem_of_map_to_list in Hkv. by eexists.
  - intros [v Hv]. exists (n, v). split; [done|].
    by apply elem_of_map_to_list.
Qed.

Section AnnouncingNodes.
Context {Link : Type} `{LinkOps Link}.

Lemma maybeFilterDrainedNodes_cases (result : BestPathCalResult)
    (ls : LinkState Link) :
  success (maybeFilterDrainedNodes result ls) = success result ∧
  ((∀ n, n ∈ nodes result → isNodeOverloaded ls n = true) ∧
   nodes (maybeFilterDrainedNodes result ls) = nodes result ∨
   (∃ n, n ∈ nodes result ∧ isNodeOverloaded ls n = false) ∧
   ∀ n, n ∈ nodes (maybeFilterDrainedNodes result ls) ↔
        n ∈ nodes result ∧ isNodeOverloaded ls n = false).
Proof.
  unfold maybeFilterDrainedNodes. simpl.
  assert (Hfilter : ∀ n,
    n ∈ List.filter (λ n, negb (isNodeOverloaded ls n)) (nodes result) ↔
    n ∈ nodes result ∧ isNodeOverloaded ls n = false).
  { intros n. rewrite !list_elem_of_In, List.filter_In, negb_true_iff.
    done. }
  destruct (List.filter _ (nodes result)) as [|n0 rest] eqn:Hf; simpl.
  - split; [done|]. left. split; [|done]. intros n Hn.
    destruct (isNodeOverloaded ls n) eqn:Hov; [done|]. exfalso.
    by apply (elem_of_nil n), Hfilter.
  - split; [done|]. right. split; [|exact Hfilter].
    exists n0. apply Hfilter, list_elem_of_here.
Qed.

Lemma incompatible_forwarding_type (nodePrefixes : gmap string PrefixEntry) :
  existsb (λ kv : string * PrefixEntry,
             negb (bool_decide (forwardingType kv.2 = SR_MPLS)))
          (map_to_list nodePrefixes) = true ↔
  ∃ n pe, nodePrefixes !! n = Some pe ∧ forwardingType pe ≠ SR_MPLS.
Proof.
  rewrite List.existsb_exists. split.
  - intros ([n pe] & Hin & Hft). exists n, pe.
    apply list_elem_of_In, elem_of_map_to_list in Hin. split; [done|].
    apply negb_true_iff, bool_decide_eq_false in Hft. done.
  - intros (n & pe & Hpe & Hft). exists (n, pe). split.
    + by apply list_elem_of_In, elem_of_map_to_list.
    + by apply negb_true_iff, bool_decide_eq_false.
Qed.

(** X5. For a prefix without BGP advertisers [getBestAnnouncingNodes]
    selects nothing when this node advertises the prefix itself, and
    nothing for KSP2 when an advertiser does not forward with SR_MPLS.
    Otherwise it succeeds and selects advertisers only: those that are
    not overloaded when there is one, all of them when all are
    overloaded; some node is selected as soon as the prefix has an
    advertiser. *)
Theorem getBestAnnouncingNodes_without_bgp (bestPathCalRes : BestPathCalResult)
    (me : string) (nodePrefixes : gmap string PrefixEntry)
    (useKsp2EdAlgo : bool) (ls : LinkState Link) :
  (useKsp2EdAlgo = true →
   (∃ n pe, nodePrefixes !! n = Some pe ∧ forwardingType pe ≠ SR_MPLS) →
   getBestAnnouncingNodes bestPathCalRes me nodePrefixes false useKsp2EdAlgo
     ls = emptyBestPathCalResult) ∧
  (is_Some (nodePrefixes !! me) →
   getBestAnnouncingNodes bestPathCalRes me nodePrefixes false useKsp2EdAlgo
     ls = emptyBestPathCalResult) ∧
  (nodePrefixes !! me = None →
   (useKsp2EdAlgo = false ∨
    ∀ n pe, nodePrefixes !! n = Some pe → forwardingType pe = SR_MPLS) →
   success (getBestAnnouncingNodes bestPathCalRes me nodePrefixes false
              useKsp2EdAlgo ls) = true ∧
   (∀ n, n ∈ nodes (getBestAnnouncingNodes bestPathCalRes me nodePrefixes
                      false useKsp2EdAlgo ls) →
         is_Some (nodePrefixes !! n)) ∧
   (nodePrefixes ≠ ∅ →
    nodes (getBestAnnouncingNodes bestPathCalRes me nodePrefixes false
             useKsp2EdAlgo ls) ≠ []) ∧
   ((∃ n, is_Some (nodePrefixes !! n) ∧ isNodeOverloaded ls n = false) →
    ∀ n, n ∈ nodes (getBestAnnouncingNodes bestPathCalRes me nodePrefixes
                      false useKsp2EdAlgo ls) ↔
         is_Some (nodePrefixes !! n) ∧ isNodeOverloaded ls n = false) ∧
   ((∀ n, is_Some (nodePrefixes !! n) → isNodeOverloaded ls n = true) →
    ∀ n, n ∈ nodes (getBestAnnouncingNodes bestPathCalRes me nodePrefixes
                      false useKsp2EdAlgo ls) ↔
         is_Some (nodePrefixes !! n))).
Proof.
  unfold getBestAnnouncingNodes.
  pose proof (incompatible_forwarding_type nodePrefixes) as Hinc.
  pose proof (allAnnouncingNodes_spec me (map_to_list nodePrefixes).*1)
    as Hall.
  split_and!.
  - intros -> Hbad. apply Hinc in Hbad. by rewrite Hbad.
  - intros Hme. destruct (useKsp2EdAlgo && existsb _ _); [done|]. simpl.
    destruct (allAnnouncingNodes _ _) as [ns|]; [|done].
    destruct Hall as [Hnot _]. by apply elem_of_map_keys in Hme.
  - intros Hme Hcompat.
    assert (Hgate : useKsp2EdAlgo
                    && existsb (λ kv : string * PrefixEntry,
                                  negb (bool_decide
                                          (forwardingType kv.2 = SR_MPLS)))
                               (map_to_list nodePrefixes) = false).
    { destruct Hcompat as [->|Hsr]; [done|].
      destruct useKsp2EdAlgo; [|done]. simpl.
      destruct (existsb _ _) eqn:Hex; [|done].
      apply incompatible_forwarding_type in Hex as (n & pe & Hpe & Hft).
      by destruct Hft, (Hsr n pe). }
    rewrite Hgate. simpl.
    destruct (allAnnouncingNodes _ _) as [ns|].
    2: { apply elem_of_map_keys in Hall. rewrite Hme in Hall.
         by destruct Hall. }
    destruct Hall as [_ Hns].
    destruct (maybeFilterDrainedNodes_cases
                (mkBestPathCalResult true ns "" None) ls)
      as [Hsucc Hcases].
    cbn [nodes success bestNode bestIgpMetric emptyBestPathCalResult]
      in Hsucc, Hcases |- *.
    set (r := maybeFilterDrainedNodes _ ls) in *.
    split_and!; [done|..].
    + intros n Hn. apply elem_of_map_keys, Hns.
      destruct Hcases as [[_ Heq]|[_ Hmem]].
      * by rewrite Heq in Hn.
      * by apply Hmem in Hn as [? _].
    + intros Hnonempty Hnil.
      destruct (map_choose _ Hnonempty) as (n & pe & Hpe).
      assert (Hn : n ∈ ns) by (apply Hns, elem_of_map_keys; by eexists).
      destruct Hcases as [[_ Heq]|[(n' & Hn' & Hok) Hmem]].
      * rewrite Hnil in Heq. rewrite <- Heq in Hn.
        by apply elem_of_nil in Hn.
      * assert (Hin : n' ∈ nodes r) by (by apply Hmem).
        rewrite Hnil in Hin. by apply elem_of_nil in Hin.
    + intros (n0 & Hn0 & Hok0) n.
      destruct Hcases as [[Hover _]|[_ Hmem]].
      * apply elem_of_map_keys, Hns in Hn0.
        rewrite (Hover n0 Hn0) in Hok0. discriminate Hok0.
      * rewrite Hmem, Hns, elem_of_map_keys. done.
    + intros Hover n.
      destruct Hcases as [[_ Heq]|[(n0 & Hn0 & Hok0) _]].
      * rewrite Heq, Hns, elem_of_map_keys. done.
      * apply Hns, elem_of_map_keys in Hn0.
        rewrite (Hover n0 Hn0) in Hok0. discriminate Hok0.
Qed.
End AnnouncingNodes.

(** * Further properties of the Decision module *)

(** ** Deltas and the published route database *)

Lemma entries_unchanged `{Countable K} {E R : Type} `{EqDecision E}
    (toT : E → R) (newEntries oldEntries : gmap K E) :
  entriesToUpdate toT newEntries oldEntries = [] ∧
  keysToDelete newEntries oldEntries = [] ↔
  newEntries = oldEntries.
Proof.
  split.
  - intros [Hupd Hdel]. apply map_eq. intros k.
    destruct (newEntries !! k) as [e|] eqn:Hnew.
    + destruct (decide (oldEntries !! k = Some e)) as [|Hold]; [done|].
      exfalso. apply (elem_of_nil (toT e)). rewrite <- Hupd.
      apply elem_of_entriesToUpdate. by exists k, e.
    + destruct (oldEntries !! k) as [e|] eqn:Hold; [|done].
      exfalso. apply (elem_of_nil k). rewrite <- Hdel.
      apply elem_of_keysToDelete. split; [by eexists|done].
  - intros ->. split; apply elem_of_nil_inv.
    + intros r (k & e & Hnew & Hold & _)%elem_of_entriesToUpdate. done.
    + intros k [[e He] Hnone]%elem_of_keysToDelete. congruence.
Qed.

(** X6. The delta between two route databases has nothing to update and
    nothing to delete exactly when the two databases are equal. *)
Theorem getRouteDelta_empty_iff_equal (newDb oldDb : DecisionRouteDb) :
  unicastRoutesToUpdate (getRouteDelta newDb oldDb) = [] ∧
  unicastRoutesToDelete (getRouteDelta newDb oldDb) = [] ∧
  mplsRoutesToUpdate (getRouteDelta newDb oldDb) = [] ∧
  mplsRoutesToDelete (getRouteDelta newDb oldDb) = [] ↔
  newDb = oldDb.
Proof.
  destruct newDb as [nu nm], oldDb as [ou om]. simpl.
  pose proof (entries_unchanged toTUnicastRoute nu ou) as Hu.
  pose proof (entries_unchanged toTMplsRoute nm om) as Hm.
  split.
  - intros (Huu & Hud & Hmu & Hmd). f_equal; [apply Hu|apply Hm]; done.
  - intros [= -> ->].
    destruct (proj2 Hu eq_refl) as [? ?], (proj2 Hm eq_refl) as [? ?].
    done.
Qed.

Lemma applyRouteDelta_getRouteDelta (newDb oldDb : DecisionRouteDb)
    (node : string) (events : option PerfEvents) :
  keyedByOwnKey newDb →
  applyRouteDelta
    (mkRouteDatabaseDelta node
       (unicastRoutesToUpdate (getRouteDelta newDb oldDb))
       (unicastRoutesToDelete (getRouteDelta newDb oldDb))
       (mplsRoutesToUpdate (getRouteDelta newDb oldDb))
       (mplsRoutesToDelete (getRouteDelta newDb oldDb)) events)
    oldDb = newDb.
Proof.
  intros [Hu Hm]. destruct newDb as [nu nm], oldDb as [ou om].
  unfold applyRouteDelta, getRouteDelta. simpl in *. f_equal.
  - apply apply_entries_round_trip.
    + apply fromTUnicastRoute_toTUnicastRoute.
    + intros k e He. simpl. by apply Hu.
  - apply apply_entries_round_trip.
    + apply fromTMplsRoute_toTMplsRoute.
    + intros k e He. simpl. by apply Hm.
Qed.

Lemma lookup_applyRibPolicy (policy : RibPolicy) (routeDb : DecisionRouteDb)
    (p : IpPrefix) (e : RibUnicastEntry) :
  unicastEntries (applyRibPolicy policy routeDb) !! p = Some e ↔
  ∃ e0, unicastEntries routeDb !! p = Some e0 ∧
        e = (applyAction policy e0).1 ∧ nexthops e ≠ ∅.
Proof.
  unfold applyRibPolicy. simpl. rewrite lookup_omap_Some. split.
  - intros (e0 & Hact & He0). exists e0.
    destruct (decide _) as [|Hne]; [done|]. injection Hact as <-. done.
  - intros (e0 & He0 & -> & Hne). exists e0. split; [|done].
    by rewrite decide_False.
Qed.

Lemma applyRibPolicy_keyedByOwnKey (policy : RibPolicy)
    (routeDb : DecisionRouteDb) :
  (∀ e, prefix (applyAction policy e).1 = prefix e) →
  keyedByOwnKey routeDb → keyedByOwnKey (applyRibPolicy policy routeDb).
Proof.
  intros Hpol [Hu Hm]. split; [|done].
  intros p e (e0 & He0 & -> & _)%lookup_applyRibPolicy.
  rewrite Hpol. by apply Hu.
Qed.

Section PublishedRoutes.
Context {Link : Type} `{LinkOps Link} `{Collaborators Link}.

(** The route database [sendRouteUpdate] publishes: the given one with
    the policy applied when a policy is set and active. *)
Lemma routeDb_sendRouteUpdate (now : Z) (routeDb : DecisionRouteDb)
    (events : option PerfEvents) (descr : string) (d : Decision) :
  routeDb_ (sendRouteUpdate now routeDb events descr d) =
  match ribPolicy_ d with
  | Some policy =>
      if isActive policy now then applyRibPolicy policy routeDb else routeDb
  | None => routeDb
  end.
Proof. done. Qed.

Lemma sendRouteUpdate_delta_synced (now : Z) (routeDb : DecisionRouteDb)
    (events : option PerfEvents) (descr : string) (d : Decision) :
  keyedByOwnKey routeDb →
  (∀ policy e, ribPolicy_ d = Some policy →
               prefix (applyAction policy e).1 = prefix e) →
  ∃ delta,
    routeUpdatesQueue_ (sendRouteUpdate now routeDb events descr d)
    = routeUpdatesQueue_ d ++ [delta] ∧
    thisNodeName delta = myNodeName_ d ∧
    perfEvents delta
    = (λ pe, addPerfEvent pe (myNodeName_ d) descr) <$> events ∧
    applyRouteDelta delta (routeDb_ d)
    = routeDb_ (sendRouteUpdate now routeDb events descr d).
Proof.
  intros Hkeyed Hpol. eexists. split; [reflexivity|].
  split; [reflexivity|]. split; [by destruct events|].
  rewrite routeDb_sendRouteUpdate.
  apply applyRouteDelta_getRouteDelta.
  destruct (ribPolicy_ d) as [policy|]; [|done].
  destruct (isActive policy now); [|done].
  apply applyRibPolicy_keyedByOwnKey; [|done].
  intros e. by apply Hpol.
Qed.

(** X7. [sendRouteUpdate] pushes one delta, stamped with the name of
    this node and carrying the perf events given with the event of the
    update appended; the database given holding every entry under its
    own prefix or label, and the policy in force leaving the prefix of
    an entry alone, that delta applied to the route database published
    before gives the route database published now. *)
Theorem sendRouteUpdate_delta_leads_to_routeDb (now : Z)
    (routeDb : DecisionRouteDb) (events : option PerfEvents)
    (descr : string) (d : Decision) :
  keyedByOwnKey routeDb →
  (∀ policy e, ribPolicy_ d = Some policy →
               prefix (applyAction policy e).1 = prefix e) →
  ∃ delta,
    routeUpdatesQueue_ (sendRouteUpdate now routeDb events descr d)
    = routeUpdatesQueue_ d ++ [delta] ∧
    thisNodeName delta = myNodeName_ d ∧
    perfEvents delta
    = (λ pe, addPerfEvent pe (myNodeName_ d) descr) <$> events ∧
    applyRouteDelta delta (routeDb_ d)
    = routeDb_ (sendRouteUpdate now routeDb events descr d).
Proof.
  intros Hkeyed Hpol. eexists. split; [reflexivity|].
  split; [reflexivity|]. split; [by destruct events|].
  rewrite routeDb_sendRouteUpdate.
  apply applyRouteDelta_getRouteDelta.
  destruct (ribPolicy_ d) as [policy|]; [|done].
  destruct (isActive policy now); [|done].
  apply applyRibPolicy_keyedByOwnKey; [|done].
  intros e. by apply Hpol.
Qed.

(** X8. While a policy is set and active, the route database
    [sendRouteUpdate] publishes holds, for a prefix, the entry of the
    database given after the action of the policy, and no entry whose
    next-hop set is empty after it; the MPLS entries are those given.
    Without a policy, or with one that is no longer active, the database
    given is published as it is. *)
Theorem sendRouteUpdate_applies_active_policy (now : Z)
    (routeDb : DecisionRouteDb) (events : option PerfEvents)
    (descr : string) (d : Decision) :
  (∀ policy, ribPolicy_ d = Some policy → isActive policy now = true →
     (∀ p e,
        unicastEntries (routeDb_ (sendRouteUpdate now routeDb events descr
                                    d)) !! p = Some e ↔
        ∃ e0, unicastEntries routeDb !! p = Some e0 ∧
              e = (applyAction policy e0).1 ∧ nexthops e ≠ ∅) ∧
     mplsEntries (routeDb_ (sendRouteUpdate now routeDb events descr d))
     = mplsEntries routeDb) ∧
  ((∀ policy, ribPolicy_ d = Some policy → isActive policy now = false) →
   routeDb_ (sendRouteUpdate now routeDb events descr d) = routeDb).
Proof.
  rewrite routeDb_sendRouteUpdate. split.
  - intros policy -> ->. split; [|done].
    intros p e. apply lookup_applyRibPolicy.
  - intros Hinactive. destruct (ribPolicy_ d) as [policy|]; [|done].
    by rewrite (Hinactive policy eq_refl).
Qed.
End PublishedRoutes.

Lemma routesOfA_keyedByOwnKey : keyedByOwnKey DecisionScenario.routesOfA.
Proof.
  split; simpl.
  - intros p e [[<- <-]|[_ Hemp]]%lookup_insert_Some; [done|].
    by rewrite lookup_empty in Hemp.
  - intros l e. by rewrite lookup_empty.
Qed.

Lemma sendRouteUpdate_delta_leads_to_routeDb_witness :
  keyedByOwnKey DecisionScenario.routesOfA ∧
  ∃ delta,
    routeUpdatesQueue_
      (sendRouteUpdate 5000 DecisionScenario.routesOfA (Some [])
         "COLD_START_UPDATE" DecisionScenario.coldStartExpired)
    = routeUpdatesQueue_ DecisionScenario.coldStartExpired ++ [delta] ∧
    thisNodeName delta = myNodeName_ DecisionScenario.coldStartExpired ∧
    perfEvents delta
    = (λ pe, addPerfEvent pe (myNodeName_ DecisionScenario.coldStartExpired)
               "COLD_START_UPDATE") <$> Some [] ∧
    applyRouteDelta delta (routeDb_ DecisionScenario.coldStartExpired)
    = routeDb_
        (sendRouteUpdate 5000 DecisionScenario.routesOfA (Some [])
           "COLD_START_UPDATE" DecisionScenario.coldStartExpired).
Proof.
  split; [exact routesOfA_keyedByOwnKey|].
  apply (sendRouteUpdate_delta_leads_to_routeDb 5000
           DecisionScenario.routesOfA (Some []) "COLD_START_UPDATE"
           DecisionScenario.coldStartExpired routesOfA_keyedByOwnKey).
  intros policy e Hpolicy. discriminate Hpolicy.
Defined.

(** ** Static routes: pushing and draining *)

(** X9. A static-route delta pushed to the solver is pending; draining
    the pending deltas leaves none pending, whatever they were, and
    draining once more changes nothing and returns no delta. *)
Theorem static_route_updates_drained (s : SpfSolverImpl)
    (staticRoutesDelta : RouteDatabaseDelta) :
  staticRoutesUpdated (pushRoutesDeltaUpdates staticRoutesDelta s) = true ∧
  staticRoutesUpdates_ (pushRoutesDeltaUpdates staticRoutesDelta s)
  = staticRoutesUpdates_ s ++ [staticRoutesDelta] ∧
  staticRoutes_ (pushRoutesDeltaUpdates staticRoutesDelta s)
  = staticRoutes_ s ∧
  staticRoutesUpdated (processStaticRouteUpdates s).1 = false ∧
  processStaticRouteUpdates (processStaticRouteUpdates s).1
  = ((processStaticRouteUpdates s).1, None).
Proof.
  split_and!; [|done|done| |].
  - unfold staticRoutesUpdated, pushRoutesDeltaUpdates. simpl.
    rewrite length_app. simpl. by destruct (length _ + 1)%nat eqn:E; [lia|].
  - unfold processStaticRouteUpdates. by destruct (_ && _).
  - unfold processStaticRouteUpdates at 2 3.
    destruct (_ && _); unfold processStaticRouteUpdates; simpl;
      by destruct s.
Qed.

(** ** Publications *)

Section Publications.
Context {Link : Type} `{LinkOps Link} `{Collaborators Link}.

(** X10. [getMaxFib] is at least one millisecond and at least every FIB
    time on record, and it is one millisecond or one of the times on
    record: the largest of them, and one millisecond when none is
    larger. *)
Theorem getMaxFib_largest (d : Decision) :
  1 ≤ getMaxFib d ∧
  (∀ node t, fibTimes_ d !! node = Some t → t ≤ getMaxFib d) ∧
  (getMaxFib d = 1 ∨ ∃ node, fibTimes_ d !! node = Some (getMaxFib d)).
Proof.
  unfold getMaxFib.
  apply (map_fold_weak_ind
           (λ r (m : gmap string Z),
              1 ≤ r ∧ (∀ node t, m !! node = Some t → t ≤ r) ∧
              (r = 1 ∨ ∃ node, m !! node = Some r))).
  - split_and!; [lia| |by left]. intros node t. by rewrite lookup_empty.
  - intros i x m r Hfresh (Hone & Hub & Hwit). split_and!; [lia| |].
    + intros node t [[<- <-]|[_ Hm]]%lookup_insert_Some; [lia|].
      specialize (Hub node t Hm). lia.
    + destruct (Z.max_spec r x) as [[Hlt ->]|[Hge ->]].
      * right. exists i. by rewrite lookup_insert_eq.
      * destruct Hwit as [->|(node & Hnode)]; [by left|right].
        exists node. rewrite lookup_insert_ne; [done|]. congruence.
Qed.

Lemma accumulates_refl (d : Decision) : accumulates d d.
Proof. split_and!; try done. exists []. by rewrite app_nil_r. Qed.

Lemma accumulates_trans (d1 d2 d3 : Decision) :
  accumulates d1 d2 → accumulates d2 d3 → accumulates d1 d3.
Proof.
  intros (A1 & A2 & A3 & A4 & A5 & A6 & A7 & A8 & c1 & Hc1)
         (B1 & B2 & B3 & B4 & B5 & B6 & B7 & B8 & c2 & Hc2).
  split_and!; try congruence.
  exists (c1 ++ c2). by rewrite Hc2, Hc1, app_assoc.
Qed.

Lemma updateNodePrefixDatabase_state (key : string)
    (prefixDb : PrefixDatabase) (d : Decision) :
  ∃ perPrefix fullDb,
    (updateNodePrefixDatabase key prefixDb d).1
    = set_prefixEntries perPrefix fullDb d.
Proof.
  unfold updateNodePrefixDatabase.
  destruct (prefixKeyFromStr key) as [ipPrefix|];
    [destruct (deletePrefix prefixDb);
       [|destruct (prefixEntries prefixDb)]|];
    simpl; eauto.
Qed.

Lemma processKeyVal_accumulates (area : string) (d d' : Decision)
    (kv : string * Value) :
  processKeyVal area d kv = Done d' → accumulates d d'.
Proof.
  unfold processKeyVal. destruct (value kv.2) as [raw|].
  2: { intros [= <-]. apply accumulates_refl. }
  destruct (String.prefix kAdjDbMarker kv.1).
  { destruct (readAdjacencyDatabase raw) as [adjacencyDb|].
    2: { intros [= <-]. apply accumulates_refl. }
    unfold processAdjKeyVal. destruct (negb _); [done|].
    destruct (areaLinkStates_ d !! area) as [areaLinkState|]; [|done].
    destruct (if enable_ordered_fib_programming d then _ else _)
      as [holdUpTtl holdDownTtl].
    intros [= <-].
    destruct (hasHolds _); [destruct (orderedFibTimer_ _) as [[?|]|]|];
      (split_and!; try done; by eexists). }
  destruct (String.prefix kPrefixDbMarker kv.1).
  { destruct (readPrefixDatabase raw) as [prefixDb|].
    2: { intros [= <-]. apply accumulates_refl. }
    unfold processPrefixKeyVal. destruct (negb _); [done|].
    destruct (updateNodePrefixDatabase_state kv.1 prefixDb d)
      as (pp & fd & Hstate).
    destruct (updateNodePrefixDatabase kv.1 prefixDb d) as [d1 db].
    simpl in Hstate. subst d1. intros [= <-].
    split_and!; try done. by eexists. }
  destruct (String.prefix kFibTimeMarker kv.1).
  { destruct (stoll raw) as [fibTime|]; intros [= <-];
      [|apply accumulates_refl].
    split_and!; try done. exists []. by rewrite app_nil_r. }
  intros [= <-]. apply accumulates_refl.
Qed.

Lemma processExpiredKey_accumulates (area : string) (d d' : Decision)
    (key : string) :
  processExpiredKey area d key = Done d' → accumulates d d'.
Proof.
  unfold processExpiredKey. destruct (String.prefix kAdjDbMarker key).
  { destruct (areaLinkStates_ d !! area) as [areaLinkState|]; [|done].
    intros [= <-]. split_and!; try done. by eexists. }
  destruct (String.prefix kPrefixDbMarker key).
  { destruct (updateNodePrefixDatabase_state key
                (mkPrefixDatabase (getNodeNameFromKey key) [] true None) d)
      as (pp & fd & Hstate).
    destruct (updateNodePrefixDatabase key _ d) as [d1 db].
    simpl in Hstate. subst d1. intros [= <-].
    split_and!; try done. by eexists. }
  intros [= <-]. apply accumulates_refl.
Qed.

Lemma foldOutcome_accumulates {B : Type} (f : Decision → B → Outcome Decision)
    (l : list B) (d d' : Decision) :
  (∀ a a' x, f a x = Done a' → accumulates a a') →
  foldOutcome f d l = Done d' → accumulates d d'.
Proof.
  intros Hstep. revert d. induction l as [|x l IH]; intros d; simpl.
  - intros [= <-]. apply accumulates_refl.
  - destruct (f d x) as [d1| |] eqn:Hf; [|done|done].
    intros Hrest. eapply accumulates_trans; [by eapply Hstep|by apply IH].
Qed.

(** X11. [processPublication], when it returns, has published nothing
    and dropped nothing: the published route database, the queue of
    route updates, the policy and its timer, the solver with its static
    routes and the cold-start and debounce timers are as before, and the
    calls recorded on the pending updates are those recorded before
    followed by those of the publication. *)
Theorem processPublication_accumulates (thriftPub : Publication)
    (d d' : Decision) :
  processPublication thriftPub d = Done d' → accumulates d d'.
Proof.
  unfold processPublication.
  set (area := default kDefaultArea (pub_area thriftPub)).
  set (d0 := match areaLinkStates_ d !! area with
             | Some _ => d
             | None => _
             end).
  assert (Hd0 : accumulates d d0).
  { unfold d0. destruct (areaLinkStates_ d !! area);
      [apply accumulates_refl|].
    split_and!; try done. exists []. by rewrite app_nil_r. }
  assert (Hloops :
    match foldOutcome (processKeyVal area) d0 (keyVals thriftPub) with
    | Done d1 =>
        foldOutcome (processExpiredKey area) d1 (expiredKeys thriftPub)
    | UndefinedBehaviour => UndefinedBehaviour
    | Aborted => Aborted
    end = Done d' → accumulates d d').
  { destruct (foldOutcome (processKeyVal area) d0 (keyVals thriftPub))
      as [d1| |] eqn:Hkv; [|done|done].
    intros Hexp. eapply accumulates_trans; [exact Hd0|].
    eapply accumulates_trans.
    - eapply foldOutcome_accumulates; [|exact Hkv].
      intros a a' x. apply processKeyVal_accumulates.
    - eapply foldOutcome_accumulates; [|exact Hexp].
      intros a a' x. apply processExpiredKey_accumulates. }
  destruct (keyVals thriftPub), (expiredKeys thriftPub); exact Hloops.
Qed.

Lemma foldOutcome_unchanged {A B : Type} (f : A → B → Outcome A) (a : A)
    (l : list B) :
  (∀ x, x ∈ l → f a x = Done a) → foldOutcome f a l = Done a.
Proof.
  induction l as [|x l IH]; intros Hf; simpl; [done|].
  rewrite (Hf x) by apply list_elem_of_here.
  apply IH. intros y Hy. apply Hf. by apply list_elem_of_further.
Qed.

(** X12. A publication in which every key comes without a value (a TTL
    refresh) or without a known marker, and every expired key is
    without the adjacency and the prefix marker, is passed over: it
    leaves [Decision] as it was but for the link state of its area,
    which is created when the area was not known. *)
Theorem processPublication_passes_over (thriftPub : Publication)
    (d : Decision) :
  (∀ kv, kv ∈ keyVals thriftPub → value kv.2 = None ∨ unmarked kv.1) →
  (∀ key, key ∈ expiredKeys thriftPub →
          String.prefix kAdjDbMarker key = false ∧
          String.prefix kPrefixDbMarker key = false) →
  processPublication thriftPub d
  = Done (withArea (default kDefaultArea (pub_area thriftPub)) d).
Proof.
  intros Hkv Hexp. unfold processPublication, withArea.
  set (area := default kDefaultArea (pub_area thriftPub)).
  set (d0 := match areaLinkStates_ d !! area with
             | Some _ => d
             | None => _
             end).
  assert (Hloops :
    match foldOutcome (processKeyVal area) d0 (keyVals thriftPub) with
    | Done d1 =>
        foldOutcome (processExpiredKey area) d1 (expiredKeys thriftPub)
    | UndefinedBehaviour => UndefinedBehaviour
    | Aborted => Aborted
    end = Done d0).
  { rewrite foldOutcome_unchanged.
    - apply foldOutcome_unchanged. intros key Hkey.
      destruct (Hexp key Hkey) as (Ha & Hp).
      unfold processExpiredKey. by rewrite Ha, Hp.
    - intros kv Hin. unfold processKeyVal.
      destruct (Hkv kv Hin) as [->|(Ha & Hp & Hf)]; [done|].
      rewrite Ha, Hp, Hf. by destruct (value kv.2). }
  by destruct (keyVals thriftPub), (expiredKeys thriftPub).
Qed.
End Publications.

Lemma processPublication_accumulates_witness :
  ∃ d',
    processPublication DecisionScenario.prefixPublication
      DecisionScenario.atStartup = Done d' ∧
    accumulates DecisionScenario.atStartup d'.
Proof.
  eexists. split; [reflexivity|].
  apply (processPublication_accumulates DecisionScenario.prefixPublication
           DecisionScenario.atStartup).
  reflexivity.
Defined.

Lemma processPublication_passes_over_witness :
  processPublication
    (mkPublication (Some "0")
       [("adj:B", mkValue None 2); ("other:B", mkValue (Some "x") 1)]
       ["fibTime:B"])
    DecisionScenario.routesPublishedThenNodeGone
  = Done (withArea (default kDefaultArea (Some "0"))
            DecisionScenario.routesPublishedThenNodeGone).
Proof.
  apply (processPublication_passes_over
           (mkPublication (Some "0")
              [("adj:B", mkValue None 2); ("other:B", mkValue (Some "x") 1)]
              ["fibTime:B"])
           DecisionScenario.routesPublishedThenNodeGone).
  - intros kv. simpl. rewrite !elem_of_cons, elem_of_nil.
    intros [->|[->|[]]]; [by left|right]. by split_and!.
  - intros key. simpl. rewrite list_elem_of_singleton. intros ->.
    by split.
Defined.

(** ** The prefix database of a node *)

Lemma elem_of_merged_entries (pp fd : gmap IpPrefix PrefixEntry)
    (e : PrefixEntry) :
  e ∈ (map_to_list pp).*2 ++
      (filter (λ kv, pp !! kv.1 = None) (map_to_list fd)).*2 ↔
  (∃ p, pp !! p = Some e) ∨ (∃ p, fd !! p = Some e ∧ pp !! p = None).
Proof.
  rewrite elem_of_app, !list_elem_of_fmap. split.
  - intros [([p e'] & -> & Hin)|([p e'] & -> & Hin)].
    + left. exists p. by apply elem_of_map_to_list.
    + right. exists p. apply list_elem_of_filter in Hin as [Hnone Hin].
      by apply elem_of_map_to_list in Hin.
  - intros [(p & Hp)|(p & Hp & Hnone)].
    + left. exists (p, e). split; [done|]. by apply elem_of_map_to_list.
    + right. exists (p, e). split; [done|].
      apply list_elem_of_filter. split; [done|].
      by apply elem_of_map_to_list.
Qed.

Section NodePrefixDatabase.
Context {Link : Type} `{LinkOps Link} `{Collaborators Link}.

Lemma updateNodePrefixDatabase_stored (key : string)
    (prefixDb : PrefixDatabase) (d : Decision) :
  updateNodePrefixDatabase key prefixDb d =
  (set_prefixEntries
     (<[pdb_thisNodeName prefixDb :=
          perPrefixEntriesOf (updateNodePrefixDatabase key prefixDb d).1
            (pdb_thisNodeName prefixDb)]> (perPrefixPrefixEntries_ d))
     (<[pdb_thisNodeName prefixDb :=
          fullDbEntriesOf (updateNodePrefixDatabase key prefixDb d).1
            (pdb_thisNodeName prefixDb)]> (fullDbPrefixEntries_ d)) d,
   mkPrefixDatabase (pdb_thisNodeName prefixDb)
     ((map_to_list
         (perPrefixEntriesOf (updateNodePrefixDatabase key prefixDb d).1
            (pdb_thisNodeName prefixDb))).*2 ++
      (filter (λ kv,
                 perPrefixEntriesOf
                   (updateNodePrefixDatabase key prefixDb d).1
                   (pdb_thisNodeName prefixDb) !! kv.1 = None)
              (map_to_list
                 (fullDbEntriesOf
                    (updateNodePrefixDatabase key prefixDb d).1
                    (pdb_thisNodeName prefixDb)))).*2)
     false (pdb_perfEvents prefixDb)).
Proof.
  unfold updateNodePrefixDatabase, perPrefixEntriesOf, fullDbEntriesOf.
  destruct (prefixKeyFromStr key) as [ipPrefix|];
    [destruct (deletePrefix prefixDb);
       [|destruct (prefixEntries prefixDb)]|];
    simpl; by rewrite !lookup_insert_eq.
Qed.

(** X13. [updateNodePrefixDatabase] touches the entries of the node of
    the update only.  Under a per-prefix key it removes the node's
    per-prefix entry of the prefix when the update is a deletion, and
    otherwise files the first entry of the update under the prefix,
    doing nothing when the update has no entry; under any other key it
    replaces what the node's full database holds by the entries of the
    update, each under its own prefix.  The database it returns carries
    the perf events of the update, is not a deletion, and lists the
    node's per-prefix entries together with those entries of its full
    database whose prefix has no per-prefix entry. *)
Theorem updateNodePrefixDatabase_overrides (key : string)
    (prefixDb : PrefixDatabase) (d : Decision) :
  (∀ n, n ≠ pdb_thisNodeName prefixDb →
        perPrefixEntriesOf (updateNodePrefixDatabase key prefixDb d).1 n
        = perPrefixEntriesOf d n ∧
        fullDbEntriesOf (updateNodePrefixDatabase key prefixDb d).1 n
        = fullDbEntriesOf d n) ∧
  (∀ ipPrefix, prefixKeyFromStr key = Some ipPrefix →
     fullDbEntriesOf (updateNodePrefixDatabase key prefixDb d).1
       (pdb_thisNodeName prefixDb)
     = fullDbEntriesOf d (pdb_thisNodeName prefixDb) ∧
     perPrefixEntriesOf (updateNodePrefixDatabase key prefixDb d).1
       (pdb_thisNodeName prefixDb)
     = if deletePrefix prefixDb
       then delete ipPrefix
              (perPrefixEntriesOf d (pdb_thisNodeName prefixDb))
       else match prefixEntries prefixDb with
            | [] => perPrefixEntriesOf d (pdb_thisNodeName prefixDb)
            | entry :: _ =>
                <[ipPrefix := entry]>
                  (perPrefixEntriesOf d (pdb_thisNodeName prefixDb))
            end) ∧
  (prefixKeyFromStr key = None →
     perPrefixEntriesOf (updateNodePrefixDatabase key prefixDb d).1
       (pdb_thisNodeName prefixDb)
     = perPrefixEntriesOf d (pdb_thisNodeName prefixDb) ∧
     ∀ p e,
       fullDbEntriesOf (updateNodePrefixDatabase key prefixDb d).1
         (pdb_thisNodeName prefixDb) !! p = Some e ↔
       list.last (filter (λ entry, pe_prefix entry = p)
                         (prefixEntries prefixDb)) = Some e) ∧
  pdb_thisNodeName (updateNodePrefixDatabase key prefixDb d).2
  = pdb_thisNodeName prefixDb ∧
  deletePrefix (updateNodePrefixDatabase key prefixDb d).2 = false ∧
  pdb_perfEvents (updateNodePrefixDatabase key prefixDb d).2
  = pdb_perfEvents prefixDb ∧
  (∀ e, e ∈ prefixEntries (updateNodePrefixDatabase key prefixDb d).2 ↔
        (∃ p, perPrefixEntriesOf (updateNodePrefixDatabase key prefixDb d).1
                (pdb_thisNodeName prefixDb) !! p = Some e) ∨
        (∃ p, fullDbEntriesOf (updateNodePrefixDatabase key prefixDb d).1
                (pdb_thisNodeName prefixDb) !! p = Some e ∧
              perPrefixEntriesOf (updateNodePrefixDatabase key prefixDb d).1
                (pdb_thisNodeName prefixDb) !! p = None)).
Proof.
  split_and!.
  - intros n Hn.
    unfold updateNodePrefixDatabase, perPrefixEntriesOf, fullDbEntriesOf.
    destruct (prefixKeyFromStr key) as [ipPrefix|];
      [destruct (deletePrefix prefixDb);
         [|destruct (prefixEntries prefixDb)]|];
      simpl; by rewrite !lookup_insert_ne.
  - intros ipPrefix Hkey.
    unfold updateNodePrefixDatabase, perPrefixEntriesOf, fullDbEntriesOf.
    rewrite Hkey.
    destruct (deletePrefix prefixDb); [|destruct (prefixEntries prefixDb)];
      simpl; by rewrite !lookup_insert_eq.
  - intros Hkey.
    unfold updateNodePrefixDatabase, perPrefixEntriesOf, fullDbEntriesOf.
    rewrite Hkey. simpl. rewrite !lookup_insert_eq. simpl.
    split; [done|]. intros p e.
    generalize (prefixEntries prefixDb). intros l.
    induction l as [|x l IH] using rev_ind; simpl.
    + by rewrite lookup_empty.
    + rewrite foldl_snoc, list.filter_app, list.filter_cons,
        list.filter_nil.
      destruct (decide (pe_prefix x = p)) as [<-|Hne].
      * by rewrite lookup_insert_eq, last_snoc.
      * by rewrite lookup_insert_ne, app_nil_r.
  - by rewrite updateNodePrefixDatabase_stored.
  - by rewrite updateNodePrefixDatabase_stored.
  - by rewrite updateNodePrefixDatabase_stored.
  - intros e. rewrite updateNodePrefixDatabase_stored at 1.
    cbn [snd prefixEntries]. apply elem_of_merged_entries.
Qed.
End NodePrefixDatabase.

(** ** Processing the pending updates *)

Section PendingUpdates.
Context {Link : Type} `{LinkOps Link} `{Collaborators Link}.

Lemma drainStaticRoutes_spec (d : Decision) :
  (drainStaticRoutes d).2 = staticRoutesUpdated (spfSolver_ d) ∧
  myNodeName_ (drainStaticRoutes d).1 = myNodeName_ d ∧
  routeDb_ (drainStaticRoutes d).1 = routeDb_ d ∧
  ribPolicy_ (drainStaticRoutes d).1 = ribPolicy_ d ∧
  pendingUpdates_ (drainStaticRoutes d).1 = pendingUpdates_ d ∧
  processUpdatesBackoff_ (drainStaticRoutes d).1
  = processUpdatesBackoff_ d ∧
  staticRoutesUpdated (spfSolver_ (drainStaticRoutes d).1) = false ∧
  routeUpdatesQueue_ (drainStaticRoutes d).1
  = routeUpdatesQueue_ d ++
    (if staticRoutesUpdated (spfSolver_ d)
     then option_list (processStaticRouteUpdates (spfSolver_ d)).2
     else []).
Proof.
  unfold drainStaticRoutes.
  destruct (staticRoutesUpdated (spfSolver_ d)) eqn:Hupd; simpl.
  - assert (Hdone : staticRoutesUpdated
                      (processStaticRouteUpdates (spfSolver_ d)).1 = false).
    { unfold processStaticRouteUpdates. by destruct (_ && _). }
    destruct (processStaticRouteUpdates (spfSolver_ d)) as [s' [delta|]];
      simpl in *; split_and!; try done.
    by rewrite app_nil_r.
  - split_and!; try done. by rewrite app_nil_r.
Qed.

(** X14. When [processPendingUpdates] runs after the cold start, the
    pending updates are cleared, the debounce timer is stopped and no
    static-route delta is left pending.  When no pending update asks
    for routes and no static route was pending, nothing is published.
    When routes are asked for and the route build returns a database
    (every entry under its own prefix or label, the policy in force
    leaving prefixes alone), the queue receives the squashed
    static-route delta, if any, followed by one delta that carries the
    perf events of the pending updates with the event of the update
    appended and that, applied to the route database published before,
    gives the one published now. *)
Theorem processPendingUpdates_publishes (now : Z) (d : Decision) :
  coldStartTimer_ d = false →
  pendingUpdates_ (processPendingUpdates now d) = [] ∧
  processUpdatesTimer_ (processPendingUpdates now d) = None ∧
  staticRoutesUpdated (spfSolver_ (processPendingUpdates now d)) = false ∧
  (needsRouteUpdate (pendingUpdates_ d ++ [addEvent "DECISION_DEBOUNCE"])
   = false →
   staticRoutesUpdated (spfSolver_ d) = false →
   routeUpdatesQueue_ (processPendingUpdates now d) = routeUpdatesQueue_ d ∧
   routeDb_ (processPendingUpdates now d) = routeDb_ d) ∧
  (∀ routeDb,
     needsRouteUpdate (pendingUpdates_ d ++ [addEvent "DECISION_DEBOUNCE"])
     || staticRoutesUpdated (spfSolver_ d) = true →
     buildRouteDb (afterStaticRoutes d) (myNodeName_ d) = Some routeDb →
     keyedByOwnKey routeDb →
     (∀ policy e, ribPolicy_ d = Some policy →
                  prefix (applyAction policy e).1 = prefix e) →
     ∃ delta,
       routeUpdatesQueue_ (processPendingUpdates now d)
       = routeUpdatesQueue_ d ++
         (if staticRoutesUpdated (spfSolver_ d)
          then option_list (processStaticRouteUpdates (spfSolver_ d)).2
          else []) ++ [delta] ∧
       thisNodeName delta = myNodeName_ d ∧
       perfEvents delta
       = (λ pe, addPerfEvent pe (myNodeName_ d) "ROUTE_UPDATE") <$>
         pendingPerfEvents
           (pendingUpdates_ d ++ [addEvent "DECISION_DEBOUNCE"]) ∧
       applyRouteDelta delta (routeDb_ d)
       = routeDb_ (processPendingUpdates now d)).
Proof.
  intros Hcold. unfold processPendingUpdates, afterStaticRoutes.
  rewrite Hcold.
  set (d1 := set_pendingUpdates
               (pendingUpdates_ d ++ [addEvent "DECISION_DEBOUNCE"]) d).
  destruct (drainStaticRoutes_spec d1)
    as (Hflag & Hname & Hdb & Hpol & Hpend & Hback & Hstatic & Hq).
  destruct (drainStaticRoutes d1) as [d2 flag]. simpl in *. subst flag.
  unfold pendingRouteDb. rewrite Hpend, Hname.
  split_and!.
  - done.
  - done.
  - destruct (needsRouteUpdate _ || _); [destruct (buildRouteDb _ _)|];
      simpl; exact Hstatic.
  - intros Hneed Hnostatic. rewrite Hneed, Hnostatic. simpl.
    rewrite Hq, Hdb, Hnostatic. by rewrite app_nil_r.
  - intros routeDb Hneed Hbuild Hkeyed Hpolicy. rewrite Hneed, Hbuild.
    set (d2' := set_pendingUpdates (pendingUpdates_ d2 ++ [moveOutEvents])
                  d2).
    destruct (sendRouteUpdate_delta_synced now routeDb
                (pendingPerfEvents
                   (pendingUpdates_ d ++ [addEvent "DECISION_DEBOUNCE"]))
                "ROUTE_UPDATE" d2' Hkeyed)
      as (delta & Hqueue & Hnode & Hevents & Hsync).
    { intros policy e Hp. apply Hpolicy. by rewrite <- Hpol. }
    exists delta. simpl in *. split_and!.
    + rewrite Hqueue, Hq. by rewrite app_assoc.
    + by rewrite Hnode.
    + by rewrite Hevents, Hname.
    + by rewrite <- Hdb.
Qed.
End PendingUpdates.

Lemma pending_scenario_builds :
  buildRouteDb (afterStaticRoutes PendingScenario.adjacencyPending)
    (myNodeName_ PendingScenario.adjacencyPending)
  = Some DecisionScenario.routesOfA.
Proof. vm_cast_no_check (eq_refl (Some DecisionScenario.routesOfA)). Qed.

Lemma processPendingUpdates_publishes_witness :
  coldStartTimer_ PendingScenario.adjacencyPending = false ∧
  pendingUpdates_
    (processPendingUpdates 7000 PendingScenario.adjacencyPending) = [] ∧
  ∃ delta,
    routeUpdatesQueue_
      (processPendingUpdates 7000 PendingScenario.adjacencyPending)
    = routeUpdatesQueue_ PendingScenario.adjacencyPending ++ [] ++ [delta] ∧
    perfEvents delta
    = Some [("A", "ADJ_DB_UPDATED"); ("A", "ROUTE_UPDATE")] ∧
    applyRouteDelta delta (routeDb_ PendingScenario.adjacencyPending)
    = routeDb_ (processPendingUpdates 7000 PendingScenario.adjacencyPending).
Proof.
  split; [reflexivity|].
  destruct (processPendingUpdates_publishes 7000
              PendingScenario.adjacencyPending eq_refl)
    as (Hpending & _ & _ & _ & Hpublished).
  split; [exact Hpending|].
  destruct (Hpublished DecisionScenario.routesOfA eq_refl
              pending_scenario_builds routesOfA_keyedByOwnKey)
    as (delta & Hqueue & _ & Hevents & Hsync).
  { intros policy e Hpolicy. discriminate Hpolicy. }
  exists delta. split; [exact Hqueue|]. split; [exact Hevents|exact Hsync].
Defined.

(** * Further properties of the route builder *)

(** ** Loops that may return *)




(** ** BGP best-path selection *)

Section BgpSelection.
Context {Link : Type} `{LinkOps Link} {MV : MetricVectorOps}.






Lemma maybeFilterDrainedNodes_subset (result : BestPathCalResult)
    (ls : LinkState Link) (n : string) :
  n ∈ nodes (maybeFilterDrainedNodes result ls) → n ∈ nodes result.
Proof.
  destruct (maybeFilterDrainedNodes_cases result ls)
    as [_ [[_ ->]|[_ Hmem]]]; [done|].
  by intros [? _]%Hmem.
Qed.


End BgpSelection.

(** ** ECMP routes *)

Section EcmpRoutes.
Context {Link : Type} `{LinkOps Link} {MV : MetricVectorOps}.

Lemma unchanged_entries (ue : gmap IpPrefix RibUnicastEntry)
    (prefix_ : IpPrefix) (P : RibUnicastEntry → Prop) :
  (∀ p, p ≠ prefix_ → ue !! p = ue !! p) ∧
  (∀ e0, ue !! prefix_ = Some e0 → ue !! prefix_ = Some e0) ∧
  (ue !! prefix_ = None → ∀ e, ue !! prefix_ = Some e → P e).
Proof. split_and!; [done|done|congruence]. Qed.

Lemma emplaced_entry (ue : gmap IpPrefix RibUnicastEntry)
    (prefix_ : IpPrefix) (e1 : RibUnicastEntry)
    (P : RibUnicastEntry → Prop) :
  P e1 →
  (∀ p, p ≠ prefix_ → emplace prefix_ e1 ue !! p = ue !! p) ∧
  (∀ e0, ue !! prefix_ = Some e0 →
         emplace prefix_ e1 ue !! prefix_ = Some e0) ∧
  (ue !! prefix_ = None →
   ∀ e, emplace prefix_ e1 ue !! prefix_ = Some e → P e).
Proof.
  intros HP. unfold emplace. split_and!.
  - intros p Hp. destruct (ue !! prefix_); [done|].
    by rewrite lookup_insert_ne.
  - intros e0 He0. rewrite He0. exact He0.
  - intros ->. rewrite lookup_insert_eq. by intros e [= <-].
Qed.

Lemma getMinCostNodes_unreachable (spfResult : gmap string NodeSpfResult)
    (dsts : list string) :
  (∀ D, D ∈ dsts → spfResult !! D = None) →
  getMinCostNodes spfResult dsts = (metric_max, ∅).
Proof.
  unfold getMinCostNodes. generalize (metric_max, ∅ : gset string).
  induction dsts as [|d dsts IH]; intros acc Hnone; simpl; [done|].
  unfold minCostStep at 2. rewrite (Hnone d) by apply list_elem_of_here.
  apply IH. intros D HD. apply Hnone. by apply list_elem_of_further.
Qed.

Lemma getBestAnnouncingNodes_self_advertised (bp : BestPathCalResult)
    (me : string) (np : gmap string PrefixEntry) (ls : LinkState Link) :
  is_Some (np !! me) →
  getBestAnnouncingNodes bp me np false false ls = emptyBestPathCalResult.
Proof.
  intros Hme. unfold getBestAnnouncingNodes. simpl.
  pose proof (allAnnouncingNodes_spec me (map_to_list np).*1) as Hall.
  destruct (allAnnouncingNodes _ _) as [ns|]; [|done].
  destruct Hall as [Hnot _]. by apply elem_of_map_keys in Hme.
Qed.

Lemma getBestAnnouncingNodes_others_advertise (bp : BestPathCalResult)
    (me : string) (np : gmap string PrefixEntry) (ls : LinkState Link) :
  np !! me = None →
  success (getBestAnnouncingNodes bp me np false false ls) = true ∧
  ∀ n, n ∈ nodes (getBestAnnouncingNodes bp me np false false ls) →
       is_Some (np !! n).
Proof.
  intros Hme. unfold getBestAnnouncingNodes. simpl.
  pose proof (allAnnouncingNodes_spec me (map_to_list np).*1) as Hall.
  destruct (allAnnouncingNodes _ _) as [ns|].
  2: { apply elem_of_map_keys in Hall. rewrite Hme in Hall.
       by destruct Hall. }
  destruct Hall as [_ Hns].
  destruct (maybeFilterDrainedNodes_cases
              (mkBestPathCalResult true ns "" None) ls) as [Hsucc _].
  split; [done|]. intros n Hn%maybeFilterDrainedNodes_subset.
  by apply elem_of_map_keys, Hns.
Qed.

(** X17. [selectEcmpOpenr] installs nothing and counts nothing for a
    prefix this node advertises itself.  For a prefix of other nodes
    none of which is found in the SPF result it installs nothing and
    counts one [decision.no_route_to_prefix].  Whenever it returns, the
    entries of the other prefixes are as before, an entry the prefix
    already had is kept, and an entry it installs carries the prefix
    and, for next hops, what [getNextHopsThrift] makes of the next-hop
    nodes, of which there is at least one, towards the advertisers
    selected. *)
Theorem selectEcmpOpenr_installs (s : SpfSolverImpl)
    (ue : gmap IpPrefix RibUnicastEntry) (me : string) (prefix_ : IpPrefix)
    (np : gmap string PrefixEntry) (isV4 : bool) (ls : LinkState Link)
    (cnt : Counters) :
  (is_Some (np !! me) →
   selectEcmpOpenr s ue me prefix_ np isV4 ls cnt = Some (ue, cnt)) ∧
  (np !! me = None →
   (∀ n, is_Some (np !! n) → getSpfResult ls me !! n = None) →
   selectEcmpOpenr s ue me prefix_ np isV4 ls cnt
   = Some (ue, addStatValue "decision.no_route_to_prefix" 1 cnt)) ∧
  (∀ ue' cnt',
     selectEcmpOpenr s ue me prefix_ np isV4 ls cnt = Some (ue', cnt') →
     (∀ p, p ≠ prefix_ → ue' !! p = ue !! p) ∧
     (∀ e0, ue !! prefix_ = Some e0 → ue' !! prefix_ = Some e0) ∧
     (ue !! prefix_ = None →
      ∀ e, ue' !! prefix_ = Some e →
           prefix e = prefix_ ∧
           ∃ metricNhs,
             getNextHopsWithMetric s me
               (nodes (getBestAnnouncingNodes emptyBestPathCalResult me np
                         false false ls))
               (bool_decide (getPrefixForwardingType np = SR_MPLS)) ls
             = Some metricNhs ∧
             metricNhs.2 ≠ ∅ ∧
             getNextHopsThrift s me
               (nodes (getBestAnnouncingNodes emptyBestPathCalResult me np
                         false false ls))
               isV4 (bool_decide (getPrefixForwardingType np = SR_MPLS))
               metricNhs.1 metricNhs.2 None ls
             = Some (nexthops e))).
Proof.
  unfold selectEcmpOpenr, bestAnnouncingNodes. simpl. split_and!.
  - intros Hme. by rewrite getBestAnnouncingNodes_self_advertised.
  - intros Hme Hnone.
    destruct (getBestAnnouncingNodes_others_advertise
                emptyBestPathCalResult me np ls Hme) as [-> Hadv].
    simpl. unfold getNextHopsWithMetric.
    rewrite getMinCostNodes_unreachable.
    + simpl. rewrite decide_True by done. simpl.
      by rewrite decide_True.
    + intros D HD. by apply Hnone, Hadv.
  - intros ue' cnt'.
    destruct (success _); simpl;
      [|intros [= <- <-]; apply unchanged_entries].
    destruct (getNextHopsWithMetric _ _ _ _ _) as [metricNhs|];
      simpl; [|done].
    destruct (decide _) as [|Hne];
      [intros [= <- <-]; apply unchanged_entries|].
    destruct (getNextHopsThrift _ _ _ _ _ _ _ _ _) as [nhs|] eqn:Hnhs;
      simpl; [|done].
    intros [= <- <-].
    apply (emplaced_entry ue prefix_ _
             (λ e, prefix e = prefix_ ∧
                   ∃ metricNhs',
                     Some metricNhs = Some metricNhs' ∧
                     metricNhs'.2 ≠ ∅ ∧
                     getNextHopsThrift s me
                       (nodes (getBestAnnouncingNodes emptyBestPathCalResult
                                 me np false false ls))
                       isV4
                       (bool_decide (getPrefixForwardingType np = SR_MPLS))
                       metricNhs'.1 metricNhs'.2 None ls
                     = Some (nexthops e))).
    split; [done|]. by exists metricNhs.
Qed.

End EcmpRoutes.

(** ** The BGP prefix of the scenario *)



(** Without the IGP metric the two advertisers of the scenario enter
    the comparison with the same vector, and the selection fails. *)
Lemma route_builder_scenario_selection_fails :
  success <$>
    runBestPathSelectionBgp (MV := RouteBuilderScenario.metricVectors)
      (mkSpfSolverImpl ∅ [] "A" true false false false false) "A"
      RouteBuilderScenario.bgpAdvertisers RouteBuilderScenario.linkState
  = Some false.
Proof. vm_compute. reflexivity. Qed.





(** ** The route database of the solver *)

Lemma foldlM_invariant {A B : Type} (P : A → Prop) (f : A → B → option A)
    (a a' : A) (l : list B) :
  P a →
  (∀ a0 x a1, x ∈ l → P a0 → f a0 x = Some a1 → P a1) →
  foldlM f a l = Some a' → P a'.
Proof.
  revert a. induction l as [|x l IH]; intros a Ha Hf; simpl.
  - by intros [= <-].
  - destruct (f a x) as [a1|] eqn:Hx; simpl; [|done].
    apply IH.
    + apply (Hf a x a1); [apply list_elem_of_here|done..].
    + intros a0 y a2 Hy. apply Hf. by apply list_elem_of_further.
Qed.

Lemma foldl_invariant {A B : Type} (P : A → Prop) (f : A → B → A) (a : A)
    (l : list B) :
  P a → (∀ a0 x, x ∈ l → P a0 → P (f a0 x)) → P (foldl f a l).
Proof.
  revert a. induction l as [|x l IH]; intros a Ha Hf; simpl; [done|].
  apply IH.
  - apply Hf; [apply list_elem_of_here|done].
  - intros a0 y Hy. apply Hf. by apply list_elem_of_further.
Qed.

Lemma lookup_emplace_Some `{Countable K} {V : Type} (k k' : K) (v e : V)
    (m : gmap K V) :
  emplace k v m !! k' = Some e ↔
  m !! k' = Some e ∨ k' = k ∧ e = v ∧ m !! k = None.
Proof.
  unfold emplace. destruct (m !! k) as [v0|] eqn:Hk.
  - split; [by left|]. by intros [?|(_ & _ & ?)].
  - destruct (decide (k' = k)) as [->|Hne].
    + rewrite lookup_insert_eq, Hk. split.
      * intros [= <-]. by right.
      * by intros [?|(_ & -> & _)].
    + rewrite lookup_insert_ne by done. split; [by left|].
      by intros [?|(? & _)].
Qed.

Section RouteDatabase.
Context {Link : Type} `{LinkOps Link} {MV : MetricVectorOps}.

Lemma emplacedAt_lookup (prefix_ p : IpPrefix)
    (ue ue' : gmap IpPrefix RibUnicastEntry) (e : RibUnicastEntry) :
  emplacedAt prefix_ ue ue' → ue' !! p = Some e →
  ue !! p = Some e ∨ p = prefix_ ∧ prefix e = prefix_ ∧ ue' ≠ ue.
Proof.
  intros [->|(e1 & He1 & ->)]; [by left|].
  intros [?|(-> & -> & Hnone)]%lookup_emplace_Some; [by left|].
  right. split_and!; try done. intros Heq.
  assert (Hl : emplace prefix_ e1 ue !! prefix_ = Some e1)
    by (apply lookup_emplace_Some; by right).
  rewrite Heq in Hl. congruence.
Qed.

Lemma selectEcmpOpenr_emplacedAt (s : SpfSolverImpl)
    (ue ue' : gmap IpPrefix RibUnicastEntry) (me : string)
    (prefix_ : IpPrefix) (np : gmap string PrefixEntry) (isV4 : bool)
    (ls : LinkState Link) (cnt cnt' : Counters) :
  selectEcmpOpenr s ue me prefix_ np isV4 ls cnt = Some (ue', cnt') →
  emplacedAt prefix_ ue ue'.
Proof.
  unfold selectEcmpOpenr.
  destruct (bestAnnouncingNodes _ _ _ _ _ _ _) as [[ret cnt1]|];
    simpl; [|done].
  destruct (success ret); simpl; [|intros [= <- <-]; by left].
  destruct (getNextHopsWithMetric _ _ _ _ _) as [metricNhs|];
    simpl; [|done].
  destruct (decide _); [intros [= <- <-]; by left|].
  destruct (getNextHopsThrift _ _ _ _ _ _ _ _ _) as [nhs|];
    simpl; [|done].
  intros [= <- <-]. right. eexists. split; [|reflexivity]. done.
Qed.

Lemma selectEcmpBgp_emplacedAt (s : SpfSolverImpl)
    (ue ue' : gmap IpPrefix RibUnicastEntry) (me : string)
    (prefix_ : IpPrefix) (np : gmap string PrefixEntry) (isV4 : bool)
    (ls : LinkState Link) (ps : PrefixState) (cnt cnt' : Counters) :
  selectEcmpBgp s ue me prefix_ np isV4 ls ps cnt = Some (ue', cnt') →
  emplacedAt prefix_ ue ue'.
Proof.
  unfold selectEcmpBgp.
  destruct (bestAnnouncingNodes _ _ _ _ _ _ _) as [[dstInfo cnt1]|];
    simpl; [|done].
  destruct (success dstInfo); simpl; [|intros [= <- <-]; by left].
  destruct (_ || _); [intros [= <- <-]; by left|].
  destruct (getLoopbackVias ps _ _ _) as [|nh [|? ?]];
    [intros [= <- <-]; by left| |intros [= <- <-]; by left].
  destruct (getNextHopsWithMetric _ _ _ _ _) as [metricNhs|];
    simpl; [|done].
  destruct (getNextHopsThrift _ _ _ _ _ _ _ _ _) as [nhs|];
    simpl; [|done].
  destruct (np !! bestNode dstInfo) as [pe|]; simpl; [|done].
  intros [= <- <-]. right. eexists. split; [|reflexivity]. done.
Qed.

Lemma selectKsp2_emplacedAt (s : SpfSolverImpl)
    (ue ue' : gmap IpPrefix RibUnicastEntry) (prefix_ : IpPrefix)
    (me : string) (bp : BestPathCalResult)
    (np : gmap string PrefixEntry) (hasBgp : bool)
    (ls : LinkState Link) (ps : PrefixState) :
  selectKsp2 s ue prefix_ me bp np hasBgp ls ps = Some ue' →
  emplacedAt prefix_ ue ue'.
Proof.
  intros Hsel. unfold selectKsp2 in Hsel.
  destruct (length _ =? 0)%nat; [injection Hsel as <-; by left|].
  destruct (ksp2NextHops _ _ _ _ _ _ _) as [[nhs static]|];
    simpl in Hsel; [|done].
  destruct (ksp2BelowMinNextHop _ _ _); [injection Hsel as <-; by left|].
  right. destruct hasBgp; simpl in Hsel.
  - destruct (getLoopbackVias ps _ _ _) as [|nh [|? ?]]; simpl in Hsel.
    + injection Hsel as <-. eexists. split; [|reflexivity]. done.
    + destruct (np !! bestNode bp) as [pe|]; simpl in Hsel; [|done].
      injection Hsel as <-. eexists. split; [|reflexivity]. done.
    + injection Hsel as <-. eexists. split; [|reflexivity]. done.
  - injection Hsel as <-. eexists. split; [|reflexivity]. done.
Qed.

Lemma prefixFlags_fold (l : list (string * PrefixEntry)) (f0 : PrefixFlags) :
  hasBGP (foldl prefixFlagsStep f0 l)
  = hasBGP f0
    || existsb (λ kv : string * PrefixEntry,
                  bool_decide (pe_type kv.2 = BGP)) l ∧
  hasNonBGP (foldl prefixFlagsStep f0 l)
  = hasNonBGP f0
    || existsb (λ kv : string * PrefixEntry,
                  negb (bool_decide (pe_type kv.2 = BGP))) l ∧
  missingMv (foldl prefixFlagsStep f0 l)
  = missingMv f0
    || existsb (λ kv : string * PrefixEntry,
                  bool_decide (pe_type kv.2 = BGP)
                  && negb (bool_decide (is_Some (mv_ref kv.2)))) l.
Proof.
  revert f0. induction l as [|kv l IH]; intros f0; simpl.
  - by rewrite !orb_false_r.
  - destruct (IH (prefixFlagsStep f0 kv)) as (-> & -> & ->). simpl.
    by rewrite !orb_assoc.
Qed.

Lemma prefixFlags_routable (s : SpfSolverImpl) (me : string)
    (prefix_ : IpPrefix) (np : gmap string PrefixEntry) :
  hasBGP (prefixFlags np) && hasNonBGP (prefixFlags np) = false →
  hasBGP (prefixFlags np) && missingMv (prefixFlags np) = false →
  bool_decide (is_Some (np !! me)) && negb (hasBGP (prefixFlags np))
  = false →
  (String.length (prefixAddress_addr prefix_) =? 4)%nat
  && negb (enableV4_ s) = false →
  routable s me prefix_ np.
Proof.
  unfold prefixFlags.
  destruct (prefixFlags_fold (map_to_list np)
              (mkPrefixFlags false false false false false))
    as (-> & -> & ->). simpl.
  intros Hmixed Hmv Hown Hv4.
  assert (Hbgp : advertisedWithBgp np →
    existsb (λ kv : string * PrefixEntry,
               bool_decide (pe_type kv.2 = BGP)) (map_to_list np) = true).
  { intros (n & pe & Hn & Hpe). apply existsb_exists. exists (n, pe).
    split; [by apply list_elem_of_In, elem_of_map_to_list|].
    by apply bool_decide_eq_true. }
  split_and!.
  - intros Hlen. rewrite Hlen in Hv4. simpl in Hv4.
    by destruct (enableV4_ s).
  - intros Hme. rewrite bool_decide_eq_true_2 in Hown by done.
    simpl in Hown. apply negb_false_iff in Hown.
    apply existsb_exists in Hown as ([n pe] & Hin & Hpe).
    exists n, pe. split.
    + by apply elem_of_map_to_list, list_elem_of_In.
    + by apply bool_decide_eq_true in Hpe.
  - intros Hadv n pe Hn. rewrite (Hbgp Hadv) in Hmixed, Hmv.
    simpl in Hmixed, Hmv.
    assert (Hin : In (n, pe) (map_to_list np))
      by by apply list_elem_of_In, elem_of_map_to_list.
    assert (Hpe : pe_type pe = BGP).
    { destruct (decide (pe_type pe = BGP)) as [|Hne]; [done|].
      assert (Hex : existsb (λ kv : string * PrefixEntry,
                  negb (bool_decide (pe_type kv.2 = BGP)))
                (map_to_list np) = true); [|congruence].
      apply existsb_exists. exists (n, pe). split; [done|]. simpl.
      by rewrite bool_decide_eq_false_2. }
    split; [done|].
    destruct (mv_ref pe) as [mvec|] eqn:Hmvec; [by eexists|].
    assert (Hex : existsb (λ kv : string * PrefixEntry,
                bool_decide (pe_type kv.2 = BGP)
                && negb (bool_decide (is_Some (mv_ref kv.2))))
              (map_to_list np) = true); [|congruence].
    apply existsb_exists. exists (n, pe). split; [done|]. simpl.
    rewrite bool_decide_eq_true_2 by done. rewrite Hmvec.
    rewrite bool_decide_eq_false_2; [done|]. by intros [? ?].
Qed.

Lemma unicastRouteStep_emplacedAt (s : SpfSolverImpl) (me : string)
    (ls : LinkState Link) (ps : PrefixState)
    (st st' : gmap IpPrefix RibUnicastEntry * Counters)
    (kv : IpPrefix * gmap string PrefixEntry) :
  unicastRouteStep s me ls ps st kv = Some st' →
  emplacedAt kv.1 st.1 st'.1 ∧ (st'.1 ≠ st.1 → routable s me kv.1 kv.2).
Proof.
  unfold unicastRouteStep.
  destruct (hasBGP _ && hasNonBGP _) eqn:Hmixed;
    [intros [= <-]; split; [by left|done]|].
  destruct (hasBGP _ && missingMv _) eqn:Hmv;
    [intros [= <-]; split; [by left|done]|].
  destruct (bool_decide _ && negb _) eqn:Hown;
    [intros [= <-]; split; [by left|done]|].
  destruct (_ && negb (enableV4_ s)) eqn:Hv4;
    [intros [= <-]; split; [by left|done]|].
  pose proof (prefixFlags_routable s me kv.1 kv.2 Hmixed Hmv Hown Hv4)
    as Hroutable.
  destruct st' as [ue' cnt']. simpl.
  destruct (hasSpEcmp _ && hasBGP _).
  { by intros Hsel%selectEcmpBgp_emplacedAt. }
  destruct (hasSpEcmp _).
  { by intros Hsel%selectEcmpOpenr_emplacedAt. }
  destruct (bestAnnouncingNodes _ _ _ _ _ _ _) as [[nodes_ cnt1]|];
    simpl; [|done].
  destruct (negb _ || _); [intros [= <- <-]; split; [by left|done]|].
  destruct (selectKsp2 _ _ _ _ _ _ _ _ _) as [ue|] eqn:Hsel;
    simpl; [|done].
  intros [= <- <-]. by apply selectKsp2_emplacedAt in Hsel.
Qed.

Lemma unicastRoutes_routable (s : SpfSolverImpl) (me : string)
    (ls : LinkState Link) (ps : PrefixState) (cnt : Counters)
    (unicast : gmap IpPrefix RibUnicastEntry * Counters) :
  foldlM (unicastRouteStep s me ls ps) (∅, cnt)
    (map_to_list (prefixes ps)) = Some unicast →
  ∀ p e, unicast.1 !! p = Some e →
         prefix e = p ∧
         ∃ np, prefixes ps !! p = Some np ∧ routable s me p np.
Proof.
  apply (foldlM_invariant
           (λ st, ∀ p e, st.1 !! p = Some e →
                         prefix e = p ∧
                         ∃ np, prefixes ps !! p = Some np ∧
                               routable s me p np)).
  - intros p e. simpl. by rewrite lookup_empty.
  - intros st [p0 np] st' Hin%elem_of_map_to_list Hst
      [Hemp Hroutable]%unicastRouteStep_emplacedAt p e He.
    destruct (emplacedAt_lookup _ _ _ _ _ Hemp He)
      as [Hold|(-> & Hp & Hne)]; [by apply Hst|].
    split; [done|]. exists np. split; [done|]. by apply Hroutable.
Qed.

Lemma nodeLabelRoutes_labels (s : SpfSolverImpl) (me : string)
    (ls : LinkState Link) (order : list AdjacencyDatabase)
    (cnt : Counters) (nodeLabels : gmap Z RibMplsEntry * Counters) :
  nodeLabelRoutes s me ls order cnt ∅ = Some nodeLabels →
  ∀ l e, nodeLabels.1 !! l = Some e → label e = l.
Proof.
  unfold nodeLabelRoutes, nodeLabelLoop.
  destruct (foldlM _ _ order) as [st|] eqn:Hloop; simpl; [|done].
  intros [= <-]. simpl.
  assert (Hst : ∀ l n e, labelToNode st !! l = Some (n, e) → label e = l).
  { revert Hloop.
    apply (foldlM_invariant
             (λ st, ∀ l n e, labelToNode st !! l = Some (n, e) →
                             label e = l)).
    - intros l n e. simpl. by rewrite lookup_empty.
    - intros st0 adjDb st1 _ Hst0 Hstep.
      by apply (nodeLabelStep_keeps_own_labels s me ls st0 st1 adjDb). }
  apply (foldl_invariant (λ m : gmap Z RibMplsEntry,
                            ∀ l e, m !! l = Some e → label e = l)).
  - intros l e. by rewrite lookup_empty.
  - intros m [l0 [n0 e0]] Hin%elem_of_map_to_list Hm l e. simpl.
    intros [?|(-> & -> & _)]%lookup_emplace_Some; [by apply Hm|].
    by apply (Hst l0 n0).
Qed.

Lemma adjLabelStep_lookup (me : string)
    (st : gmap Z RibMplsEntry * Counters) (link : Link) (l : Z)
    (e : RibMplsEntry) :
  (adjLabelStep me st link).1 !! l = Some e ↔
  st.1 !! l = Some e ∨
  l = getAdjLabelFromNode link me ∧ l ≠ 0 ∧ isMplsLabelValid l = true ∧
  e = adjLabelRoute me link ∧ st.1 !! l = None.
Proof.
  unfold adjLabelStep.
  destruct (Z.eqb_spec (getAdjLabelFromNode link me) 0) as [Hz|Hnz].
  { split; [by left|]. intros [?|(-> & ? & _)]; done. }
  destruct (isMplsLabelValid (getAdjLabelFromNode link me)) eqn:Hvalid;
    simpl.
  - rewrite lookup_emplace_Some. split.
    + intros [?|(-> & -> & ?)]; [by left|by right].
    + intros [?|(-> & _ & _ & -> & ?)]; [by left|by right].
  - split; [by left|]. intros [?|(-> & _ & ? & _)]; [done|congruence].
Qed.

Lemma adjLabelRoutes_lookup (me : string) (links : list Link)
    (st : gmap Z RibMplsEntry * Counters) :
  (∀ l e, st.1 !! l = Some e →
          (foldl (adjLabelStep me) st links).1 !! l = Some e) ∧
  (∀ l e, (foldl (adjLabelStep me) st links).1 !! l = Some e →
          st.1 !! l = Some e ∨
          ∃ link, link ∈ links ∧ getAdjLabelFromNode link me = l ∧
                  l ≠ 0 ∧ isMplsLabelValid l = true ∧
                  e = adjLabelRoute me link) ∧
  (∀ link, link ∈ links → getAdjLabelFromNode link me ≠ 0 →
           isMplsLabelValid (getAdjLabelFromNode link me) = true →
           is_Some ((foldl (adjLabelStep me) st links).1
                      !! getAdjLabelFromNode link me)).
Proof.
  revert st. induction links as [|link links IH]; intros st; simpl.
  { split_and!; [done|by left|by intros link ?%elem_of_nil]. }
  destruct (IH (adjLabelStep me st link)) as (Hkeep & Hfrom & Hall).
  split_and!.
  - intros l e Hl. apply Hkeep, adjLabelStep_lookup. by left.
  - intros l e [Hl|(link' & Hin & ?)]%Hfrom.
    + apply adjLabelStep_lookup in Hl
        as [?|(-> & ? & ? & -> & _)]; [by left|].
      right. exists link. split; [apply list_elem_of_here|done].
    + right. exists link'. split; [by apply list_elem_of_further|done].
  - intros link' [->|Hin]%elem_of_cons Hnz Hvalid; [|by apply Hall].
    destruct (st.1 !! getAdjLabelFromNode link me) as [e|] eqn:Hl.
    + exists e. apply Hkeep, adjLabelStep_lookup. by left.
    + exists (adjLabelRoute me link).
      apply Hkeep, adjLabelStep_lookup. by right.
Qed.

(** X19. When [buildRouteDb] of the solver returns, it has built no
    database exactly when the node is not in the link state, and then
    it has counted nothing.  A database it has built is keyed
    consistently: every unicast entry sits under its own prefix and
    every MPLS entry under its own label. *)
Theorem SpfSolverImpl_buildRouteDb_keyed (s : SpfSolverImpl) (me : string)
    (ls : LinkState Link) (ps : PrefixState) (deltaTime : Z)
    (cnt cnt' : Counters) (routeDb : option DecisionRouteDb) :
  SpfSolverImpl_buildRouteDb s me ls ps deltaTime cnt
  = Some (routeDb, cnt') →
  (routeDb = None ↔ hasNode ls me = false) ∧
  (routeDb = None → cnt' = cnt) ∧
  (∀ db, routeDb = Some db → keyedByOwnKey db).
Proof.
  unfold SpfSolverImpl_buildRouteDb.
  destruct (hasNode ls me); simpl.
  2: { intros [= <- <-]. by split_and!. }
  destruct (foldlM _ _ (map_to_list (prefixes ps))) as [unicast|]
    eqn:Hunicast; simpl; [|done].
  destruct (nodeLabelRoutes _ _ _ _ _ _) as [nodeLabels|] eqn:Hlabels;
    simpl; [|done].
  intros [= <- <-]. split_and!; [by split|done|].
  intros db [= <-]. split; simpl.
  - intros p e He.
    by destruct (unicastRoutes_routable s me ls ps _ _ Hunicast p e He).
  - intros l e He.
    destruct (adjLabelRoutes_lookup me (linksFromNode ls me) nodeLabels)
      as (_ & Hfrom & _).
    destruct (Hfrom l e He) as [Hl|(link & _ & <- & _ & _ & ->)]; [|done].
    by apply (nodeLabelRoutes_labels s me ls _ _ _ Hlabels).
Qed.

(** X20. The unicast entries of a database the solver has built are
    entries of prefixes of the prefix state that are routable: a v4
    prefix only when v4 is enabled, a prefix this node advertises only
    when it is a BGP prefix, and a BGP prefix only when all its
    advertisers advertise it as such, each with a metric vector. *)
Theorem SpfSolverImpl_buildRouteDb_routable (s : SpfSolverImpl)
    (me : string) (ls : LinkState Link) (ps : PrefixState) (deltaTime : Z)
    (cnt cnt' : Counters) (db : DecisionRouteDb) :
  SpfSolverImpl_buildRouteDb s me ls ps deltaTime cnt
  = Some (Some db, cnt') →
  ∀ p e, unicastEntries db !! p = Some e →
         ∃ np, prefixes ps !! p = Some np ∧ routable s me p np.
Proof.
  unfold SpfSolverImpl_buildRouteDb.
  destruct (hasNode ls me); simpl; [|done].
  destruct (foldlM _ _ (map_to_list (prefixes ps))) as [unicast|]
    eqn:Hunicast; simpl; [|done].
  destruct (nodeLabelRoutes _ _ _ _ _ _) as [nodeLabels|]; simpl; [|done].
  intros [= <- <-] p e He. simpl in He.
  by destruct (unicastRoutes_routable s me ls ps _ _ Hunicast p e He).
Qed.

(** X21. The MPLS entries of a database the solver has built are the
    node-label routes and, for the labels these leave free, the routes
    of the adjacency labels of the links of this node: a node-label
    route is never replaced, every other entry is the PHP route over a
    link of this node whose adjacency label is valid and not 0, and
    every such adjacency label has an entry. *)
Theorem SpfSolverImpl_buildRouteDb_labels (s : SpfSolverImpl) (me : string)
    (ls : LinkState Link) (ps : PrefixState) (deltaTime : Z)
    (cnt cnt' : Counters) (db : DecisionRouteDb) :
  SpfSolverImpl_buildRouteDb s me ls ps deltaTime cnt
  = Some (Some db, cnt') →
  ∃ cnt1 nodeLabels,
    nodeLabelRoutes s me ls
      (map_to_list (getAdjacencyDatabases ls)).*2 cnt1 ∅
    = Some nodeLabels ∧
    (∀ l e, nodeLabels.1 !! l = Some e → mplsEntries db !! l = Some e) ∧
    (∀ l e, mplsEntries db !! l = Some e → nodeLabels.1 !! l = None →
            ∃ link, link ∈ linksFromNode ls me ∧
                    getAdjLabelFromNode link me = l ∧ l ≠ 0 ∧
                    isMplsLabelValid l = true ∧
                    e = adjLabelRoute me link) ∧
    (∀ link, link ∈ linksFromNode ls me →
             getAdjLabelFromNode link me ≠ 0 →
             isMplsLabelValid (getAdjLabelFromNode link me) = true →
             is_Some (mplsEntries db !! getAdjLabelFromNode link me)).
Proof.
  unfold SpfSolverImpl_buildRouteDb.
  destruct (hasNode ls me); simpl; [|done].
  destruct (foldlM _ _ (map_to_list (prefixes ps))) as [unicast|];
    simpl; [|done].
  destruct (nodeLabelRoutes _ _ _ _ _ _) as [nodeLabels|] eqn:Hlabels;
    simpl; [|done].
  intros [= <- <-]. exists unicast.2, nodeLabels. simpl.
  destruct (adjLabelRoutes_lookup me (linksFromNode ls me) nodeLabels)
    as (Hkeep & Hfrom & Hall).
  split_and!; try done.
  intros l e He Hnone. destruct (Hfrom l e He) as [Hl|?]; [|done].
  congruence.
Qed.
End RouteDatabase.

(** ** The route database of the scenario *)

Lemma route_builder_scenario_built :
  RouteBuilderScenario.built
  = Some (Some RouteBuilderScenario.builtDb,
          RouteBuilderScenario.builtCounters).
Proof. vm_cast_no_check (eq_refl RouteBuilderScenario.built). Qed.

(** In the scenario the BGP prefix is routed over [X], the advertiser
    with the smaller IGP cost, and the prefix of [Y] over [Y]; the
    prefix of [A] itself gets no route.  The three node labels and the
    two adjacency labels of [A] have their MPLS routes. *)
Lemma route_builder_scenario_routes :
  nexthops <$> unicastEntries RouteBuilderScenario.builtDb
                 !! RouteBuilderScenario.bgpPrefix
  = Some {[createNextHop "v4:X" (Some "if_A_X") 5 None false (Some "0")]} ∧
  bestNexthop <$> unicastEntries RouteBuilderScenario.builtDb
                    !! RouteBuilderScenario.bgpPrefix
  = Some (Some (createNextHop "lo:X" None 5 None false None)) ∧
  nexthops <$> unicastEntries RouteBuilderScenario.builtDb
                 !! RouteBuilderScenario.prefixOfY
  = Some {[createNextHop "fe80::Y" (Some "if_A_Y") 7 None false
             (Some "0")]} ∧
  unicastEntries RouteBuilderScenario.builtDb
    !! RouteBuilderScenario.prefixOfA = None ∧
  dom (mplsEntries RouteBuilderScenario.builtDb)
  = {[101; 102; 103; 50001; 50002]}.
Proof. split_and!; compute_done. Qed.

Lemma SpfSolverImpl_buildRouteDb_keyed_witness :
  (Some RouteBuilderScenario.builtDb = None ↔
   hasNode RouteBuilderScenario.linkState "A" = false) ∧
  (Some RouteBuilderScenario.builtDb = None →
   RouteBuilderScenario.builtCounters = ∅) ∧
  (∀ db, Some RouteBuilderScenario.builtDb = Some db → keyedByOwnKey db).
Proof.
  exact (SpfSolverImpl_buildRouteDb_keyed
           (MV := RouteBuilderScenario.metricVectors)
           RouteBuilderScenario.solver "A" RouteBuilderScenario.linkState
           RouteBuilderScenario.prefixState 3 ∅
           RouteBuilderScenario.builtCounters
           (Some RouteBuilderScenario.builtDb)
           route_builder_scenario_built).
Defined.

Lemma SpfSolverImpl_buildRouteDb_routable_witness :
  RouteBuilderScenario.built
  = Some (Some RouteBuilderScenario.builtDb,
          RouteBuilderScenario.builtCounters) ∧
  ∀ p e,
    unicastEntries RouteBuilderScenario.builtDb !! p = Some e →
    ∃ np, prefixes RouteBuilderScenario.prefixState !! p = Some np ∧
          routable (MV := RouteBuilderScenario.metricVectors)
            RouteBuilderScenario.solver "A" p np.
Proof.
  split; [exact route_builder_scenario_built|].
  exact (SpfSolverImpl_buildRouteDb_routable
           (MV := RouteBuilderScenario.metricVectors)
           RouteBuilderScenario.solver "A" RouteBuilderScenario.linkState
           RouteBuilderScenario.prefixState 3 ∅
           RouteBuilderScenario.builtCounters RouteBuilderScenario.builtDb
           route_builder_scenario_built).
Defined.

Lemma SpfSolverImpl_buildRouteDb_labels_witness :
  ∃ cnt1 nodeLabels,
    nodeLabelRoutes RouteBuilderScenario.solver "A"
      RouteBuilderScenario.linkState
      (map_to_list
         (getAdjacencyDatabases RouteBuilderScenario.linkState)).*2 cnt1 ∅
    = Some nodeLabels ∧
    (∀ l e, nodeLabels.1 !! l = Some e →
            mplsEntries RouteBuilderScenario.builtDb !! l = Some e) ∧
    (∀ l e, mplsEntries RouteBuilderScenario.builtDb !! l = Some e →
            nodeLabels.1 !! l = None →
            ∃ link, link ∈ linksFromNode RouteBuilderScenario.linkState "A" ∧
                    getAdjLabelFromNode link "A" = l ∧ l ≠ 0 ∧
                    isMplsLabelValid l = true ∧
                    e = adjLabelRoute "A" link) ∧
    (∀ link, link ∈ linksFromNode RouteBuilderScenario.linkState "A" →
             getAdjLabelFromNode link "A" ≠ 0 →
             isMplsLabelValid (getAdjLabelFromNode link "A") = true →
             is_Some (mplsEntries RouteBuilderScenario.builtDb
                        !! getAdjLabelFromNode link "A")).
Proof.
  exact (SpfSolverImpl_buildRouteDb_labels
           (MV := RouteBuilderScenario.metricVectors)
           RouteBuilderScenario.solver "A" RouteBuilderScenario.linkState
           RouteBuilderScenario.prefixState 3 ∅
           RouteBuilderScenario.builtCounters RouteBuilderScenario.builtDb
           route_builder_scenario_built).
Defined.

(** * Further properties of the Decision module: areas and policies *)

(** ** The route databases of the areas, merged *)

Section AreasAndPolicies.
Context {Link : Type} `{LinkOps Link} `{Collaborators Link}.

Lemma mergedRouteDb_keyedByOwnKey (d : Decision) (nodeName : string) :
  (∀ area areaDb, areaRouteDb d nodeName area = Some areaDb →
                  keyedByOwnKey areaDb) →
  keyedByOwnKey (mergedRouteDb d nodeName).
Proof.
  intros Hkeyed.
  destruct (mergedRouteDb_areas d nodeName) as (Hunicast & Hmpls & _).
  split.
  - intros p e (area & areaDb & Hdb & Hp)%Hunicast.
    by apply (Hkeyed area areaDb Hdb).
  - intros l e (area & areaDb & Hdb & Hl)%Hmpls.
    by apply (Hkeyed area areaDb Hdb).
Qed.

(** X22. [Decision::buildRouteDb] merges the route databases the solver
    builds for the areas.  Every entry of the database it returns is
    the entry some area has for the prefix or label, and every prefix
    or label that has an entry in some area has one in it; it is never
    empty, and it is keyed consistently when the databases of the areas
    are.  No database is returned only when the database of every area
    is empty. *)
Theorem buildRouteDb_merges_areas (d : Decision) (nodeName : string) :
  match buildRouteDb d nodeName with
  | Some db =>
      (unicastEntries db ≠ ∅ ∨ mplsEntries db ≠ ∅) ∧
      (∀ p e, unicastEntries db !! p = Some e →
              ∃ area areaDb, areaRouteDb d nodeName area = Some areaDb ∧
                             unicastEntries areaDb !! p = Some e) ∧
      (∀ l e, mplsEntries db !! l = Some e →
              ∃ area areaDb, areaRouteDb d nodeName area = Some areaDb ∧
                             mplsEntries areaDb !! l = Some e) ∧
      (∀ area areaDb, areaRouteDb d nodeName area = Some areaDb →
         (∀ p, is_Some (unicastEntries areaDb !! p) →
               is_Some (unicastEntries db !! p)) ∧
         (∀ l, is_Some (mplsEntries areaDb !! l) →
               is_Some (mplsEntries db !! l))) ∧
      ((∀ area areaDb, areaRouteDb d nodeName area = Some areaDb →
                       keyedByOwnKey areaDb) →
       keyedByOwnKey db)
  | None =>
      ∀ area areaDb, areaRouteDb d nodeName area = Some areaDb →
                     unicastEntries areaDb = ∅ ∧ mplsEntries areaDb = ∅
  end.
Proof.
  unfold buildRouteDb.
  destruct (mergedRouteDb_areas d nodeName) as (Hunicast & Hmpls & Hcover).
  pose proof (mergedRouteDb_keyedByOwnKey d nodeName) as Hkeyed.
  set (db := mergedRouteDb d nodeName) in *.
  destruct (bool_decide_reflect (unicastEntries db = ∅)) as [Hue|Hue];
    simpl; [|split_and!; try done; by left].
  destruct (bool_decide_reflect (mplsEntries db = ∅)) as [Hme|Hme];
    [|split_and!; try done; by right].
  intros area areaDb [Hu' Hm']%Hcover. split.
  - apply map_empty. intros p.
    destruct (unicastEntries areaDb !! p) as [e|] eqn:Hp; [|done].
    destruct (Hu' p) as [e' He']; [by eexists|].
    by rewrite Hue, lookup_empty in He'.
  - apply map_empty. intros l.
    destruct (mplsEntries areaDb !! l) as [e|] eqn:Hl; [|done].
    destruct (Hm' l) as [e' He']; [by eexists|].
    by rewrite Hme, lookup_empty in He'.
Qed.

(** ** Setting and reading the policy *)

Lemma buildRouteDb_set_ribPolicy (policy : option RibPolicy)
    (timer : option Z) (d : Decision) (nodeName : string) :
  buildRouteDb (set_ribPolicy policy timer d) nodeName
  = buildRouteDb d nodeName.
Proof. done. Qed.

(** X23. The feature being enabled, a policy that can be made of its
    thrift form and is still valid is installed by [setRibPolicy]: the
    future is fulfilled, the policy is the one [getRibPolicy] reads
    back, and its timer is set to the validity left.  During the cold
    start, or when no route database is built, nothing is published;
    otherwise the route database built is published at once with the
    new policy applied (a policy is active while its validity left is
    positive), by one more delta in the queue. *)
Theorem setRibPolicy_installs (now : Z) (ribPolicyThrift : RibPolicyThrift)
    (toThrift : RibPolicy → RibPolicyThrift) (policy : RibPolicy)
    (d : Decision) :
  isRibPolicyEnabled d = true →
  makeRibPolicy ribPolicyThrift = inr policy →
  0 < getTtlDuration policy now →
  ∃ d',
    setRibPolicy now ribPolicyThrift d = (d', FutureValue) ∧
    getRibPolicy toThrift d' = inr (toThrift policy) ∧
    ribPolicyTimer_ d' = Some (getTtlDuration policy now) ∧
    match (if coldStartTimer_ d then None
           else buildRouteDb d (myNodeName_ d)) with
    | None =>
        routeDb_ d' = routeDb_ d ∧
        routeUpdatesQueue_ d' = routeUpdatesQueue_ d
    | Some routeDb =>
        routeDb_ d' = applyRibPolicy policy routeDb ∧
        ∃ delta,
          routeUpdatesQueue_ d' = routeUpdatesQueue_ d ++ [delta] ∧
          perfEvents delta
          = Some (addPerfEvent [] (myNodeName_ d) "RIB_POLICY_UPDATE")
    end.
Proof.
  intros Henabled Hmake Httl. unfold setRibPolicy.
  rewrite Henabled, Hmake. simpl.
  destruct (Z.leb_spec (getTtlDuration policy now) 0) as [|_]; [lia|].
  eexists. split; [reflexivity|].
  unfold processRibPolicyUpdate, getRibPolicy.
  rewrite buildRouteDb_set_ribPolicy.
  assert (Hactive : isActive policy now = true).
  { unfold isActive. apply Z.gtb_lt. lia. }
  change (coldStartTimer_ (set_ribPolicy (Some policy)
            (Some (getTtlDuration policy now)) d))
    with (coldStartTimer_ d).
  change (myNodeName_ (set_ribPolicy (Some policy)
            (Some (getTtlDuration policy now)) d))
    with (myNodeName_ d).
  destruct (coldStartTimer_ d).
  { simpl. by rewrite Henabled. }
  destruct (buildRouteDb d (myNodeName_ d)) as [routeDb|].
  - rewrite routeDb_sendRouteUpdate. simpl. rewrite Henabled, Hactive.
    simpl. split_and!; try done. eexists. split; reflexivity.
  - simpl. by rewrite Henabled.
Qed.
End AreasAndPolicies.

Lemma pending_scenario_area_routes :
  buildRouteDb PendingScenario.adjacencyPending "A"
  = Some DecisionScenario.routesOfA.
Proof.
  match goal with |- _ = ?r => vm_cast_no_check (eq_refl r) end.
Qed.

Lemma setRibPolicy_installs_witness :
  ∃ d',
    setRibPolicy 1000 (1%nat, 5) PendingScenario.adjacencyPending
    = (d', FutureValue) ∧
    getRibPolicy (λ policy, (1%nat, (validUntilTs_ policy - 1000) / 1000))
      d'
    = inr (1%nat, (6000 - 1000) / 1000) ∧
    ribPolicyTimer_ d' = Some 5000 ∧
    routeDb_ d'
    = applyRibPolicy (mkRibPolicy 6000 (λ e, (e, false)))
        DecisionScenario.routesOfA ∧
    ∃ delta,
      routeUpdatesQueue_ d'
      = routeUpdatesQueue_ PendingScenario.adjacencyPending ++ [delta] ∧
      perfEvents delta
      = Some (addPerfEvent [] "A" "RIB_POLICY_UPDATE").
Proof.
  pose proof (setRibPolicy_installs 1000 (1%nat, 5)
                (λ policy, (1%nat, (validUntilTs_ policy - 1000) / 1000))
                (mkRibPolicy 6000 (λ e, (e, false)))
                PendingScenario.adjacencyPending eq_refl eq_refl)
    as Hinstalls.
  change (coldStartTimer_ PendingScenario.adjacencyPending)
    with false in Hinstalls.
  change (myNodeName_ PendingScenario.adjacencyPending)
    with "A" in Hinstalls.
  rewrite pending_scenario_area_routes in Hinstalls.
  apply Hinstalls. unfold getTtlDuration. simpl. lia.
Defined.

(** ** The solver behind Decision *)

Section SolverBehindDecision.
Context {Link : Type} `{LinkOps Link} {MV : MetricVectorOps}
  `{Collaborators Link}.

(** X24. The solver called by Decision being the solver embedded here,
    whatever time a build takes and whatever the counters are, every
    route database [Decision::buildRouteDb] returns is keyed
    consistently, and each of its unicast entries is the entry of a
    prefix of the prefix state that is routable. *)
Theorem buildRouteDb_of_solver_keyed (d : Decision) (nodeName : string) :
  (∀ s n ls ps, ∃ deltaTime cnt,
     solverBuildRouteDb s n ls ps
     = built ← SpfSolverImpl_buildRouteDb s n ls ps deltaTime cnt;
       built.1) →
  ∀ db, buildRouteDb d nodeName = Some db →
        keyedByOwnKey db ∧
        ∀ p e, unicastEntries db !! p = Some e →
               ∃ np, prefixes (prefixState_ d) !! p = Some np ∧
                     routable (spfSolver_ d) nodeName p np.
Proof.
  intros Hsolver db. unfold buildRouteDb.
  destruct (_ && _); [done|]. intros [= <-].
  assert (Harea : ∀ area areaDb,
    areaRouteDb d nodeName area = Some areaDb →
    ∃ ls deltaTime cnt cnt',
      SpfSolverImpl_buildRouteDb (spfSolver_ d) nodeName ls (prefixState_ d)
        deltaTime cnt = Some (Some areaDb, cnt')).
  { intros area areaDb. unfold areaRouteDb.
    destruct (areaLinkStates_ d !! area) as [ls|]; simpl; [|done].
    destruct (Hsolver (spfSolver_ d) nodeName ls (prefixState_ d))
      as (deltaTime & cnt & ->).
    destruct (SpfSolverImpl_buildRouteDb _ _ _ _ _ _) as [[odb cnt']|]
      eqn:Hbuild; simpl; [|done].
    intros ->. by exists ls, deltaTime, cnt, cnt'. }
  split.
  - apply mergedRouteDb_keyedByOwnKey. intros area areaDb Hdb.
    destruct (Harea area areaDb Hdb) as (ls & deltaTime & cnt & cnt' & Hb).
    revert Hb. unfold SpfSolverImpl_buildRouteDb.
    destruct (hasNode ls nodeName); simpl; [|done].
    destruct (foldlM _ _ (map_to_list (prefixes (prefixState_ d))))
      as [unicast|] eqn:Hunicast; simpl; [|done].
    destruct (nodeLabelRoutes _ _ _ _ _ _) as [nodeLabels|] eqn:Hlabels;
      simpl; [|done].
    intros [= <- _]. split; simpl.
    + intros p e He.
      by destruct (unicastRoutes_routable _ _ _ _ _ _ Hunicast p e He).
    + intros l e He.
      destruct (adjLabelRoutes_lookup nodeName (linksFromNode ls nodeName)
                  nodeLabels) as (_ & Hfrom & _).
      destruct (Hfrom l e He) as [Hl|(link & _ & <- & _ & _ & ->)];
        [|done].
      by apply (nodeLabelRoutes_labels _ _ _ _ _ _ Hlabels).
  - intros p e He.
    destruct (mergedRouteDb_areas d nodeName) as (Hunicast & _ & _).
    destruct (Hunicast p e He) as (area & areaDb & Hdb & Hp).
    destruct (Harea area areaDb Hdb) as (ls & deltaTime & cnt & cnt' & Hb).
    revert Hb. unfold SpfSolverImpl_buildRouteDb.
    destruct (hasNode ls nodeName); simpl; [|done].
    destruct (foldlM _ _ (map_to_list (prefixes (prefixState_ d))))
      as [unicast|] eqn:Hfold; simpl; [|done].
    destruct (nodeLabelRoutes _ _ _ _ _ _) as [nodeLabels|]; simpl; [|done].
    intros [= <- _]. simpl in Hp.
    by destruct (unicastRoutes_routable _ _ _ _ _ _ Hfold p e Hp).
Qed.
End SolverBehindDecision.

Lemma solver_scenario_builds :
  buildRouteDb SolverScenario.decision "A"
  = Some RouteBuilderScenario.builtDb.
Proof.
  match goal with |- _ = ?r => vm_cast_no_check (eq_refl r) end.
Qed.

Lemma buildRouteDb_of_solver_keyed_witness :
  keyedByOwnKey RouteBuilderScenario.builtDb ∧
  ∀ p e,
    unicastEntries RouteBuilderScenario.builtDb !! p = Some e →
    ∃ np, prefixes RouteBuilderScenario.prefixState !! p = Some np ∧
          routable (MV := RouteBuilderScenario.metricVectors)
            RouteBuilderScenario.solver "A" p np.
Proof.
  apply (@buildRouteDb_of_solver_keyed LabelledLink _
           RouteBuilderScenario.metricVectors SolverScenario.collaborators
           SolverScenario.decision "A").
  - intros s n ls ps. by exists 3, ∅.
  - exact solver_scenario_builds.
Defined.
